(** * DProfiler: a hierarchical wall-clock profiler

    Shallow embedding of [DProfiler.h] / [DProfiler.cpp] and the properties
    of its push / pop protocol, its per-thread section trees and its tree
    display.

    Modelling choices:
    - [DProfileSection] objects live on the C++ heap and are referred to by
      pointer ([parent], [current], the values of [children]); the heap is a
      finite map from addresses to section records and [new] returns an
      address that is not live;
    - [int] is a 32-bit two's-complement integer, its wrap-around is
      [wrap_int];
    - [double] is an interface [DoubleOps] with two instances: IEEE-754
      binary64 (primitive floats) and the exact rationals;
    - the static members of [DProfiler] and [DProfileSection] are the fields
      of [State];
    - dereferencing a pointer that is not live is undefined behaviour: the
      operations return [None] there. *)

From Stdlib Require Import ZArith QArith PrimFloat Uint63 Floats.
From stdpp Require Import gmap strings list fin_maps sorting.

Local Open Scope Z_scope.

(** ** Machine integers *)

Definition INT_MIN : Z := - 2 ^ 31.
Definition INT_MAX : Z := 2 ^ 31 - 1.

(** A 32-bit [int] after an arithmetic operation. *)
Definition wrap_int (z : Z) : Z := (z + 2 ^ 31) mod 2 ^ 32 - 2 ^ 31.

Ltac int_consts :=
  unfold INT_MIN, INT_MAX in *;
  change (2 ^ 31) with 2147483648 in *;
  change (2 ^ 32) with 4294967296 in *.

(** ** The arithmetic of [double] *)

Class DoubleOps (T : Type) := {
  d_zero : T;
  d_add : T → T → T;
  d_sub : T → T → T;
  d_mul : T → T → T;
  d_div : T → T → T;
  d_of_int : Z → T;            (* the conversion (double)i of an int *)
  d_gt : T → T → bool;         (* a > b *)
}.

(** [(double)i] for a 32-bit [i], which binary64 represents exactly. *)
Definition float_of_int (z : Z) : float :=
  match z with
  | Z0 => PrimFloat.zero
  | Zpos _ => PrimFloat.of_uint63 (Uint63.of_Z z)
  | Zneg p => PrimFloat.opp (PrimFloat.of_uint63 (Uint63.of_Z (Zpos p)))
  end.

#[export] Instance float_double : DoubleOps float := {|
  d_zero := PrimFloat.zero;
  d_add := PrimFloat.add;
  d_sub := PrimFloat.sub;
  d_mul := PrimFloat.mul;
  d_div := PrimFloat.div;
  d_of_int := float_of_int;
  d_gt := λ a b, PrimFloat.ltb b a;
|}.

#[export] Instance Q_double : DoubleOps Q := {|
  d_zero := 0%Q;
  d_add := Qplus;
  d_sub := Qminus;
  d_mul := Qmult;
  d_div := Qdiv;
  d_of_int := inject_Z;
  d_gt := λ a b, (Qnum b * QDen a <? Qnum a * QDen b)%Z;
|}.

(** ** Data model *)

(** [DProfileSection*]: the address of a section on the heap. [NULL] is
    [None] at the type [option addr]. *)
Abbreviation addr := nat (only parsing).

(** Modelled from the spec: [DThreadContext] ([DThread.h] is not among the
    sources) is an opaque thread identity, comparable for equality; a value
    constructed or [Set()] on a thread is that thread's identity. *)
Abbreviation DThreadContext := nat (only parsing).

Inductive SORT_BY := SORT_EXECUTION | SORT_TIME.

(** Iteration over a [std::map<std::string, V>] (the type
    [DProfileSections] of [children]): the entries in ascending order of
    their keys. [std::less<std::string>] compares the strings byte by byte
    as unsigned values, a proper prefix before the longer string, which is
    [String.leb]. *)
Definition key_le {V} (a b : string * V) : Prop := String.leb a.1 b.1 = true.

Definition map_iterate {V} (m : gmap string V) : list (string * V) :=
  @merge_sort (string * V) key_le
              (λ a b, bool_eq_dec (String.leb a.1 b.1) true) (map_to_list m).

Section Model.

Context {T : Type} `{DoubleOps T}.

(** Modelled from the spec: [DTime] ([DTime.h] is not among the sources) is a
    clock sample; [SetNow()] stores the current reading of the clock and
    [(a - b).ToMillis()] is the difference of two samples in milliseconds. *)
Local Abbreviation DTime := T (only parsing).

Record DProfileSection := mkSection {
  call_count : Z;
  avg_time : T;
  exec_order_id : Z;
  timer : DTime;
  parent : option addr;
  name : string;
  children : gmap string addr;
}.

Record DProfileContext := mkContext {
  thread_context : DThreadContext;
  toplevel : addr;
  current : addr;
}.

(** The static members [DProfiler::contexts], [DProfiler::end_time] and
    [DProfileSection::EXEC_ORDER_ID], the heap of sections, and the external
    clock: [clock n] is its [n]-th reading and [ticks] counts the readings
    taken so far. [DProfiler::lock] is only waited on and signalled around
    the accesses to [contexts]; in a sequential run it has no effect and is
    not represented. A [DProfileContext*] is the position of the context in
    [contexts]. *)
Record State := mkState {
  contexts : list DProfileContext;
  end_time : DTime;
  EXEC_ORDER_ID : Z;
  heap : gmap addr DProfileSection;
  clock : nat → DTime;
  ticks : nat;
}.

Definition set_current (s : addr) (c : DProfileContext) : DProfileContext :=
  mkContext (thread_context c) (toplevel c) s.

Definition set_timer (t : DTime) (s : DProfileSection) : DProfileSection :=
  mkSection (call_count s) (avg_time s) (exec_order_id s) t
            (parent s) (name s) (children s).

Definition set_stats (n : Z) (avg : T) (s : DProfileSection) : DProfileSection :=
  mkSection n avg (exec_order_id s) (timer s) (parent s) (name s) (children s).

Definition set_child (k : string) (q : addr) (s : DProfileSection) : DProfileSection :=
  mkSection (call_count s) (avg_time s) (exec_order_id s) (timer s)
            (parent s) (name s) (<[k := q]> (children s)).

Definition set_contexts (cs : list DProfileContext) (st : State) : State :=
  mkState cs (end_time st) (EXEC_ORDER_ID st) (heap st) (clock st) (ticks st).

Definition set_heap (h : gmap addr DProfileSection) (st : State) : State :=
  mkState (contexts st) (end_time st) (EXEC_ORDER_ID st) h (clock st) (ticks st).

(** A fresh profiler: nothing registered, nothing allocated. The initial
    value of [end_time] is whatever the constructor of [DTime] leaves. *)
Definition init (clk : nat → DTime) (e0 : DTime) : State :=
  mkState [] e0 0 ∅ clk 0%nat.

(** One reading of the clock, the value a [SetNow()] stores. *)
Definition now (st : State) : DTime := clock st (ticks st).

Definition tick (st : State) : State :=
  mkState (contexts st) (end_time st) (EXEC_ORDER_ID st) (heap st)
          (clock st) (S (ticks st)).

(** ** [DProfileSection::DProfileSection]

    The constructor: [parent = NULL; avg_time = 0; call_count = 0;
    exec_order_id = EXEC_ORDER_ID++]. The members [name] and [children] are
    default-constructed (empty); so is [timer], whose value is never read
    before a [SetNow()]. [new_section] allocates the object. *)
Definition DProfileSection_ctor (id : Z) : DProfileSection :=
  mkSection 0 d_zero id d_zero None "" ∅.

Definition new_section (st : State) : addr * State :=
  let p := fresh (dom (heap st)) in
  (p, mkState (contexts st) (end_time st) (wrap_int (EXEC_ORDER_ID st + 1))
              (<[p := DProfileSection_ctor (EXEC_ORDER_ID st)]> (heap st))
              (clock st) (ticks st)).

(** ** [DProfiler::GetContext] *)

(** The loop over [contexts]: the first context of the calling thread. *)
Fixpoint find_context (tid : DThreadContext) (cs : list DProfileContext)
  : option nat :=
  match cs with
  | [] => None
  | c :: cs' =>
      if decide (tid = thread_context c) then Some 0%nat
      else S <$> find_context tid cs'
  end.

Definition GetContext (tid : DThreadContext) (st : State) : nat * State :=
  match find_context tid (contexts st) with
  | Some i => (i, st)
  | None =>
      (* contexts.push_back(context); context->toplevel = new DProfileSection();
         context->current = context->toplevel *)
      let i := length (contexts st) in
      let '(top, st1) := new_section st in
      (i, set_contexts (contexts st1 ++ [mkContext tid top top]) st1)
  end.

(** ** [DProfiler::SectionPush] *)

(** Lines 94-101: the child of [cur] stored under [name], created and
    entered into [cur->children] when the map has none (the spec's
    get_or_create_child). [children[name]] on a missing key inserts [NULL],
    which the assignment in the branch overwrites at once, so a missing key
    and a [NULL] entry are the same case. *)
Definition SectionPush_child (cur : addr) (nm : string) (st : State)
  : option (addr * State) :=
  sec ← heap st !! cur;
  match children sec !! nm with
  | Some s => Some (s, st)
  | None =>
      let '(s, st1) := new_section st in
      snew ← heap st1 !! s;
      let snew := mkSection (call_count snew) (avg_time snew)
                    (exec_order_id snew) (timer snew) (Some cur) nm
                    (children snew) in
      let h1 := <[s := snew]> (heap st1) in
      cur1 ← h1 !! cur;
      Some (s, set_heap (<[cur := set_child nm s cur1]> h1) st1)
  end.

Definition SectionPush (tid : DThreadContext) (nm : string) (st : State)
  : option State :=
  let '(i, st) := GetContext tid st in
  context ← contexts st !! i;
  '(s, st) ← SectionPush_child (current context) nm st;
  (* context->current = s *)
  let st := set_contexts (<[i := set_current s context]> (contexts st)) st in
  (* context->current->timer.SetNow() *)
  sec ← heap st !! s;
  Some (tick (set_heap (<[s := set_timer (now st) sec]> (heap st)) st)).

(** The default argument of the declaration in [DProfiler.h]. *)
Definition SectionPush_default_name : string := "unlabelled section".

Definition SectionPush_noarg (tid : DThreadContext) (st : State) : option State :=
  SectionPush tid SectionPush_default_name st.

(** ** [DProfiler::SectionPop] *)

(** Lines 135-136: the running mean.
    [total_time = time + avg_time * call_count++;
     avg_time = total_time / (double)call_count]. *)
Definition record_time (time : T) (s : DProfileSection) : DProfileSection :=
  let total_time := d_add time (d_mul (avg_time s) (d_of_int (call_count s))) in
  let n := wrap_int (call_count s + 1) in
  set_stats n (d_div total_time (d_of_int n)) s.

(** [end_time.SetNow()], on the static [DProfiler::end_time]. *)
Definition end_time_SetNow (st : State) : State :=
  tick (mkState (contexts st) (now st) (EXEC_ORDER_ID st) (heap st)
                (clock st) (ticks st)).

(** Lines 117-141, all of [SectionPop] after the stop sample is taken. *)
Definition SectionPop_body (tid : DThreadContext) (st : State) : option State :=
  let '(i, st) := GetContext tid st in
  context ← contexts st !! i;
  s ← heap st !! current context;
  match parent s with
  | None => Some st
  | Some p =>
      let time := d_sub (end_time st) (timer s) in
      let st := set_heap (<[current context := record_time time s]> (heap st)) st in
      Some (set_contexts (<[i := set_current p context]> (contexts st)) st)
  end.

Definition SectionPop (tid : DThreadContext) (st : State) : option State :=
  SectionPop_body tid (end_time_SetNow st).

(** ** [DProfiler::Clear] *)

(** [delete p]: the destructor deletes every child, then the object goes.
    [fuel] bounds the depth of the recursion. *)
Fixpoint delete_section (fuel : nat) (p : addr) (h : gmap addr DProfileSection)
  : gmap addr DProfileSection :=
  match fuel with
  | O => h
  | S fuel' =>
      match h !! p with
      | None => h
      | Some s =>
          delete p (map_fold (λ _ c h', delete_section fuel' c h') h (children s))
      end
  end.

Definition Clear (st : State) : State :=
  let h := foldl (λ h c, delete_section (S (size (heap st))) (toplevel c) h)
                 (heap st) (contexts st) in
  set_heap h (set_contexts [] st).

(** ** Runs *)

Inductive Op :=
  | OpPush (tid : DThreadContext) (nm : string)
  | OpPop (tid : DThreadContext)
  | OpClear
  | OpDisplay (sort : SORT_BY).

(** [DProfiler::Display] only reads the state; what it prints is [Display]
    below. *)
Definition step (op : Op) (st : State) : option State :=
  match op with
  | OpPush tid nm => SectionPush tid nm st
  | OpPop tid => SectionPop tid st
  | OpClear => Some (Clear st)
  | OpDisplay _ => Some st
  end.

Fixpoint run (ops : list Op) (st : State) : option State :=
  match ops with
  | [] => Some st
  | op :: ops' => st' ← step op st; run ops' st'
  end.

(** The states a program can bring a fresh profiler to. *)
Inductive reachable : State → Prop :=
  | reachable_init clk e0 : reachable (init clk e0)
  | reachable_step op st st' :
      reachable st → step op st = Some st' → reachable st'.

(** ** Display *)

(** What [printf] is given, line by line: the literal lines, the thread
    banner (it prints the address of the context's [thread_context] member,
    here the position of the context), the column header and the rows
    ["%-50s  %10.2f  %10.5f  %6d\n"] with their four arguments. *)
Inductive Output :=
  | OutText (s : string)
  | OutHeader (c1 c2 c3 c4 : string)
  | OutThread (i : nat)
  | OutRow (label : string) (total : T) (avg : T) (count : Z).

Definition reverse_time_comparator (a b : DProfileSection) : bool :=
  d_gt (d_mul (avg_time a) (d_of_int (call_count a)))
       (d_mul (avg_time b) (d_of_int (call_count b))).

Definition execution_order_comparator (a b : DProfileSection) : bool :=
  exec_order_id a <? exec_order_id b.

Definition comparator (sort_by : SORT_BY) : DProfileSection → DProfileSection → bool :=
  match sort_by with
  | SORT_TIME => reverse_time_comparator
  | SORT_EXECUTION => execution_order_comparator
  end.

(** [std::sort] belongs to the C++ library: any function of this type that
    meets [sort_contract] (below) stands for it. The vector holds pointers,
    which the comparators dereference; here each pointer comes with the
    section it points to. *)
Variable std_sort :
  (DProfileSection → DProfileSection → bool) →
  list (addr * DProfileSection) → list (addr * DProfileSection).

(** The first loop of [DProfileSection::Display]: the values of
    [children], gathered in the order of iteration of the map; [std::sort]
    is applied to the result in [DProfileSection_Display]. *)
Definition children_vect (h : gmap addr DProfileSection) (s : DProfileSection)
  : option (list (addr * DProfileSection)) :=
  mapM (λ p, pair p <$> h !! p) (map_iterate (children s)).*2.

Definition drop_last2 (prefix : string) : string :=
  String.substring 0 (String.length prefix - 2) prefix.

Definition row_label (prefix : string) (sect : DProfileSection) : string :=
  if decide (1 < String.length prefix)%nat
  then drop_last2 prefix +:+ "+ " +:+ name sect
  else name sect.

Definition next_prefix (prefix : string) (i n : nat) : string :=
  if decide ((1 < String.length prefix)%nat ∧ i = (n - 1)%nat)
  then drop_last2 prefix +:+ "  "
  else prefix.

Definition row (prefix : string) (sect : DProfileSection) : Output :=
  OutRow (row_label prefix sect)
         (d_mul (avg_time sect) (d_of_int (call_count sect)))
         (avg_time sect) (call_count sect).

(** The second loop, over [children_vect] from index [i]; [n] is
    [children_vect.size()] and [rec] the recursive call. *)
Fixpoint Display_loop (rec : addr → string → option (list Output))
    (prefix : string) (n i : nat) (v : list (addr * DProfileSection))
  : option (list Output) :=
  match v with
  | [] => Some []
  | (p, sect) :: v' =>
      sub ← rec p (next_prefix prefix i n +:+ "| ");
      rest ← Display_loop rec prefix n (S i) v';
      Some (row prefix sect :: sub ++ rest)
  end.

(** [DProfileSection::Display]; [fuel] bounds the depth of the recursion. *)
Fixpoint DProfileSection_Display (fuel : nat) (h : gmap addr DProfileSection)
    (this : addr) (prefix : string) (sort_by : SORT_BY)
  : option (list Output) :=
  match fuel with
  | O => None
  | S fuel' =>
      s ← h !! this;
      v ← children_vect h s;
      let v := std_sort (comparator sort_by) v in
      Display_loop (λ p pre, DProfileSection_Display fuel' h p pre sort_by)
                   prefix (length v) 0%nat v
  end.

Definition rule : string :=
  "---------------------------------------------------------------------------------------".

(** The four lines [DProfiler::Display] prints first. *)
Definition Display_header (sort : SORT_BY) : list Output :=
  [OutText rule;
   OutText ("PRofiler output: sorted by " +:+
            match sort with
            | SORT_EXECUTION => "execution order"
            | SORT_TIME => "total time"
            end);
   OutHeader "name                            values in ms -> "
             "total " "average " "count";
   OutText rule].

(** The loop of [DProfiler::Display] over [contexts], from position [i]. *)
Fixpoint Display_contexts (fuel : nat) (h : gmap addr DProfileSection)
    (sort : SORT_BY) (i : nat) (cs : list DProfileContext)
  : option (list Output) :=
  match cs with
  | [] => Some []
  | c :: cs' =>
      tree ← DProfileSection_Display fuel h (toplevel c) "| " sort;
      rest ← Display_contexts fuel h sort (S i) cs';
      Some (OutThread i :: tree ++ rest)
  end.

(** [DProfiler::Display]. No path from a root is longer than the number of
    live sections, which is the fuel given to the recursion. *)
Definition Display (sort : SORT_BY) (st : State) : option (list Output) :=
  body ← Display_contexts (S (size (heap st))) (heap st) sort 0%nat (contexts st);
  Some (Display_header sort ++ body ++ [OutText rule]).

End Model.

Arguments DProfileSection : clear implicits.
Arguments State : clear implicits.
Arguments Output : clear implicits.

(** A clock that gives the readings of [l] in order. *)
Definition mock_clock {T} `{DoubleOps T} (l : list T) : nat → T :=
  λ n, nth n l d_zero.

(** [std::sort] as a merge sort. *)
Definition merge_std_sort {A B} (comp : B → B → bool) (l : list (A * B)) : list (A * B) :=
  @merge_sort (A * B) (λ a b, comp b.2 a.2 = false)
              (λ a b, bool_eq_dec (comp b.2 a.2) false) l.


(** What [std::sort] requires of its comparator, and what it promises: the
    result is a rearrangement of the input in which no element is ordered
    before an earlier one. *)
Definition strict_weak_order {A} (comp : A → A → bool) : Prop :=
  (∀ a, comp a a = false) ∧
  (∀ a b c, comp a b = true → comp b c = true → comp a c = true) ∧
  (∀ a b c, comp a b = false → comp b c = false → comp a c = false).

Definition sort_contract {A B}
    (sort : (B → B → bool) → list (A * B) → list (A * B)) : Prop :=
  ∀ comp v, strict_weak_order comp →
    sort comp v ≡ₚ v ∧ StronglySorted (λ a b, comp b.2 a.2 = false) (sort comp v).

(** The iteration of a map visits every entry once, keys ascending. *)
Lemma map_iterate_perm {V} (m : gmap string V) : map_iterate m ≡ₚ map_to_list m.
Proof. apply merge_sort_Permutation. Qed.

Lemma elem_of_map_iterate {V} (m : gmap string V) k v :
  (k, v) ∈ map_iterate m ↔ m !! k = Some v.
Proof. rewrite map_iterate_perm. apply elem_of_map_to_list. Qed.


Lemma merge_std_sort_contract {A B} : sort_contract (@merge_std_sort A B).
Proof.
  intros comp v (Hirr & Htr & Hneg). unfold merge_std_sort. split.
  - apply merge_sort_Permutation.
  - apply StronglySorted_merge_sort.
    + intros a b c Hab Hbc. by apply (Hneg _ b.2).
    + intros a b. destruct (comp b.2 a.2) eqn:Hba; [|by left].
      right. destruct (comp a.2 b.2) eqn:Hab; [|done].
      by rewrite <- (Hirr a.2), <- (Htr _ _ _ Hab Hba).
Qed.

(** * The section trees *)

Section Trees.

Context {T : Type} `{DoubleOps T}.

Implicit Types (h : gmap nat (DProfileSection T)) (st : State T).
Implicit Types (sec : DProfileSection T) (c : DProfileContext).
Implicit Types (l : list string) (p q r cur : nat).

(** The section reached from [p] by descending through the children named
    by [l], in order. *)
Fixpoint walk h p l : option nat :=
  match l with
  | [] => Some p
  | k :: l' => s ← h !! p; q ← children s !! k; walk h q l'
  end.

Lemma walk_app h p l1 l2 :
  walk h p (l1 ++ l2) = walk h p l1 ≫= λ q, walk h q l2.
Proof.
  revert p. induction l1 as [|k l1 IH]; intros p; simpl; [done|].
  destruct (h !! p) as [s|]; simpl; [|done].
  destruct (children s !! k) as [q|]; simpl; [apply IH|done].
Qed.

Lemma walk_snoc h r l k q :
  walk h r (l ++ [k]) = Some q ↔
  ∃ p s, walk h r l = Some p ∧ h !! p = Some s ∧ children s !! k = Some q.
Proof.
  rewrite walk_app. split.
  - destruct (walk h r l) as [p|]; simpl; [|done].
    destruct (h !! p) as [s|] eqn:Hp; simpl; [|done].
    destruct (children s !! k) as [q'|] eqn:Hk; simpl; [|done].
    intros [= <-]. eauto.
  - intros (p & s & -> & Hp & Hk). simpl. rewrite Hp. simpl. by rewrite Hk.
Qed.

(** The tree below the root [r]: the root has no parent, and every child
    entry of a section reached from [r] points to a live section whose
    [parent] and [name] point back. *)
Record wf_tree h r : Prop := {
  wf_root : ∃ sr, h !! r = Some sr ∧ parent sr = None;
  wf_child : ∀ l p sp k q,
    walk h r l = Some p → h !! p = Some sp → children sp !! k = Some q →
    ∃ sq, h !! q = Some sq ∧ parent sq = Some p ∧ name sq = k;
}.

Definition wf_ctx h c : Prop :=
  wf_tree h (toplevel c) ∧ ∃ l, walk h (toplevel c) l = Some (current c).

Definition tree_inv st : Prop :=
  ∀ c, c ∈ contexts st → wf_ctx (heap st) c.

Lemma wf_live h r l p : wf_tree h r → walk h r l = Some p → is_Some (h !! p).
Proof.
  intros [(sr & Hr & _) Hc].
  destruct l as [|k l _] using rev_ind; simpl.
  - intros [= <-]. eauto.
  - intros (p0 & s0 & Hw & Hp0 & Hk)%walk_snoc.
    destruct (Hc _ _ _ _ _ Hw Hp0 Hk) as (sq & -> & _). eauto.
Qed.

(** A section reached from the root along a non-empty path has a parent,
    the section before it on the path. *)
Lemma wf_parent h r l k q sq :
  wf_tree h r → walk h r (l ++ [k]) = Some q → h !! q = Some sq →
  ∃ p, walk h r l = Some p ∧ parent sq = Some p ∧ name sq = k.
Proof.
  intros [_ Hc] (p0 & s0 & Hw & Hp0 & Hk)%walk_snoc Hq.
  destruct (Hc _ _ _ _ _ Hw Hp0 Hk) as (sq' & Hq' & Hpar & Hname).
  rewrite Hq in Hq'. injection Hq' as <-. eauto.
Qed.

Lemma wf_root_no_snoc h r l k : wf_tree h r → walk h r (l ++ [k]) ≠ Some r.
Proof.
  intros Hwf Hw. destruct (wf_root _ _ Hwf) as (sr & Hr & Hnone).
  destruct (wf_parent _ _ _ _ _ _ Hwf Hw Hr) as (p & _ & Hpar & _).
  congruence.
Qed.

(** Paths are unique: the sections below a root form a tree. *)
Lemma wf_unique_path h r l1 l2 p :
  wf_tree h r → walk h r l1 = Some p → walk h r l2 = Some p → l1 = l2.
Proof.
  intros Hwf. revert l2 p.
  induction l1 as [|k1 l1 IH] using rev_ind; intros l2 p H1 H2.
  - simpl in H1. injection H1 as <-.
    destruct l2 as [|k2 l2 _] using rev_ind; [done|].
    by apply wf_root_no_snoc in H2.
  - destruct l2 as [|k2 l2 _] using rev_ind.
    + simpl in H2. injection H2 as <-. by apply wf_root_no_snoc in H1.
    + destruct (wf_live _ _ _ _ Hwf H1) as [sq Hq].
      destruct (wf_parent _ _ _ _ _ _ Hwf H1 Hq) as (p1 & Hw1 & Hpar1 & Hn1).
      destruct (wf_parent _ _ _ _ _ _ Hwf H2 Hq) as (p2 & Hw2 & Hpar2 & Hn2).
      assert (p1 = p2) as -> by congruence.
      rewrite (IH _ _ Hw1 Hw2). congruence.
Qed.

(** ** Heap updates that keep the trees *)

(** The links of a section: what the shape of the tree depends on. *)
Definition skel sec : option nat * string * gmap string nat :=
  (parent sec, name sec, children sec).

(** [h'] has every section of [h], with the same links. *)
Definition extends h h' : Prop :=
  ∀ a s, h !! a = Some s → ∃ s', h' !! a = Some s' ∧ skel s' = skel s.

Lemma extends_refl h : extends h h.
Proof. intros a s Ha. eauto. Qed.

Lemma extends_trans h1 h2 h3 : extends h1 h2 → extends h2 h3 → extends h1 h3.
Proof.
  intros H12 H23 a s Ha. destruct (H12 _ _ Ha) as (s2 & Ha2 & E2).
  destruct (H23 _ _ Ha2) as (s3 & Ha3 & E3). exists s3. split; [done|congruence].
Qed.

Lemma extends_alloc h q s : h !! q = None → extends h (<[q := s]> h).
Proof.
  intros Hq a sa Ha. exists sa. split; [|done].
  rewrite lookup_insert_ne; [done|]. intros ->. congruence.
Qed.

Lemma extends_update h a s s' :
  h !! a = Some s → skel s' = skel s → extends h (<[a := s']> h).
Proof.
  intros Ha E b sb Hb. destruct (decide (a = b)) as [->|Hne].
  - rewrite lookup_insert_eq. exists s'. split; [done|congruence].
  - rewrite lookup_insert_ne by done. eauto.
Qed.

Lemma extends_walk h h' r l p :
  extends h h' → walk h r l = Some p → walk h' r l = Some p.
Proof.
  intros He. revert r. induction l as [|k l IH]; intros r; simpl; [done|].
  destruct (h !! r) as [s|] eqn:Hr; simpl; [|done].
  destruct (He _ _ Hr) as (s' & -> & [= _ _ E]). simpl. rewrite E.
  destruct (children s !! k); simpl; [apply IH|done].
Qed.

Lemma extends_walk_inv h h' r l p :
  extends h h' → wf_tree h r → walk h' r l = Some p → walk h r l = Some p.
Proof.
  intros He Hwf. revert p. induction l as [|k l IH] using rev_ind; intros p.
  - done.
  - intros (p0 & s0' & Hw & Hp0 & Hk)%walk_snoc. apply IH in Hw.
    destruct (wf_live _ _ _ _ Hwf Hw) as [s0 Hs0].
    destruct (He _ _ Hs0) as (s0'' & Hs0'' & [= _ _ E]).
    apply walk_snoc. exists p0, s0. split_and!; [done..|]. congruence.
Qed.

Lemma extends_wf h h' r : extends h h' → wf_tree h r → wf_tree h' r.
Proof.
  intros He Hwf. split.
  - destruct (wf_root _ _ Hwf) as (sr & Hr & Hnone).
    destruct (He _ _ Hr) as (sr' & Hr' & [= E _ _]). exists sr'. split; congruence.
  - intros l p sp' k q Hw Hp Hk.
    apply (extends_walk_inv _ _ _ _ _ He Hwf) in Hw.
    destruct (wf_live _ _ _ _ Hwf Hw) as [sp Hsp].
    destruct (He _ _ Hsp) as (sp'' & Hsp'' & [= _ _ E]).
    assert (children sp !! k = Some q) as Hk' by congruence.
    destruct (wf_child _ _ Hwf _ _ _ _ _ Hw Hsp Hk') as (sq & Hq & Hpar & Hn).
    destruct (He _ _ Hq) as (sq' & Hq' & [= E1 E2 _]).
    exists sq'. split_and!; congruence.
Qed.

(** Every child entry of [h] is still there in [h']. *)
Definition children_kept h h' : Prop :=
  ∀ p sp k q, h !! p = Some sp → children sp !! k = Some q →
    ∃ sp', h' !! p = Some sp' ∧ children sp' !! k = Some q.

Lemma children_kept_refl h : children_kept h h.
Proof. intros p sp k q Hp Hk. eauto. Qed.

Lemma children_kept_trans h1 h2 h3 :
  children_kept h1 h2 → children_kept h2 h3 → children_kept h1 h3.
Proof.
  intros H12 H23 p sp k q Hp Hk.
  destruct (H12 _ _ _ _ Hp Hk) as (sp2 & Hp2 & Hk2). by eapply H23.
Qed.

Lemma extends_children_kept h h' : extends h h' → children_kept h h'.
Proof.
  intros He p sp k q Hp Hk. destruct (He _ _ Hp) as (sp' & Hp' & [= _ _ E]).
  exists sp'. split; [done|]. by rewrite E.
Qed.

(** Linking a new, childless section [q] under [cur] with the key [nm]. *)
Section add_child.
Variables (h : gmap nat (DProfileSection T)) (cur q : nat) (nm : string).
Variables (sec snew : DProfileSection T).
Hypothesis Hq : h !! q = None.
Hypothesis Hcur : h !! cur = Some sec.
Hypothesis Hnm : children sec !! nm = None.
Hypothesis Hparent : parent snew = Some cur.
Hypothesis Hname : name snew = nm.
Hypothesis Hleaf : children snew = ∅.

Let h' := <[cur := set_child nm q sec]> (<[q := snew]> h).

Lemma add_child_ne : cur ≠ q.
Proof. intros ->. congruence. Qed.

Lemma add_child_lookup_new : h' !! q = Some snew.
Proof.
  unfold h'. rewrite lookup_insert_ne by apply add_child_ne.
  apply lookup_insert_eq.
Qed.

Lemma add_child_lookup_cur : h' !! cur = Some (set_child nm q sec).
Proof. unfold h'. apply lookup_insert_eq. Qed.

Lemma add_child_lookup_old a s :
  h !! a = Some s → a ≠ cur → h' !! a = Some s.
Proof.
  intros Ha Hne. unfold h'. rewrite lookup_insert_ne by done.
  rewrite lookup_insert_ne; [done|]. intros ->. congruence.
Qed.

(** Every old section is still there with its parent and name. *)
Lemma add_child_keeps a s :
  h !! a = Some s →
  ∃ s', h' !! a = Some s' ∧ parent s' = parent s ∧ name s' = name s.
Proof.
  intros Ha. destruct (decide (a = cur)) as [->|Hne].
  - rewrite add_child_lookup_cur. eexists. split; [done|].
    assert (s = sec) as -> by congruence. done.
  - exists s. by rewrite (add_child_lookup_old _ _ Ha Hne).
Qed.

Lemma add_child_walk_old r l p :
  wf_tree h r → walk h r l = Some p → walk h' r l = Some p.
Proof.
  intros Hwf. revert p. induction l as [|k l IH] using rev_ind; intros p.
  - done.
  - intros (p0 & s0 & Hw & Hp0 & Hk)%walk_snoc.
    apply walk_snoc. exists p0. destruct (decide (p0 = cur)) as [->|Hne].
    + exists (set_child nm q sec). split_and!; [by apply IH|apply add_child_lookup_cur|].
      assert (s0 = sec) as -> by congruence. simpl.
      rewrite lookup_insert_ne; [done|]. intros ->. congruence.
    + exists s0. split_and!; [by apply IH|by apply add_child_lookup_old|done].
Qed.

Lemma add_child_walk_new r l :
  wf_tree h r → walk h r l = Some cur → walk h' r (l ++ [nm]) = Some q.
Proof.
  intros Hwf Hw. apply walk_snoc. exists cur, (set_child nm q sec).
  split_and!; [by apply add_child_walk_old|apply add_child_lookup_cur|].
  simpl. apply lookup_insert_eq.
Qed.

Lemma add_child_walk_inv r l p :
  wf_tree h r → walk h' r l = Some p →
  walk h r l = Some p ∨
  (p = q ∧ ∃ l0, l = l0 ++ [nm] ∧ walk h r l0 = Some cur).
Proof.
  intros Hwf. revert p. induction l as [|k l IH] using rev_ind; intros p.
  - by left.
  - intros (p0 & s0 & Hw & Hp0 & Hk)%walk_snoc.
    destruct (IH _ Hw) as [Hw0|[-> _]].
    + destruct (wf_live _ _ _ _ Hwf Hw0) as [s0' Hs0'].
      destruct (decide (p0 = cur)) as [->|Hne].
      * rewrite add_child_lookup_cur in Hp0. injection Hp0 as <-.
        simpl in Hk. destruct (decide (nm = k)) as [->|Hk'].
        -- rewrite lookup_insert_eq in Hk. injection Hk as <-. right. eauto.
        -- rewrite lookup_insert_ne in Hk by done. left.
           apply walk_snoc. eauto.
      * rewrite (add_child_lookup_old _ _ Hs0' Hne) in Hp0.
        injection Hp0 as <-. left. apply walk_snoc. eauto.
    + rewrite add_child_lookup_new in Hp0. injection Hp0 as <-.
      rewrite Hleaf in Hk. by rewrite lookup_empty in Hk.
Qed.

Lemma add_child_wf r : wf_tree h r → wf_tree h' r.
Proof.
  intros Hwf. split.
  - destruct (wf_root _ _ Hwf) as (sr & Hr & Hnone).
    destruct (add_child_keeps _ _ Hr) as (sr' & Hr' & E & _).
    exists sr'. split; congruence.
  - intros l p sp k q' Hw Hp Hk.
    destruct (add_child_walk_inv _ _ _ Hwf Hw) as [Hw0|[-> _]].
    + destruct (wf_live _ _ _ _ Hwf Hw0) as [sp0 Hsp0].
      assert (children sp0 !! k = Some q' ∨ (p = cur ∧ k = nm ∧ q' = q)) as [Hk0|(-> & -> & ->)].
      { destruct (decide (p = cur)) as [->|Hne].
        - rewrite add_child_lookup_cur in Hp. injection Hp as <-.
          assert (sp0 = sec) as -> by congruence.
          simpl in Hk. destruct (decide (nm = k)) as [->|Hk'].
          + rewrite lookup_insert_eq in Hk. injection Hk as <-. by right.
          + rewrite lookup_insert_ne in Hk by done. by left.
        - rewrite (add_child_lookup_old _ _ Hsp0 Hne) in Hp.
          injection Hp as <-. by left. }
      * destruct (wf_child _ _ Hwf _ _ _ _ _ Hw0 Hsp0 Hk0) as (sq & Hsq & Hpar & Hn).
        destruct (add_child_keeps _ _ Hsq) as (sq' & Hsq' & E1 & E2).
        exists sq'. split_and!; congruence.
      * exists snew. split_and!; [apply add_child_lookup_new|done..].
    + rewrite add_child_lookup_new in Hp. injection Hp as <-.
      rewrite Hleaf in Hk. by rewrite lookup_empty in Hk.
Qed.
Lemma add_child_children_kept : children_kept h h'.
Proof.
  intros p sp k q' Hp Hk. destruct (decide (p = cur)) as [->|Hne].
  - rewrite add_child_lookup_cur. eexists. split; [done|].
    assert (sp = sec) as -> by congruence. simpl.
    rewrite lookup_insert_ne; [done|]. intros ->. congruence.
  - exists sp. split; [by apply add_child_lookup_old|done].
Qed.
End add_child.

(** ** The registry *)

Lemma find_context_Some tid (cs : list DProfileContext) i :
  find_context tid cs = Some i →
  ∃ c, cs !! i = Some c ∧ thread_context c = tid.
Proof.
  revert i. induction cs as [|c cs IH]; intros i; simpl; [done|].
  destruct (decide (tid = thread_context c)) as [->|Hne].
  - intros [= <-]. eauto.
  - destruct (find_context tid cs) as [j|]; simpl; [|done].
    intros [= <-]. by apply IH.
Qed.

Lemma find_context_None tid (cs : list DProfileContext) :
  find_context tid cs = None ↔ ∀ c, c ∈ cs → thread_context c ≠ tid.
Proof.
  induction cs as [|c cs IH]; simpl.
  - split; [|done]. by intros _ c ?%elem_of_nil.
  - destruct (decide (tid = thread_context c)) as [->|Hne].
    + split; [done|]. intros Hc. destruct (Hc c); [left|done].
    + destruct (find_context tid cs) as [j|]; simpl.
      * split; [done|]. intros Hc. assert (Some j = None) as Hj; [|done].
        apply IH. intros c' Hc'. apply Hc. by right.
      * split; [|done]. intros _ c' [->|Hc']%elem_of_cons; [done|].
        by apply IH.
Qed.

Lemma find_context_app_Some tid (cs cs' : list DProfileContext) i :
  find_context tid cs = Some i → find_context tid (cs ++ cs') = Some i.
Proof.
  revert i. induction cs as [|c cs IH]; intros i; simpl; [done|].
  destruct (decide (tid = thread_context c)); [done|].
  destruct (find_context tid cs) as [j|]; simpl; [|done].
  intros [= <-]. by rewrite (IH j).
Qed.

Lemma find_context_app_None tid (cs : list DProfileContext) c :
  find_context tid cs = None →
  find_context tid (cs ++ [c]) =
    if decide (tid = thread_context c) then Some (length cs) else None.
Proof.
  induction cs as [|c0 cs IH]; simpl.
  - intros _. by destruct (decide (tid = thread_context c)).
  - destruct (decide (tid = thread_context c0)); [done|].
    destruct (find_context tid cs) as [j|]; simpl; [done|].
    intros _. rewrite IH by done.
    by destruct (decide (tid = thread_context c)).
Qed.

Lemma find_context_insert tid (cs : list DProfileContext) i c c' :
  cs !! i = Some c → thread_context c' = thread_context c →
  find_context tid (<[i := c']> cs) = find_context tid cs.
Proof.
  revert i. induction cs as [|c0 cs IH]; intros i; [done|].
  destruct i as [|i]; simpl.
  - intros [= ->] ->. done.
  - intros Hi E. by rewrite (IH _ Hi E).
Qed.

(** The context [GetContext] would find, when there is one. *)
Definition context_of (tid : nat) st : option DProfileContext :=
  i ← find_context tid (contexts st); contexts st !! i.

(** The state after the branch of [GetContext] that registers the calling
    thread. *)
Definition register (tid : nat) st : State T :=
  let top := fresh (dom (heap st)) in
  mkState (contexts st ++ [mkContext tid top top]) (end_time st)
          (wrap_int (EXEC_ORDER_ID st + 1))
          (<[top := DProfileSection_ctor (EXEC_ORDER_ID st)]> (heap st))
          (clock st) (ticks st).

Lemma GetContext_found tid st i :
  find_context tid (contexts st) = Some i → GetContext tid st = (i, st).
Proof. unfold GetContext. by intros ->. Qed.

Lemma GetContext_new tid st :
  find_context tid (contexts st) = None →
  GetContext tid st = (length (contexts st), register tid st).
Proof. unfold GetContext. by intros ->. Qed.

Lemma fresh_heap h : h !! fresh (dom h) = None.
Proof. apply not_elem_of_dom, is_fresh. Qed.

(** After [GetContext] the calling thread has a context, the one returned;
    old sections and old contexts are as they were. *)
Lemma GetContext_spec tid st i st0 :
  GetContext tid st = (i, st0) →
  find_context tid (contexts st0) = Some i ∧
  (∃ c, contexts st0 !! i = Some c ∧ thread_context c = tid) ∧
  extends (heap st) (heap st0) ∧
  end_time st0 = end_time st ∧ clock st0 = clock st ∧ ticks st0 = ticks st.
Proof.
  destruct (find_context tid (contexts st)) as [j|] eqn:Hf.
  - rewrite (GetContext_found _ _ _ Hf). intros [= <- <-].
    split_and!; [done|by apply find_context_Some|apply extends_refl|done..].
  - rewrite (GetContext_new _ _ Hf). intros [= <- <-]. simpl.
    split_and!; [| |apply extends_alloc, fresh_heap|done..].
    + rewrite (find_context_app_None _ _ _ Hf). simpl. by rewrite decide_True.
    + rewrite lookup_app_r by done. rewrite Nat.sub_diag. simpl. eauto.
Qed.

Lemma ctor_wf h q id :
  h !! q = None → wf_tree (<[q := DProfileSection_ctor id]> h) q.
Proof.
  intros Hq. split.
  - eexists. split; [apply lookup_insert_eq|done].
  - intros l p sp k q'. destruct l as [|k0 l]; simpl.
    + intros [= <-]. rewrite lookup_insert_eq. intros [= <-]. simpl.
      by rewrite lookup_empty.
    + rewrite lookup_insert_eq. simpl. by rewrite lookup_empty.
Qed.

Lemma GetContext_inv tid st i st0 :
  tree_inv st → GetContext tid st = (i, st0) → tree_inv st0.
Proof.
  intros Hinv. destruct (find_context tid (contexts st)) as [j|] eqn:Hf.
  - rewrite (GetContext_found _ _ _ Hf). by intros [= <- <-].
  - rewrite (GetContext_new _ _ Hf). intros [= <- <-].
    intros c. simpl. intros [Hc|Hc]%elem_of_app.
    + destruct (Hinv _ Hc) as [Hwf [l Hl]]. split.
      * eapply extends_wf; [|done]. apply extends_alloc, fresh_heap.
      * exists l. eapply extends_walk; [|done]. apply extends_alloc, fresh_heap.
    + apply list_elem_of_singleton in Hc as ->. split; simpl.
      * apply ctor_wf, fresh_heap.
      * by exists [].
Qed.

(** ** [SectionPush] *)

Lemma SectionPush_child_found st cur nm sec s :
  heap st !! cur = Some sec → children sec !! nm = Some s →
  SectionPush_child cur nm st = Some (s, st).
Proof. unfold SectionPush_child. intros -> . simpl. by intros ->. Qed.

(** The section the creating branch of [SectionPush] constructs. *)
Definition new_child (id : Z) cur (nm : string) : DProfileSection T :=
  mkSection 0 d_zero id d_zero (Some cur) nm ∅.

Lemma SectionPush_child_new st cur nm sec :
  heap st !! cur = Some sec → children sec !! nm = None →
  let q := fresh (dom (heap st)) in
  SectionPush_child cur nm st =
    Some (q, mkState (contexts st) (end_time st)
               (wrap_int (EXEC_ORDER_ID st + 1))
               (<[cur := set_child nm q sec]>
                  (<[q := new_child (EXEC_ORDER_ID st) cur nm]> (heap st)))
               (clock st) (ticks st)).
Proof.
  intros Hcur Hnm q. unfold SectionPush_child. rewrite Hcur. simpl.
  rewrite Hnm. simpl. fold q. rewrite lookup_insert_eq. simpl.
  rewrite insert_insert_eq.
  assert (cur ≠ q) as Hne.
  { intros E. pose proof (fresh_heap (heap st)) as Hf. fold q in Hf.
    rewrite <- E in Hf. congruence. }
  rewrite lookup_insert_ne by done. rewrite Hcur. done.
Qed.

Lemma SectionPush_child_spec st cur nm r0 l0 :
  wf_tree (heap st) r0 → walk (heap st) r0 l0 = Some cur →
  ∃ s st1 ss,
    SectionPush_child cur nm st = Some (s, st1) ∧
    contexts st1 = contexts st ∧ end_time st1 = end_time st ∧
    clock st1 = clock st ∧ ticks st1 = ticks st ∧
    heap st1 !! s = Some ss ∧ parent ss = Some cur ∧ name ss = nm ∧
    (∃ sc, heap st1 !! cur = Some sc ∧ children sc !! nm = Some s) ∧
    (∀ r, wf_tree (heap st) r →
          wf_tree (heap st1) r ∧
          ∀ l p, walk (heap st) r l = Some p → walk (heap st1) r l = Some p) ∧
    walk (heap st1) r0 (l0 ++ [nm]) = Some s ∧
    children_kept (heap st) (heap st1).
Proof.
  intros Hwf Hw. destruct (wf_live _ _ _ _ Hwf Hw) as [sec Hcur].
  destruct (children sec !! nm) as [s|] eqn:Hnm.
  - destruct (wf_child _ _ Hwf _ _ _ _ _ Hw Hcur Hnm) as (ss & Hs & Hpar & Hn).
    exists s, st, ss. rewrite (SectionPush_child_found _ _ _ _ _ Hcur Hnm).
    split_and!; [done..|by eauto|by eauto| |apply children_kept_refl].
    apply walk_snoc. eauto.
  - pose proof (SectionPush_child_new _ _ _ _ Hcur Hnm) as E. simpl in E.
    pose proof (fresh_heap (heap st)) as Hq.
    eexists _, _, (new_child (EXEC_ORDER_ID st) cur nm). split; [exact E|].
    simpl. split_and!; [done..| | | | | | |].
    + by apply add_child_lookup_new.
    + done.
    + done.
    + eexists. split; [apply add_child_lookup_cur|]. simpl. apply lookup_insert_eq.
    + intros r Hr. split.
      * by apply add_child_wf.
      * intros l p. by apply add_child_walk_old.
    + by apply add_child_walk_new.
    + by apply add_child_children_kept.
Qed.

Lemma elem_of_insert_inv {A} (xs : list A) i x y :
  y ∈ <[i := x]> xs → y = x ∨ y ∈ xs.
Proof.
  intros [j Hj]%list_elem_of_lookup.
  apply list_lookup_insert_Some in Hj as [(_ & -> & _)|[_ Hj]]; [by left|].
  right. apply list_elem_of_lookup. eauto.
Qed.

(** What a push does, on a state whose trees are well formed. *)
Lemma SectionPush_spec tid nm st :
  tree_inv st →
  ∃ i st0 c s ss st',
    GetContext tid st = (i, st0) ∧ contexts st0 !! i = Some c ∧
    thread_context c = tid ∧
    SectionPush tid nm st = Some st' ∧
    contexts st' = <[i := set_current s c]> (contexts st0) ∧
    find_context tid (contexts st') = Some i ∧
    heap st' !! s = Some ss ∧ parent ss = Some (current c) ∧ name ss = nm ∧
    timer ss = now st ∧
    (∃ sc, heap st' !! current c = Some sc ∧ children sc !! nm = Some s) ∧
    end_time st' = end_time st ∧ clock st' = clock st ∧
    ticks st' = S (ticks st) ∧
    tree_inv st' ∧
    children_kept (heap st) (heap st').
Proof.
  intros Hinv. destruct (GetContext tid st) as [i st0] eqn:HG.
  pose proof (GetContext_inv _ _ _ _ Hinv HG) as Hinv0.
  destruct (GetContext_spec _ _ _ _ HG) as (Hf & (c & Hc & Htid) & Hext0 & He & Hclk & Htk).
  assert (c ∈ contexts st0) as Hcin by (apply list_elem_of_lookup; eauto).
  destruct (Hinv0 _ Hcin) as [Hwf [l0 Hl0]].
  destruct (SectionPush_child_spec st0 (current c) nm _ _ Hwf Hl0)
    as (s & st1 & ss & Hch & Hcs & He1 & Hclk1 & Htk1 & Hs & Hpar & Hn
        & (sc & Hsc & Hk) & Hkeep & Hws & Hkept).
  set (h2 := <[s := set_timer (now st) ss]> (heap st1)).
  assert (extends (heap st1) h2) as Hext by (by eapply extends_update).
  exists i, st0, c, s, (set_timer (now st) ss).
  eexists. split; [done|]. split; [done|]. split; [done|].
  split.
  { unfold SectionPush. rewrite HG. rewrite Hc. simpl. rewrite Hch. simpl.
    rewrite Hs. simpl. rewrite Hclk1, Htk1, Hclk, Htk. reflexivity. }
  simpl. fold h2. split_and!.
  - by rewrite Hcs.
  - rewrite Hcs. by rewrite (find_context_insert _ _ _ c).
  - apply lookup_insert_eq.
  - done.
  - done.
  - done.
  - destruct (Hext _ _ Hsc) as (sc' & Hsc' & [= _ _ E]).
    exists sc'. split; [done|]. by rewrite E.
  - congruence.
  - congruence.
  - congruence.
  - intros c'. simpl. rewrite Hcs.
    intros [->|Hc']%elem_of_insert_inv.
    + split; simpl.
      * eapply extends_wf; [done|]. by apply Hkeep.
      * exists (l0 ++ [nm]). by eapply extends_walk.
    + destruct (Hinv0 _ Hc') as [Hwf' [l' Hl']]. split.
      * eapply extends_wf; [done|]. by apply Hkeep.
      * exists l'. eapply extends_walk; [done|]. by apply Hkeep.
  - eapply children_kept_trans; [by apply extends_children_kept|].
    eapply children_kept_trans; [exact Hkept|by apply extends_children_kept].
Qed.

(** ** [SectionPop] *)

Lemma tree_inv_same st st' :
  contexts st' = contexts st → heap st' = heap st → tree_inv st → tree_inv st'.
Proof. unfold tree_inv. by intros -> ->. Qed.

(** The current section of a well-formed context, when it has a parent,
    has it on its path from the root. *)
Lemma wf_ctx_parent h c sec p :
  wf_ctx h c → h !! current c = Some sec → parent sec = Some p →
  ∃ l, walk h (toplevel c) l = Some p.
Proof.
  intros [Hwf [l Hl]] Hcur Hpar.
  destruct l as [|k l _] using rev_ind.
  - simpl in Hl. injection Hl as Hl.
    destruct (wf_root _ _ Hwf) as (sr & Hr & Hnone). congruence.
  - destruct (wf_parent _ _ _ _ _ _ Hwf Hl Hcur) as (p0 & Hp0 & Hpar0 & _).
    exists l. congruence.
Qed.

Lemma wf_ctx_root_current h c sec :
  wf_ctx h c → h !! current c = Some sec →
  parent sec = None ↔ current c = toplevel c.
Proof.
  intros [Hwf [l Hl]] Hcur. destruct (wf_root _ _ Hwf) as (sr & Hr & Hnone).
  split.
  - intros Hpar. destruct l as [|k l _] using rev_ind.
    + simpl in Hl. by injection Hl.
    + destruct (wf_parent _ _ _ _ _ _ Hwf Hl Hcur) as (p0 & _ & Hpar0 & _).
      congruence.
  - intros E. congruence.
Qed.

(** What a pop does, on a state whose trees are well formed. *)
Lemma SectionPop_spec tid st :
  tree_inv st →
  ∃ i st0 c sec st',
    GetContext tid (end_time_SetNow st) = (i, st0) ∧
    contexts st0 !! i = Some c ∧ thread_context c = tid ∧
    heap st0 !! current c = Some sec ∧
    SectionPop tid st = Some st' ∧
    end_time st' = now st ∧ clock st' = clock st ∧
    ticks st' = S (ticks st) ∧ EXEC_ORDER_ID st' = EXEC_ORDER_ID st0 ∧
    (match parent sec with
     | None => st' = st0
     | Some p =>
         contexts st' = <[i := set_current p c]> (contexts st0) ∧
         heap st' = <[current c := record_time (d_sub (now st) (timer sec)) sec]>
                      (heap st0)
     end) ∧
    tree_inv st' ∧
    children_kept (heap st) (heap st').
Proof.
  intros Hinv. destruct (GetContext tid (end_time_SetNow st)) as [i st0] eqn:HG.
  assert (tree_inv (end_time_SetNow st)) as Hinv1 by (by eapply tree_inv_same).
  pose proof (GetContext_inv _ _ _ _ Hinv1 HG) as Hinv0.
  destruct (GetContext_spec _ _ _ _ HG) as (Hf & (c & Hc & Htid) & Hext0 & He & Hclk & Htk).
  simpl in He, Hclk, Htk.
  assert (c ∈ contexts st0) as Hcin by (apply list_elem_of_lookup; eauto).
  pose proof (Hinv0 _ Hcin) as Hctx. pose proof Hctx as [Hwf [l0 Hl0]].
  destruct (wf_live _ _ _ _ Hwf Hl0) as [sec Hcur].
  exists i, st0, c, sec.
  unfold SectionPop, SectionPop_body. rewrite HG, Hc. simpl. rewrite Hcur. simpl.
  destruct (parent sec) as [p|] eqn:Hpar.
  - set (h2 := <[current c := record_time (d_sub (end_time st0) (timer sec)) sec]>
                 (heap st0)).
    assert (extends (heap st0) h2) as Hext by (by eapply extends_update).
    eexists. split_and!; [done..| | | | | | |]; simpl; [done..| | |].
    + unfold h2. rewrite He. done.
    + destruct (wf_ctx_parent _ _ _ _ Hctx Hcur Hpar) as [lp Hlp].
      intros c'. simpl. intros [->|Hc']%elem_of_insert_inv.
      * split; simpl; [by eapply extends_wf|].
        exists lp. by eapply extends_walk.
      * destruct (Hinv0 _ Hc') as [Hwf' [l' Hl']]. split.
        -- by eapply extends_wf.
        -- exists l'. by eapply extends_walk.
    + apply extends_children_kept. by eapply extends_trans.
  - exists st0. split_and!; [done..|]. by apply extends_children_kept.
Qed.

(** ** The operations on a thread that has a context *)

Lemma context_of_Some tid st c :
  context_of tid st = Some c ↔
  ∃ i, find_context tid (contexts st) = Some i ∧ contexts st !! i = Some c.
Proof.
  unfold context_of. destruct (find_context tid (contexts st)) as [i|]; simpl.
  - split; [eauto|]. by intros (? & [= <-] & ?).
  - split; [done|]. by intros (? & ? & ?).
Qed.

Lemma context_of_None tid st :
  context_of tid st = None ↔ find_context tid (contexts st) = None.
Proof.
  unfold context_of. destruct (find_context tid (contexts st)) as [i|] eqn:Hf; simpl.
  - destruct (find_context_Some _ _ _ Hf) as (c & -> & _). done.
  - done.
Qed.

Lemma SectionPush_found tid nm st i c sec q sq :
  find_context tid (contexts st) = Some i → contexts st !! i = Some c →
  heap st !! current c = Some sec → children sec !! nm = Some q →
  heap st !! q = Some sq →
  SectionPush tid nm st =
    Some (mkState (<[i := set_current q c]> (contexts st)) (end_time st)
                  (EXEC_ORDER_ID st) (<[q := set_timer (now st) sq]> (heap st))
                  (clock st) (S (ticks st))).
Proof.
  intros Hf Hc Hcur Hk Hq. unfold SectionPush.
  rewrite (GetContext_found _ _ _ Hf), Hc. simpl.
  rewrite (SectionPush_child_found _ _ _ _ _ Hcur Hk). simpl.
  by rewrite Hq.
Qed.

Lemma SectionPop_found tid st i c sec :
  find_context tid (contexts st) = Some i → contexts st !! i = Some c →
  heap st !! current c = Some sec →
  SectionPop tid st =
    Some match parent sec with
         | None => end_time_SetNow st
         | Some p =>
             mkState (<[i := set_current p c]> (contexts st)) (now st)
                     (EXEC_ORDER_ID st)
                     (<[current c := record_time (d_sub (now st) (timer sec)) sec]>
                        (heap st))
                     (clock st) (S (ticks st))
         end.
Proof.
  intros Hf Hc Hcur. unfold SectionPop, SectionPop_body.
  rewrite (GetContext_found tid (end_time_SetNow st) i) by done.
  simpl. rewrite Hc. simpl. rewrite Hcur. simpl.
  by destruct (parent sec).
Qed.

(** ** Every operation keeps the trees well formed *)

Lemma init_inv clk e0 : tree_inv (init (T := T) clk e0).
Proof. intros c. simpl. by intros ?%elem_of_nil. Qed.

Lemma Clear_inv st : tree_inv (Clear st).
Proof. intros c. simpl. by intros ?%elem_of_nil. Qed.

Lemma step_inv op st :
  tree_inv st → ∃ st', step op st = Some st' ∧ tree_inv st'.
Proof.
  intros Hinv. destruct op as [tid nm|tid| |sort]; simpl.
  - destruct (SectionPush_spec tid nm st Hinv)
      as (i & st0 & c & s & ss & st' & ? & ? & ? & ? & ? & ? & ? & ? & ? & ? & ? & ? & ? & ? & ? & ?).
    eauto.
  - destruct (SectionPop_spec tid st Hinv)
      as (i & st0 & c & sec & st' & ? & ? & ? & ? & ? & ? & ? & ? & ? & ? & ? & ?).
    eauto.
  - eexists. split; [done|]. apply Clear_inv.
  - eauto.
Qed.

Lemma reachable_inv st : reachable st → tree_inv st.
Proof.
  induction 1 as [clk e0|op st st' _ IH Hstep].
  - apply init_inv.
  - destruct (step_inv op st IH) as (st'' & Hstep' & Hinv').
    rewrite Hstep in Hstep'. by injection Hstep' as <-.
Qed.

Lemma run_inv ops st :
  tree_inv st → ∃ st', run ops st = Some st' ∧ tree_inv st'.
Proof.
  revert st. induction ops as [|op ops IH]; intros st Hinv; simpl.
  - eauto.
  - destruct (step_inv op st Hinv) as (st1 & -> & Hinv1). simpl. by apply IH.
Qed.

Lemma run_reachable ops st st' :
  reachable st → run ops st = Some st' → reachable st'.
Proof.
  revert st. induction ops as [|op ops IH]; intros st Hr; simpl.
  - by intros [= <-].
  - destruct (step op st) as [st1|] eqn:Hstep; simpl; [|done].
    apply IH. by eapply reachable_step.
Qed.

(** The claimed shape, from well-formedness: the sections below a root are
    live, each is reached by exactly one path, and each but the root is
    registered in its parent's [children] under its own name. *)
Definition sections_form_tree h r : Prop :=
  (∃ sr, h !! r = Some sr ∧ parent sr = None) ∧
  (∀ l p, walk h r l = Some p → is_Some (h !! p)) ∧
  (∀ l1 l2 p, walk h r l1 = Some p → walk h r l2 = Some p → l1 = l2).

Definition parent_links_consistent h r : Prop :=
  ∀ l q sq, walk h r l = Some q → q ≠ r → h !! q = Some sq →
    ∃ p sp, parent sq = Some p ∧ (∃ l', walk h r l' = Some p) ∧
            h !! p = Some sp ∧ children sp !! name sq = Some q.

Lemma wf_sections_form_tree h r : wf_tree h r → sections_form_tree h r.
Proof.
  intros Hwf. split_and!.
  - apply Hwf.
  - intros l p. by apply wf_live.
  - intros l1 l2 p. by apply wf_unique_path.
Qed.

Lemma wf_parent_links_consistent h r : wf_tree h r → parent_links_consistent h r.
Proof.
  intros Hwf l q sq Hw Hne Hq.
  destruct l as [|k l _] using rev_ind.
  - simpl in Hw. congruence.
  - destruct (wf_parent _ _ _ _ _ _ Hwf Hw Hq) as (p & Hp & Hpar & Hn).
    apply walk_snoc in Hw as (p' & sp & Hp' & Hsp & Hk).
    assert (p' = p) as -> by congruence.
    exists p, sp. split_and!; [done|by eauto|done|by rewrite Hn].
Qed.

(** Conversely the claimed shape is well-formedness: a child entry of a
    reached section leads to a section that is not the root and has one
    path only, the one through its parent. *)
Lemma shape_wf h r :
  sections_form_tree h r → parent_links_consistent h r → wf_tree h r.
Proof.
  intros (Hroot & Hlive & Huniq) Hcons. split; [done|].
  intros l p sp k q Hw Hp Hk.
  assert (walk h r (l ++ [k]) = Some q) as Hwq by (apply walk_snoc; eauto).
  destruct (Hlive _ _ Hwq) as [sq Hq].
  assert (q ≠ r) as Hne.
  { intros ->. assert (l ++ [k] = []) as E by (by eapply Huniq).
    by destruct l. }
  destruct (Hcons _ _ _ Hwq Hne Hq) as (p' & sp' & Hpar & [l' Hl'] & Hp' & Hk').
  assert (walk h r (l' ++ [name sq]) = Some q) as Hwq' by (apply walk_snoc; eauto).
  apply (Huniq _ _ _ Hwq) in Hwq'.
  apply app_inj_tail in Hwq' as [-> ->].
  exists sq. split_and!; [done| |done]. congruence.
Qed.

(** The tree invariant of a state: for every registered context the
    sections below the root form a tree with consistent parent links, and
    [current] is one of them. *)
Definition tree_invariant st : Prop :=
  ∀ c, c ∈ contexts st →
    sections_form_tree (heap st) (toplevel c) ∧
    parent_links_consistent (heap st) (toplevel c) ∧
    ∃ l, walk (heap st) (toplevel c) l = Some (current c).

Lemma tree_invariant_inv st : tree_invariant st ↔ tree_inv st.
Proof.
  split; intros Hinv c Hc.
  - destruct (Hinv c Hc) as (Htree & Hcons & Hcur).
    split; [by apply shape_wf|done].
  - destruct (Hinv c Hc) as [Hwf Hcur].
    split_and!; [by apply wf_sections_form_tree
                |by apply wf_parent_links_consistent|done].
Qed.

(** ** Which threads are registered *)

Definition has_context (tid : nat) st : Prop :=
  ∃ c, c ∈ contexts st ∧ thread_context c = tid.

Lemma has_context_find tid st :
  has_context tid st ↔ is_Some (find_context tid (contexts st)).
Proof.
  split.
  - intros (c & Hc & Htid).
    destruct (find_context tid (contexts st)) as [i|] eqn:Hf; [by eauto|].
    by destruct (proj1 (find_context_None _ _) Hf c Hc).
  - intros [i (c & Hc & Htid)%find_context_Some].
    exists c. split; [|done]. apply list_elem_of_lookup. eauto.
Qed.

Lemma GetContext_find tid t st i st0 :
  GetContext t st = (i, st0) →
  is_Some (find_context tid (contexts st0)) ↔
  is_Some (find_context tid (contexts st)) ∨ t = tid.
Proof.
  destruct (find_context t (contexts st)) as [j|] eqn:Hf.
  - rewrite (GetContext_found _ _ _ Hf). intros [= <- <-].
    split; [by left|]. intros [?| <-]; [done|by eauto].
  - rewrite (GetContext_new _ _ Hf). intros [= <- <-]. simpl.
    destruct (find_context tid (contexts st)) as [k|] eqn:Hk.
    + rewrite (find_context_app_Some _ _ _ _ Hk). split; [by left|by eauto].
    + rewrite (find_context_app_None _ _ _ Hk). simpl.
      destruct (decide (tid = t)) as [->|Hne].
      * split; [by right|by eauto].
      * split; [by intros [? ?]|]. intros [[? ?]| ->]; done.
Qed.

(** Whether [tid] is registered after [op], given whether it was before. *)
Definition registers (tid : nat) (b : bool) (op : Op) : bool :=
  match op with
  | OpPush t _ | OpPop t => b || bool_decide (t = tid)
  | OpClear => false
  | OpDisplay _ => b
  end.

Lemma step_find tid op st st' b :
  tree_inv st → step op st = Some st' →
  (is_Some (find_context tid (contexts st)) ↔ b = true) →
  is_Some (find_context tid (contexts st')) ↔ registers tid b op = true.
Proof.
  intros Hinv Hstep Hb. destruct op as [t nm|t| |sort]; simpl in *.
  - destruct (SectionPush_spec t nm st Hinv)
      as (i & st0 & c & s & ss & st'' & HG & Hc & _ & Hpush & Hcs & _).
    rewrite Hpush in Hstep. injection Hstep as <-. rewrite Hcs.
    rewrite (find_context_insert _ _ _ c) by done.
    rewrite (GetContext_find _ _ _ _ _ HG), Hb, orb_true_iff, bool_decide_eq_true.
    done.
  - destruct (SectionPop_spec t st Hinv)
      as (i & st0 & c & sec & st'' & HG & Hc & _ & _ & Hpop & _ & _ & _ & _ & Hcase & _).
    rewrite Hpop in Hstep. injection Hstep as <-.
    assert (find_context tid (contexts st'') = find_context tid (contexts st0)) as ->.
    { destruct (parent sec) as [p|].
      - destruct Hcase as [-> _]. by rewrite (find_context_insert _ _ _ c).
      - by rewrite Hcase. }
    rewrite (GetContext_find _ _ _ _ _ HG). simpl.
    rewrite Hb, orb_true_iff, bool_decide_eq_true. done.
  - injection Hstep as <-. simpl. split; [by intros [? ?]|done].
  - injection Hstep as <-. done.
Qed.

Lemma run_find tid ops st st' b :
  tree_inv st → run ops st = Some st' →
  (is_Some (find_context tid (contexts st)) ↔ b = true) →
  is_Some (find_context tid (contexts st')) ↔ foldl (registers tid) b ops = true.
Proof.
  revert st b. induction ops as [|op ops IH]; intros st b Hinv; simpl.
  - by intros [= <-].
  - destruct (step_inv op st Hinv) as (st1 & Hstep & Hinv1). rewrite Hstep.
    simpl. intros Hrun Hb. apply (IH st1); [done..|].
    by apply (step_find tid op st).
Qed.

(** ** Push and pop *)

(** The context an operation of thread [tid] works on: the one
    [GetContext] returns, registered on the spot when the thread has none. *)
Definition entry_context (tid : nat) st : option DProfileContext :=
  let '(i, st0) := GetContext tid st in contexts st0 !! i.

Lemma entry_context_of tid st c :
  context_of tid st = Some c → entry_context tid st = Some c.
Proof.
  intros (i & Hf & Hc)%context_of_Some. unfold entry_context.
  by rewrite (GetContext_found _ _ _ Hf).
Qed.

Lemma set_current_back c q : set_current (current c) (set_current q c) = c.
Proof. by destruct c. Qed.

Lemma push_then_pop tid nm st :
  tree_inv st →
  ∃ i st0 c q sq st1 st2,
    GetContext tid st = (i, st0) ∧ contexts st0 !! i = Some c ∧
    find_context tid (contexts st0) = Some i ∧
    SectionPush tid nm st = Some st1 ∧
    contexts st1 = <[i := set_current q c]> (contexts st0) ∧
    find_context tid (contexts st1) = Some i ∧
    heap st1 !! q = Some sq ∧ parent sq = Some (current c) ∧ name sq = nm ∧
    (∃ sc, heap st1 !! current c = Some sc ∧ children sc !! nm = Some q) ∧
    tree_inv st1 ∧
    SectionPop tid st1 = Some st2 ∧
    contexts st2 = contexts st0 ∧
    heap st2 = <[q := record_time (d_sub (now st1) (timer sq)) sq]> (heap st1) ∧
    EXEC_ORDER_ID st2 = EXEC_ORDER_ID st1.
Proof.
  intros Hinv.
  destruct (SectionPush_spec tid nm st Hinv)
    as (i & st0 & c & q & sq & st1 & HG & Hc & Htid & Hpush & Hcs & Hf1 & Hq
        & Hpar & Hn & _ & Hsc & _ & _ & _ & Hinv1 & _).
  destruct (GetContext_spec _ _ _ _ HG) as (Hf0 & _).
  assert (contexts st1 !! i = Some (set_current q c)) as Hc1.
  { rewrite Hcs. apply list_lookup_insert_eq. by eapply lookup_lt_Some. }
  pose proof (SectionPop_found tid st1 i _ sq Hf1 Hc1 Hq) as Hpop.
  rewrite Hpar in Hpop.
  eexists i, st0, c, q, sq, st1, _.
  split_and!; [done..|exact Hpop| | |]; simpl.
  - rewrite Hcs, list_insert_insert_eq, set_current_back.
    by apply list_insert_id.
  - done.
  - done.
Qed.

(** ** The claims about push and pop *)

(** C6 — on every reachable state a push followed at once by a pop of the
    same thread succeeds, the pop pops the section the push entered (whose
    parent is the section that was current, so the pop does not stop at the
    root), and afterwards the thread's context, its current pointer
    included, is the one the push started from. *)
Theorem push_pop_restores_current tid nm st :
  reachable st →
  ∃ st1 st2 c0 c1 sq,
    SectionPush tid nm st = Some st1 ∧ SectionPop tid st1 = Some st2 ∧
    entry_context tid st = Some c0 ∧
    (∀ c, context_of tid st = Some c → c = c0) ∧
    context_of tid st1 = Some c1 ∧ heap st1 !! current c1 = Some sq ∧
    parent sq = Some (current c0) ∧
    context_of tid st2 = Some c0 ∧
    (current <$> context_of tid st2) = Some (current c0).
Proof.
  intros Hinv%reachable_inv.
  destruct (push_then_pop tid nm st Hinv)
    as (i & st0 & c & q & sq & st1 & st2 & HG & Hc & Hf0 & Hpush & Hcs & Hf1
        & Hq & Hpar & _ & _ & _ & Hpop & Hcs2 & _).
  assert (context_of tid st2 = Some c) as Hctx2.
  { apply context_of_Some. exists i. by rewrite Hcs2. }
  exists st1, st2, c, (set_current q c), sq.
  split_and!; [done|done| | | |done|done|done|by rewrite Hctx2].
  - unfold entry_context. by rewrite HG.
  - intros c' Hc'%entry_context_of. unfold entry_context in Hc'.
    rewrite HG in Hc'. congruence.
  - apply context_of_Some. exists i. split; [done|]. rewrite Hcs.
    apply list_lookup_insert_eq. by eapply lookup_lt_Some.
Qed.

Lemma SectionPush_child_twice st cur nm sec :
  heap st !! cur = Some sec →
  ∃ q st1, SectionPush_child cur nm st = Some (q, st1) ∧
           SectionPush_child cur nm st1 = Some (q, st1).
Proof.
  intros Hcur. destruct (children sec !! nm) as [q|] eqn:Hnm.
  - exists q, st. by rewrite (SectionPush_child_found _ _ _ _ _ Hcur Hnm).
  - pose proof (SectionPush_child_new _ _ _ _ Hcur Hnm) as E. simpl in E.
    eexists _, _. split; [exact E|].
    eapply SectionPush_child_found; simpl.
    + apply lookup_insert_eq.
    + simpl. apply lookup_insert_eq.
Qed.

Lemma step_children_kept op st st' :
  tree_inv st → op ≠ OpClear → step op st = Some st' →
  children_kept (heap st) (heap st').
Proof.
  intros Hinv Hop Hstep. destruct op as [tid nm|tid| |sort]; simpl in Hstep.
  - destruct (SectionPush_spec tid nm st Hinv)
      as (i & st0 & c & s & ss & st'' & _ & _ & _ & Hpush & _ & _ & _ & _ & _
          & _ & _ & _ & _ & _ & _ & Hkept).
    rewrite Hpush in Hstep. by injection Hstep as <-.
  - destruct (SectionPop_spec tid st Hinv)
      as (i & st0 & c & sec & st'' & _ & _ & _ & _ & Hpop & _ & _ & _ & _ & _
          & _ & Hkept).
    rewrite Hpop in Hstep. by injection Hstep as <-.
  - done.
  - injection Hstep as <-. apply children_kept_refl.
Qed.

Lemma run_children_kept ops st st' :
  tree_inv st → Forall (λ op, op ≠ OpClear) ops → run ops st = Some st' →
  children_kept (heap st) (heap st').
Proof.
  revert st. induction ops as [|op ops IH]; intros st Hinv Hops; simpl.
  - intros [= <-]. apply children_kept_refl.
  - apply Forall_cons in Hops as [Hop Hops].
    destruct (step_inv op st Hinv) as (st1 & Hstep & Hinv1). rewrite Hstep.
    simpl. intros Hrun. eapply children_kept_trans.
    + by eapply step_children_kept.
    + by eapply IH.
Qed.

(** C7 — the lookup-or-create of [SectionPush] is idempotent: at a live
    parent, a second lookup of the same label returns the section the first
    one returned and changes nothing; the entry stays through every later
    push, pop and display (until a clear), so every later lookup returns
    that section too and none creates a sibling. Hence on a reachable state
    push, pop, push with one label ends in the section the first push
    entered: no section is constructed, the set of live sections and every
    section's links (its [children] too) are those after the first push,
    and the section's [call_count] is the one the pop left, one completed
    call more. *)
Theorem get_or_create_child_idempotent :
  (∀ st cur nm sec,
     heap st !! cur = Some sec →
     ∃ q st1, SectionPush_child cur nm st = Some (q, st1) ∧
              SectionPush_child cur nm st1 = Some (q, st1)) ∧
  (∀ st cur nm sec q ops st',
     reachable st →
     heap st !! cur = Some sec → children sec !! nm = Some q →
     Forall (λ op, op ≠ OpClear) ops → run ops st = Some st' →
     SectionPush_child cur nm st' = Some (q, st')) ∧
  (∀ tid nm st,
     reachable st →
     ∃ st1 st2 st3 c1 sq1 sq3,
       SectionPush tid nm st = Some st1 ∧ SectionPop tid st1 = Some st2 ∧
       SectionPush tid nm st2 = Some st3 ∧
       context_of tid st1 = Some c1 ∧ context_of tid st3 = Some c1 ∧
       contexts st3 = contexts st1 ∧
       dom (heap st3) = dom (heap st1) ∧
       EXEC_ORDER_ID st3 = EXEC_ORDER_ID st1 ∧
       extends (heap st1) (heap st3) ∧
       heap st1 !! current c1 = Some sq1 ∧ heap st3 !! current c1 = Some sq3 ∧
       call_count sq3 = wrap_int (call_count sq1 + 1)).
Proof.
  split; [apply SectionPush_child_twice|]. split.
  { intros st cur nm sec q ops st' Hinv%reachable_inv Hcur Hk Hops Hrun.
    destruct (run_children_kept ops st st' Hinv Hops Hrun _ _ _ _ Hcur Hk)
      as (sec' & Hcur' & Hk').
    by eapply SectionPush_child_found. }
  intros tid nm st Hinv%reachable_inv.
  destruct (push_then_pop tid nm st Hinv)
    as (i & st0 & c & q & sq & st1 & st2 & HG & Hc & Hf0 & Hpush & Hcs & Hf1
        & Hq & Hpar & _ & (sc & Hsc & Hk) & _ & Hpop & Hcs2 & Hh2 & Hid2).
  set (sq2 := record_time (d_sub (now st1) (timer sq)) sq) in *.
  assert (extends (heap st1) (heap st2)) as Hext.
  { rewrite Hh2. by eapply extends_update. }
  destruct (Hext _ _ Hsc) as (sc2 & Hsc2 & [= _ _ Ech]).
  assert (heap st2 !! q = Some sq2) as Hq2.
  { rewrite Hh2. apply lookup_insert_eq. }
  assert (find_context tid (contexts st2) = Some i) as Hf2 by (by rewrite Hcs2).
  assert (contexts st2 !! i = Some c) as Hc2 by (by rewrite Hcs2).
  assert (children sc2 !! nm = Some q) as Hk2 by (by rewrite Ech).
  pose proof (SectionPush_found tid nm st2 i c sc2 q sq2 Hf2 Hc2 Hsc2 Hk2 Hq2) as Hpush2.
  assert (context_of tid st1 = Some (set_current q c)) as Hctx1.
  { apply context_of_Some. exists i. split; [done|]. rewrite Hcs.
    apply list_lookup_insert_eq. by eapply lookup_lt_Some. }
  eexists st1, st2, _, (set_current q c), sq, (set_timer (now st2) sq2).
  split_and!; [done|done|exact Hpush2|done|..]; simpl.
  - apply context_of_Some. exists i. simpl. rewrite Hcs2. split.
    + by rewrite (find_context_insert _ _ _ c).
    + apply list_lookup_insert_eq. by eapply lookup_lt_Some.
  - by rewrite Hcs2, Hcs.
  - rewrite Hh2, !dom_insert_L.
    assert (q ∈ dom (heap st1)) by (apply elem_of_dom; eauto).
    rewrite (assoc_L (∪)), (idemp_L (∪)).
    by apply subseteq_union_1_L, singleton_subseteq_l.
  - done.
  - eapply extends_trans; [exact Hext|]. by eapply extends_update.
  - done.
  - apply lookup_insert_eq.
  - done.
Qed.

(** C10 — a push without an argument is the push of the label
    ["unlabelled section"]: on a reachable state it succeeds and makes
    current the child of the section that was current, stored in that
    section's [children] under ["unlabelled section"] and named so. *)
Theorem push_default_label tid st :
  reachable st →
  SectionPush_noarg tid st = SectionPush tid "unlabelled section" st ∧
  ∃ st' c0 c1 sq sp,
    SectionPush_noarg tid st = Some st' ∧
    entry_context tid st = Some c0 ∧
    context_of tid st' = Some c1 ∧
    heap st' !! current c1 = Some sq ∧
    name sq = "unlabelled section" ∧ parent sq = Some (current c0) ∧
    heap st' !! current c0 = Some sp ∧
    children sp !! "unlabelled section" = Some (current c1).
Proof.
  intros Hinv%reachable_inv. split; [done|].
  destruct (push_then_pop tid SectionPush_default_name st Hinv)
    as (i & st0 & c & q & sq & st1 & st2 & HG & Hc & Hf0 & Hpush & Hcs & Hf1
        & Hq & Hpar & Hn & (sc & Hsc & Hk) & _).
  exists st1, c, (set_current q c), sq, sc.
  split_and!; [done| | |done..].
  - unfold entry_context. by rewrite HG.
  - apply context_of_Some. exists i. split; [done|]. rewrite Hcs.
    apply list_lookup_insert_eq. by eapply lookup_lt_Some.
Qed.

(** C8 — push, pop, clear (and display) preserve the tree invariant: on
    a state where, for every registered context, the sections reached from
    its root are live and reached by exactly one path, the root has no
    parent, every other one is entered in its parent's [children] under its
    own name, and [current] is one of them, each operation returns and
    leaves a state where all this holds again. *)
Theorem operations_preserve_tree_invariant op st :
  tree_invariant st →
  ∃ st', step op st = Some st' ∧ tree_invariant st'.
Proof.
  intros Hinv%tree_invariant_inv.
  destruct (step_inv op st Hinv) as (st' & Hstep & Hinv').
  exists st'. split; [done|]. by apply tree_invariant_inv.
Qed.

(** C3 — when the calling thread's current section is its root (no
    parent), a pop returns and leaves the registry, every context's
    [current] and every section untouched (only the stop sample is taken);
    and on a fresh profiler pop, pop, push "X", pop leaves one context whose
    root has the single child "X", a leaf with [call_count = 1]. *)
Theorem pop_past_root_is_ignored :
  (∀ tid st c sec,
     context_of tid st = Some c → heap st !! current c = Some sec →
     parent sec = None →
     ∃ st', SectionPop tid st = Some st' ∧
            contexts st' = contexts st ∧ heap st' = heap st ∧
            EXEC_ORDER_ID st' = EXEC_ORDER_ID st) ∧
  (∀ clk e0,
     ∃ st root x sroot sx,
       run [OpPop 0%nat; OpPop 0%nat; OpPush 0%nat "X"; OpPop 0%nat] (init clk e0)
         = Some st ∧
       contexts st = [mkContext 0%nat root root] ∧
       dom (heap st) = {[root; x]} ∧ root ≠ x ∧
       heap st !! root = Some sroot ∧ children sroot = {["X" := x]} ∧
       heap st !! x = Some sx ∧ name sx = "X" ∧ parent sx = Some root ∧
       call_count sx = 1 ∧ children sx = ∅).
Proof.
  split.
  - intros tid st c sec (i & Hf & Hc)%context_of_Some Hcur Hpar.
    rewrite (SectionPop_found tid st i c sec Hf Hc Hcur), Hpar. eauto.
  - intros clk e0. eexists _, 0%nat, 1%nat, _, _.
    split_and!; [vm_compute; reflexivity| | | |vm_compute; reflexivity|
                 |vm_compute; reflexivity|..]; done.
Qed.

(** What a pop changes when it runs undisturbed. The stop sample goes to
    the static [DProfiler::end_time], which all threads share (what that
    leads to when pops interleave is shown with the scenarios below:
    [pop_records_another_threads_sample]). Besides [end_time] and
    the reading of the clock, a pop on a reachable state changes: for a
    thread with a context, nothing when its current section is the root,
    and otherwise only [call_count] and [avg_time] of that section and the
    [current] pointer of that context; for a thread without a context,
    only what [GetContext] adds (the context and its root section). *)
Theorem pop_frame tid st :
  reachable st →
  ∃ st', SectionPop tid st = Some st' ∧
    end_time st' = now st ∧ clock st' = clock st ∧ ticks st' = S (ticks st) ∧
    match context_of tid st with
    | Some c =>
        ∃ i sec,
          find_context tid (contexts st) = Some i ∧
          heap st !! current c = Some sec ∧
          EXEC_ORDER_ID st' = EXEC_ORDER_ID st ∧
          match parent sec with
          | None => contexts st' = contexts st ∧ heap st' = heap st
          | Some p =>
              contexts st' = <[i := set_current p c]> (contexts st) ∧
              ∃ n avg, heap st' = <[current c := set_stats n avg sec]> (heap st)
          end
    | None => st' = register tid (end_time_SetNow st)
    end.
Proof.
  intros Hinv%reachable_inv.
  destruct (context_of tid st) as [c|] eqn:Hctx.
  - apply context_of_Some in Hctx as (i & Hf & Hc).
    assert (c ∈ contexts st) as Hcin by (apply list_elem_of_lookup; eauto).
    destruct (Hinv c Hcin) as [Hwf [l Hl]].
    destruct (wf_live _ _ _ _ Hwf Hl) as [sec Hcur].
    rewrite (SectionPop_found tid st i c sec Hf Hc Hcur).
    eexists. split; [done|].
    destruct (parent sec) as [p|] eqn:Hpar; simpl.
    + split_and!; [done..|]. exists i, sec. rewrite Hpar.
      split_and!; [done..|]. by eexists _, _.
    + split_and!; [done..|]. exists i, sec. by rewrite Hpar.
  - apply context_of_None in Hctx.
    unfold SectionPop, SectionPop_body.
    rewrite (GetContext_new tid (end_time_SetNow st)) by done.
    simpl. rewrite lookup_app_r by done. rewrite Nat.sub_diag. simpl.
    rewrite lookup_insert_eq. simpl. by eexists.
Qed.

(** C5, as the code has it — after any run from a fresh profiler a thread
    has a context in the registry exactly when it has pushed or popped
    since the start or the last clear: [SectionPop] calls [GetContext] too,
    which registers the thread; clear and display register nothing. *)
Theorem context_exists_iff_pushed_or_popped ops clk e0 tid :
  ∃ st, run ops (init clk e0) = Some st ∧
        (has_context tid st ↔ foldl (registers tid) false ops = true).
Proof.
  destruct (run_inv ops (init clk e0) (init_inv clk e0)) as (st & Hrun & _).
  exists st. split; [done|]. rewrite has_context_find.
  apply (run_find tid ops (init clk e0)); [apply init_inv|done|].
  simpl. split; [by intros [? ?]|done].
Qed.

End Trees.

(** * The running mean, over the rationals *)

Section RunningMean.

Implicit Types (s : DProfileSection Q) (d : Q) (ds : list Q).

(** The durations [ds] recorded in order at one section. *)
Definition record_all ds s : DProfileSection Q :=
  foldl (λ s d, record_time d s) s ds.

Definition Qsum ds : Q := foldr Qplus 0%Q ds.

(** [avg_time * call_count], the accumulated time. *)
Definition total_of s : Q := (avg_time s * inject_Z (call_count s))%Q.

Lemma wrap_int_id z : INT_MIN ≤ z ≤ INT_MAX → wrap_int z = z.
Proof.
  unfold wrap_int. int_consts. intros Hz.
  rewrite Z.mod_small; lia.
Qed.

Lemma record_time_count d s :
  call_count (record_time d s) = wrap_int (call_count s + 1).
Proof. reflexivity. Qed.

Lemma record_time_avg d s :
  avg_time (record_time d s) =
  ((d + total_of s) / inject_Z (wrap_int (call_count s + 1)))%Q.
Proof. reflexivity. Qed.

Lemma record_time_total d s :
  0 ≤ call_count s < INT_MAX →
  (total_of (record_time d s) == d + total_of s)%Q.
Proof.
  intros Hc. unfold total_of at 1.
  rewrite record_time_avg, record_time_count.
  rewrite wrap_int_id by (int_consts; lia).
  rewrite Qmult_comm. apply Qmult_div_r.
  intros E. change 0%Q with (inject_Z 0) in E.
  apply (proj1 (inject_Z_injective _ _)) in E. lia.
Qed.

Lemma record_all_spec ds s :
  0 ≤ call_count s → call_count s + Z.of_nat (length ds) ≤ INT_MAX →
  call_count (record_all ds s) = call_count s + Z.of_nat (length ds) ∧
  (total_of (record_all ds s) == total_of s + Qsum ds)%Q.
Proof.
  revert s. induction ds as [|d ds IH]; intros s H0 Hmax.
  - simpl. split; [lia|]. by rewrite Qplus_0_r.
  - change (record_all (d :: ds) s) with (record_all ds (record_time d s)).
    rewrite length_cons, Nat2Z.inj_succ in Hmax.
    assert (call_count (record_time d s) = call_count s + 1) as Hc.
    { rewrite record_time_count.
      apply wrap_int_id. int_consts. lia. }
    destruct (IH (record_time d s)) as [Hn Ht]; [lia|lia|].
    split.
    + rewrite Hn, Hc, length_cons. lia.
    + rewrite Ht, record_time_total by lia. simpl. ring.
Qed.

(** C2, as the code has it — durations [d1 ... dn] recorded in order at a
    section that has no completed call yet leave [call_count = n] and
    [avg_time = (d1 + ... + dn) / n], over the rationals, as long as [n] is
    at most [INT_MAX]: [call_count] is an [int]. *)
Theorem running_mean_is_the_mean ds s :
  call_count s = 0 → Z.of_nat (length ds) ≤ INT_MAX →
  call_count (record_all ds s) = Z.of_nat (length ds) ∧
  (ds ≠ [] →
   (avg_time (record_all ds s) == Qsum ds / inject_Z (Z.of_nat (length ds)))%Q).
Proof.
  intros H0 Hmax.
  destruct (record_all_spec ds s) as [Hn Ht]; [lia|lia|].
  rewrite H0 in Hn. simpl in Hn. split; [done|].
  intros Hne. unfold total_of in Ht. rewrite Hn, H0 in Ht.
  assert (¬ (inject_Z (Z.of_nat (length ds)) == 0)%Q) as Hnz.
  { intros E. change 0%Q with (inject_Z 0) in E.
    apply (proj1 (inject_Z_injective _ _)) in E. destruct ds; [done|simpl in E; lia]. }
  apply (Qmult_inj_r _ _ _ Hnz). rewrite Ht.
  rewrite (Qmult_comm (_ / _)), Qmult_div_r by done. ring.
Qed.

Lemma Qsum_replicate (n : nat) d :
  (Qsum (replicate n d) == inject_Z (Z.of_nat n) * d)%Q.
Proof.
  induction n as [|n IH].
  - simpl. ring.
  - rewrite Nat2Z.inj_succ. unfold Z.succ. rewrite inject_Z_plus.
    change (Qsum (replicate (S n) d)) with (d + Qsum (replicate n d))%Q.
    rewrite IH. ring.
Qed.

(** One recorded duration more than [INT_MAX]. *)
Lemma record_all_overflow (n : nat) s :
  call_count s = 0 → Z.of_nat n = INT_MAX →
  call_count (record_all (replicate (S n) 1%Q) s) = INT_MIN ∧
  (avg_time (record_all (replicate (S n) 1%Q) s) == -1)%Q.
Proof.
  intros H0 Hn. rewrite replicate_S_end. unfold record_all.
  rewrite foldl_snoc. fold (record_all (replicate n 1%Q) s).
  destruct (record_all_spec (replicate n 1%Q) s) as [Hc Ht];
    [lia|rewrite length_replicate; lia|].
  rewrite length_replicate, H0, Hn in Hc. simpl in Hc.
  rewrite record_time_count, record_time_avg, Hc, Ht.
  unfold total_of. rewrite H0, Qsum_replicate, Hn.
  change (wrap_int (0 + INT_MAX + 1)) with INT_MIN.
  split; [done|].
  assert (avg_time s * inject_Z 0 == 0)%Q as -> by (change (inject_Z 0) with 0%Q; ring).
  by vm_compute.
Qed.

Lemma two_pow_31_nat : Z.to_nat (2 ^ 31) = S (Z.to_nat INT_MAX).
Proof.
  rewrite <- Z2Nat.inj_succ by (int_consts; lia).
  f_equal.
Qed.

End RunningMean.

(** * The display *)

Section Depth.

Context {T : Type}.

Implicit Types (h : gmap nat (DProfileSection T)) (l : list string).

Lemma walk_prefix h r l1 l2 p :
  walk h r (l1 ++ l2) = Some p → is_Some (walk h r l1).
Proof. rewrite walk_app. destruct (walk h r l1); [by eauto|done]. Qed.

(** The sections met on a path from the root are pairwise distinct and
    live, so a path is shorter than the number of live sections. *)
Lemma walk_length_lt h r l p :
  wf_tree h r → walk h r l = Some p → (length l < size h)%nat.
Proof.
  intros Hwf Hw.
  set (f := λ i : nat, default 0%nat (walk h r (take i l))).
  assert (∀ i, (i ≤ length l)%nat → walk h r (take i l) = Some (f i)) as Hf.
  { intros i Hi. unfold f.
    destruct (walk_prefix h r (take i l) (drop i l) p) as [q ->]; [|done].
    by rewrite take_drop. }
  assert (NoDup (f <$> seq 0 (S (length l)))) as Hnd.
  { apply NoDup_fmap_2_strong; [|apply NoDup_seq].
    intros i j Hi%elem_of_seq Hj%elem_of_seq E.
    pose proof (Hf i ltac:(lia)) as Hwi. pose proof (Hf j ltac:(lia)) as Hwj.
    rewrite E in Hwi.
    pose proof (wf_unique_path _ _ _ _ _ Hwf Hwi Hwj) as Et.
    apply (f_equal length) in Et. rewrite !length_take in Et. lia. }
  assert (f <$> seq 0 (S (length l)) ⊆+ elements (dom h)) as Hsub.
  { apply NoDup_submseteq; [done|].
    intros q (i & -> & Hi%elem_of_seq)%list_elem_of_fmap.
    apply elem_of_elements, elem_of_dom.
    eapply wf_live; [done|]. apply Hf. lia. }
  apply submseteq_length in Hsub.
  rewrite length_fmap, length_seq in Hsub.
  change (length (elements (dom h))) with (size (dom h)) in Hsub.
  rewrite size_dom in Hsub. lia.
Qed.

End Depth.

Section Rendering.

Implicit Types (h : gmap nat (DProfileSection Q)).
Implicit Types (v : list (nat * DProfileSection Q)) (l : list string).

(** The order each mode asks for: ascending [exec_order_id], descending
    accumulated time [avg_time * call_count]. *)
Definition sorted_by_mode (sort_by : SORT_BY) v : Prop :=
  match sort_by with
  | SORT_EXECUTION =>
      StronglySorted (λ a b, exec_order_id a.2 ≤ exec_order_id b.2) v
  | SORT_TIME =>
      StronglySorted (λ a b, (total_of b.2 <= total_of a.2)%Q) v
  end.

(** The thread banners with the trees below them, from position [i]. *)
Fixpoint banners (i : nat) (trees : list (list (Output Q))) : list (Output Q) :=
  match trees with
  | [] => []
  | t :: ts => OutThread i :: t ++ banners (S i) ts
  end.

(** [rendered h sort_by this prefix out]: [out] lists the sections below
    [this], and at every level the children of a section come in an order
    [v] that is a rearrangement of its [children] sorted by the mode, each
    row followed by the listing of that child. *)
Inductive rendered h (sort_by : SORT_BY)
  : nat → string → list (Output Q) → Prop :=
  | rendered_section this sec v0 v prefix out :
      h !! this = Some sec →
      children_vect h sec = Some v0 →
      v ≡ₚ v0 →
      sorted_by_mode sort_by v →
      rendered_rows h sort_by prefix (length v) 0 v out →
      rendered h sort_by this prefix out
with rendered_rows h (sort_by : SORT_BY)
  : string → nat → nat → list (nat * DProfileSection Q) → list (Output Q) → Prop :=
  | rendered_rows_nil prefix n i :
      rendered_rows h sort_by prefix n i [] []
  | rendered_rows_cons prefix n i p sect v sub rest :
      rendered h sort_by p (next_prefix prefix i n +:+ "| ") sub →
      rendered_rows h sort_by prefix n (S i) v rest →
      rendered_rows h sort_by prefix n i ((p, sect) :: v)
                    (row prefix sect :: sub ++ rest).

Lemma Q_gt_true (x y : Q) : d_gt x y = true ↔ (y < x)%Q.
Proof. apply Z.ltb_lt. Qed.

Lemma Q_gt_false (x y : Q) : d_gt x y = false ↔ (x <= y)%Q.
Proof. apply Z.ltb_ge. Qed.

Lemma comparator_strict_weak_order sort_by :
  strict_weak_order (comparator (T := Q) sort_by).
Proof.
  destruct sort_by; simpl.
  - unfold execution_order_comparator. split_and!.
    + intros a. apply Z.ltb_irrefl.
    + intros a b c. rewrite !Z.ltb_lt. lia.
    + intros a b c. rewrite !Z.ltb_ge. lia.
  - unfold reverse_time_comparator. split_and!.
    + intros a. apply Q_gt_false, Qle_refl.
    + intros a b c. rewrite !Q_gt_true. intros ? ?. by eapply Qlt_trans.
    + intros a b c. rewrite !Q_gt_false. intros ? ?. by eapply Qle_trans.
Qed.

Lemma comparator_sorted sort_by v :
  StronglySorted (λ a b, comparator sort_by b.2 a.2 = false) v →
  sorted_by_mode sort_by v.
Proof.
  destruct sort_by; unfold sorted_by_mode;
    induction 1 as [|a v _ IH Hall]; constructor; try done.
  - eapply Forall_impl; [exact Hall|]. intros b Hb.
    change ((exec_order_id b.2 <? exec_order_id a.2) = false) in Hb.
    by apply Z.ltb_ge in Hb.
  - eapply Forall_impl; [exact Hall|]. intros b Hb.
    change (d_gt (total_of b.2) (total_of a.2) = false) in Hb.
    by apply (proj1 (Q_gt_false _ _)) in Hb.
Qed.

(** The children of a section of a well-formed tree are live: gathering
    them succeeds, and gives the children with what they point to. *)
Lemma children_vect_Some h r l this sec :
  wf_tree h r → walk h r l = Some this → h !! this = Some sec →
  ∃ v0, children_vect h sec = Some v0 ∧
        ∀ p sp, (p, sp) ∈ v0 →
                h !! p = Some sp ∧ ∃ k, children sec !! k = Some p.
Proof.
  intros Hwf Hw Hsec.
  assert (∀ p, p ∈ (map_iterate (children sec)).*2 →
               ∃ k, children sec !! k = Some p) as Hkey.
  { intros p ([k p'] & -> & Hin)%list_elem_of_fmap.
    apply elem_of_map_iterate in Hin. eauto. }
  destruct (mapM_is_Some_2 (λ p, pair p <$> h !! p)
              (map_iterate (children sec)).*2) as [v0 Hv0].
  { apply Forall_forall. intros p [k Hk]%Hkey. simpl.
    destruct (wf_child _ _ Hwf _ _ _ _ _ Hw Hsec Hk) as (sq & -> & _).
    by eexists. }
  exists v0. split; [exact Hv0|].
  intros p sp [i Hi]%list_elem_of_lookup.
  apply mapM_Some_1 in Hv0.
  destruct (Forall2_lookup_r _ _ _ _ _ Hv0 Hi) as (p' & Hp' & E).
  destruct (h !! p') as [sp'|] eqn:Hlive; simpl in E; [|done].
  injection E as -> ->. split; [done|].
  apply Hkey, list_elem_of_lookup. eauto.
Qed.

Variable std_sort :
  (DProfileSection Q → DProfileSection Q → bool) →
  list (nat * DProfileSection Q) → list (nat * DProfileSection Q).
Hypothesis std_sort_ok : sort_contract std_sort.

Lemma Display_loop_rendered (rec : nat → string → option (list (Output Q)))
    h sort_by prefix n v :
  (∀ p sp, (p, sp) ∈ v →
     ∀ pre, ∃ out, rec p pre = Some out ∧ rendered h sort_by p pre out) →
  ∀ i, ∃ out, Display_loop rec prefix n i v = Some out ∧
              rendered_rows h sort_by prefix n i v out.
Proof.
  induction v as [|[p sect] v IH]; intros Hrec i; simpl.
  - eexists. split; [done|]. constructor.
  - destruct (Hrec p sect ltac:(left) (next_prefix prefix i n +:+ "| "))
      as (sub & -> & Hsub).
    destruct (IH ltac:(intros; apply (Hrec p0 sp); by right) (S i))
      as (rest & -> & Hrest).
    simpl. eexists. split; [done|]. by constructor.
Qed.

Lemma Display_rendered h r sort_by fuel :
  wf_tree h r →
  ∀ l this prefix,
    walk h r l = Some this → (size h ≤ length l + fuel)%nat →
    ∃ out, DProfileSection_Display std_sort fuel h this prefix sort_by = Some out ∧
           rendered h sort_by this prefix out.
Proof.
  intros Hwf. induction fuel as [|fuel IH]; intros l this prefix Hw Hsize.
  - pose proof (walk_length_lt _ _ _ _ Hwf Hw). lia.
  - destruct (wf_live _ _ _ _ Hwf Hw) as [sec Hsec].
    destruct (children_vect_Some _ _ _ _ _ Hwf Hw Hsec) as (v0 & Hv0 & Hin).
    destruct (std_sort_ok (comparator sort_by) v0
                (comparator_strict_weak_order sort_by)) as [Hperm Hsorted].
    simpl. rewrite Hsec. simpl. rewrite Hv0. simpl.
    destruct (Display_loop_rendered
                (λ p pre, DProfileSection_Display std_sort fuel h p pre sort_by)
                h sort_by prefix
                (length (std_sort (comparator sort_by) v0))
                (std_sort (comparator sort_by) v0)) with (i := 0%nat)
      as (out & Hout & Hrows).
    { intros p sp Hp pre. rewrite Hperm in Hp.
      destruct (Hin _ _ Hp) as [_ [k Hk]].
      apply (IH (l ++ [k])).
      - apply walk_snoc. eauto.
      - rewrite length_app. simpl. lia. }
    exists out. split; [exact Hout|].
    eapply rendered_section; [done|done|exact Hperm| |exact Hrows].
    by apply comparator_sorted.
Qed.

Lemma Display_contexts_rendered h sort_by (cs : list DProfileContext) :
  (∀ c, c ∈ cs → wf_tree h (toplevel c)) →
  ∀ i, ∃ trees,
    Display_contexts std_sort (S (size h)) h sort_by i cs = Some (banners i trees) ∧
    Forall2 (λ c out, rendered h sort_by (toplevel c) "| " out) cs trees.
Proof.
  induction cs as [|c cs IH]; intros Hwf i.
  - exists []. split; [done|constructor].
  - destruct (Display_rendered h (toplevel c) sort_by (S (size h))
                (Hwf c ltac:(left)) [] (toplevel c) "| " eq_refl ltac:(simpl; lia))
      as (tree & Ht & Htree).
    destruct (IH ltac:(intros; apply Hwf; by right) (S i)) as (trees & Hts & Htrees).
    exists (tree :: trees). split; [|by constructor].
    cbn [Display_contexts]. rewrite Ht. cbn [mbind option_bind].
    rewrite Hts. done.
Qed.

End Rendering.

(** * Scenarios *)

(** The section of thread [tid] reached from its root along [path]. *)
Definition section_at {T} (tid : nat) (path : list string) (st : State T)
  : option (DProfileSection T) :=
  c ← context_of tid st; a ← walk (heap st) (toplevel c) path; heap st !! a.

Definition stats {T} (s : DProfileSection T) : Z * T := (call_count s, avg_time s).

(** push("outer"); push("inner"); pop(); pop() by one thread on a fresh
    profiler, with a clock that reads 0, 1, 3, 4, 10. *)
Definition nested_trace : list Op :=
  [OpPush 0%nat "outer"; OpPush 0%nat "inner"; OpPop 0%nat; OpPop 0%nat].

Definition nested_run (T : Type) `{DoubleOps T} : option (State T) :=
  run nested_trace (init (mock_clock (d_of_int <$> [0; 1; 3; 4; 10])) d_zero).

(** C1, as stated, fails: the pop of "outer" takes the fourth reading of
    the clock, 4, so the mean of "outer" is 4 - 0 = 4, not 10. *)
Lemma nested_outer_mean_is_not_10 :
  avg_time <$> (nested_run float ≫= section_at 0 ["outer"]) = Some 4%float ∧
  avg_time <$> (nested_run float ≫= section_at 0 ["outer"]) ≠ Some 10%float.
Proof.
  split; [vm_compute; reflexivity|].
  intros E. apply (f_equal (λ o, PrimFloat.eqb (default 0%float o) 10%float)) in E.
  vm_compute in E. discriminate.
Qed.

(** C1, as the code has it — with the readings 0, 1, 3, 4, 10 the run
    takes four of them, one per push and pop; "outer" ends with
    [call_count = 1] and [avg_time = 4], its child "inner" with
    [call_count = 1] and [avg_time = 2], in binary64 and over the rationals
    alike. *)
Theorem nested_sections_scenario :
  (ticks <$> nested_run float = Some 4%nat ∧
   stats <$> (nested_run float ≫= section_at 0 ["outer"]) = Some (1, 4%float) ∧
   stats <$> (nested_run float ≫= section_at 0 ["outer"; "inner"])
     = Some (1, 2%float)) ∧
  (ticks <$> nested_run Q = Some 4%nat ∧
   stats <$> (nested_run Q ≫= section_at 0 ["outer"]) = Some (1, 4%Q) ∧
   stats <$> (nested_run Q ≫= section_at 0 ["outer"; "inner"]) = Some (1, 2%Q)).
Proof. split_and!; vm_compute; reflexivity. Qed.

(** C2, as stated, fails at [n = 2 ^ 31]: after that many recorded
    durations of 1 ms the [int] counter has wrapped to [- 2 ^ 31] and the
    mean is [-1]. *)
Lemma running_mean_overflow :
  call_count (record_all (replicate (Z.to_nat (2 ^ 31)) 1%Q) (DProfileSection_ctor 0))
    ≠ Z.of_nat (length (replicate (Z.to_nat (2 ^ 31)) 1%Q)) ∧
  call_count (record_all (replicate (Z.to_nat (2 ^ 31)) 1%Q) (DProfileSection_ctor 0))
    = - 2 ^ 31 ∧
  (avg_time (record_all (replicate (Z.to_nat (2 ^ 31)) 1%Q) (DProfileSection_ctor 0))
    == -1)%Q.
Proof.
  rewrite length_replicate, two_pow_31_nat.
  assert (Z.of_nat (Z.to_nat INT_MAX) = INT_MAX) as Hn.
  { apply Z2Nat.id. int_consts. lia. }
  destruct (record_all_overflow (Z.to_nat INT_MAX) (DProfileSection_ctor 0) eq_refl Hn)
    as [Hc Ha].
  split; [|split; [exact Hc|exact Ha]].
  rewrite Hc, Nat2Z.inj_succ, Hn. int_consts. lia.
Qed.

Lemma running_mean_is_the_mean_witness :
  call_count (DProfileSection_ctor (T := Q) 7) = 0 ∧
  Z.of_nat (length [3; 5; 10]%Q) ≤ INT_MAX ∧
  call_count (record_all [3; 5; 10]%Q (DProfileSection_ctor 7)) =
    Z.of_nat (length [3; 5; 10]%Q) ∧
  ([3; 5; 10]%Q ≠ [] →
   (avg_time (record_all [3; 5; 10]%Q (DProfileSection_ctor 7)) ==
    Qsum [3; 5; 10]%Q / inject_Z (Z.of_nat (length [3; 5; 10]%Q)))%Q).
Proof.
  assert (Z.of_nat (length [3; 5; 10]%Q) ≤ INT_MAX) as Hlen by (by vm_compute).
  split; [reflexivity|]. split; [exact Hlen|].
  exact (running_mean_is_the_mean [3; 5; 10]%Q (DProfileSection_ctor 7) eq_refl Hlen).
Defined.

(** A state in the middle of a run: "A" is open, its child "B" has one
    completed call. *)
Definition sample_ops : list Op :=
  [OpPush 0%nat "A"; OpPush 0%nat "B"; OpPop 0%nat].

Definition sample_init : State Q := init (mock_clock [0; 1; 3; 4; 10]%Q) 0%Q.

Definition sample_state : State Q :=
  default sample_init (run sample_ops sample_init).

Lemma sample_reachable : reachable sample_state.
Proof.
  apply (run_reachable sample_ops sample_init); [constructor|].
  vm_compute. reflexivity.
Qed.

(** A pop writes shared state: the pop that closes "A" overwrites the
    static [end_time], which held the stop sample 3 of the pop before. *)
Lemma pop_overwrites_end_time :
  end_time sample_state = 3%Q ∧
  end_time <$> SectionPop 0 sample_state = Some 4%Q ∧
  end_time <$> SectionPop 0 sample_state ≠ Some (end_time sample_state).
Proof. split_and!; [by vm_compute..|]. vm_compute. discriminate. Qed.

(** Two threads in their pops, interleaved at the stop sample: thread 1
    samples 5, thread 2 samples 9, then thread 1 goes on and measures its
    section "A", entered at 0, with the sample of thread 2. *)
Definition interleaved_pops : option (State Q) :=
  st ← run [OpPush 1%nat "A"; OpPush 2%nat "B"] (init (mock_clock [0; 1; 5; 9]%Q) 0%Q);
  SectionPop_body 1 (end_time_SetNow (end_time_SetNow st)).

Example interleaved_pop_takes_the_other_sample :
  stats <$> (interleaved_pops ≫= section_at 1 ["A"]) = Some (1, 9%Q).
Proof. vm_compute. reflexivity. Qed.

(** The same two threads, before their pops. *)
Definition before_pops : option (State Q) :=
  run [OpPush 1%nat "A"; OpPush 2%nat "B"] (init (mock_clock [0; 1; 5; 9]%Q) 0%Q).

(** Thread 1 pops, undisturbed. *)
Definition popped_alone : option (State Q) :=
  st ← before_pops; SectionPop 1 st.

(** C4 — the code does not keep the stop sample of a pop in a local
    variable: [SectionPop] stores it in the static [DProfiler::end_time]
    (line 115) and reads it back when it records (line 130), after
    [GetContext] has taken and released the lock. With thread 1 in "A"
    since sample 0 and thread 2 in "B": a pop of thread 1 writes the
    shared [end_time] (0 before, its sample 5 after) and, run alone,
    records 5 - 0 = 5 at "A"; when thread 2 takes its stop sample 9
    between the sample of thread 1 and its record, thread 1 records
    9 - 0 = 9, the sample of the other thread. *)
Theorem pop_records_another_threads_sample :
  end_time <$> before_pops = Some 0%Q ∧
  end_time <$> popped_alone = Some 5%Q ∧
  stats <$> (popped_alone ≫= section_at 1 ["A"]) = Some (1, 5%Q) ∧
  interleaved_pops =
    (st ← before_pops; SectionPop_body 1 (end_time_SetNow (end_time_SetNow st))) ∧
  stats <$> (interleaved_pops ≫= section_at 1 ["A"]) = Some (1, 9%Q).
Proof. split_and!; vm_compute; reflexivity. Qed.

(** The reading of C5 as stated: only a push registers a thread. *)
Definition registers_by_push (tid : nat) (b : bool) (op : Op) : bool :=
  match op with
  | OpPush t _ => b || bool_decide (t = tid)
  | OpPop _ | OpDisplay _ => b
  | OpClear => false
  end.

(** C5, as stated, fails: a pop on a fresh profiler registers the calling
    thread although it has never pushed. *)
Lemma pop_registers_the_thread :
  contexts <$> run [OpPop 0%nat] sample_init = Some [mkContext 0 0 0] ∧
  (∃ st, run [OpPop 0%nat] sample_init = Some st ∧ has_context 0 st) ∧
  foldl (registers_by_push 0) false [OpPop 0%nat] = false.
Proof.
  split_and!; [by vm_compute| |done].
  eexists. split; [vm_compute; reflexivity|].
  exists (mkContext 0 0 0). split; [|done]. simpl. by left.
Qed.

(** ** The theorems at the sample state *)

Lemma sample_inv : tree_inv sample_state.
Proof. apply reachable_inv, sample_reachable. Qed.

Definition sample_A : DProfileSection Q :=
  default (DProfileSection_ctor 0) (heap sample_state !! 1%nat).

Definition sample_later : State Q :=
  default sample_init (run [OpPush 0%nat "C"; OpPop 0%nat] sample_state).

Lemma sample_A_live : heap sample_state !! 1%nat = Some sample_A.
Proof. vm_compute. reflexivity. Qed.

Lemma sample_A_child : children sample_A !! "B" = Some 2%nat.
Proof. vm_compute. reflexivity. Qed.

Lemma sample_later_run :
  run [OpPush 0%nat "C"; OpPop 0%nat] sample_state = Some sample_later.
Proof. vm_compute. reflexivity. Qed.

Lemma sample_later_ops :
  Forall (λ op, op ≠ OpClear) [OpPush 0%nat "C"; OpPop 0%nat].
Proof. repeat constructor; discriminate. Qed.

(** The state after one pop on a fresh profiler: thread 0 is registered and
    its current section is the root. *)
Definition root_state : State Q :=
  default sample_init (run [OpPop 0%nat] sample_init).

Lemma root_state_context : context_of 0 root_state = Some (mkContext 0 0 0).
Proof. vm_compute. reflexivity. Qed.

Lemma root_state_root : heap root_state !! 0%nat = Some (DProfileSection_ctor 0).
Proof. vm_compute. reflexivity. Qed.

Lemma pop_past_root_is_ignored_witness :
  context_of 0 root_state = Some (mkContext 0 0 0) ∧
  heap root_state !! 0%nat = Some (DProfileSection_ctor 0) ∧
  parent (DProfileSection_ctor (T := Q) 0) = None ∧
  ∃ st', SectionPop 0 root_state = Some st' ∧
         contexts st' = contexts root_state ∧ heap st' = heap root_state ∧
         EXEC_ORDER_ID st' = EXEC_ORDER_ID root_state.
Proof.
  refine (conj root_state_context (conj root_state_root (conj eq_refl _))).
  exact (proj1 pop_past_root_is_ignored 0%nat root_state _ _
           root_state_context root_state_root eq_refl).
Defined.

Lemma pop_frame_witness :
  reachable sample_state ∧
  ∃ st', SectionPop 0 sample_state = Some st' ∧
    end_time st' = now sample_state ∧ clock st' = clock sample_state ∧
    ticks st' = S (ticks sample_state) ∧
    match context_of 0 sample_state with
    | Some c =>
        ∃ i sec,
          find_context 0 (contexts sample_state) = Some i ∧
          heap sample_state !! current c = Some sec ∧
          EXEC_ORDER_ID st' = EXEC_ORDER_ID sample_state ∧
          match parent sec with
          | None => contexts st' = contexts sample_state ∧
                    heap st' = heap sample_state
          | Some p =>
              contexts st' = <[i := set_current p c]> (contexts sample_state) ∧
              ∃ n avg, heap st' =
                         <[current c := set_stats n avg sec]> (heap sample_state)
          end
    | None => st' = register 0 (end_time_SetNow sample_state)
    end.
Proof.
  split; [exact sample_reachable|].
  exact (pop_frame 0%nat sample_state sample_reachable).
Defined.

Lemma push_pop_restores_current_witness :
  reachable sample_state ∧
  ∃ st1 st2 c0 c1 sq,
    SectionPush 0 "C" sample_state = Some st1 ∧ SectionPop 0 st1 = Some st2 ∧
    entry_context 0 sample_state = Some c0 ∧
    (∀ c, context_of 0 sample_state = Some c → c = c0) ∧
    context_of 0 st1 = Some c1 ∧ heap st1 !! current c1 = Some sq ∧
    parent sq = Some (current c0) ∧
    context_of 0 st2 = Some c0 ∧
    (current <$> context_of 0 st2) = Some (current c0).
Proof.
  split; [exact sample_reachable|].
  exact (push_pop_restores_current 0%nat "C" sample_state sample_reachable).
Defined.

Lemma get_or_create_child_idempotent_witness :
  (heap sample_state !! 1%nat = Some sample_A ∧
   ∃ q st1, SectionPush_child 1 "B" sample_state = Some (q, st1) ∧
            SectionPush_child 1 "B" st1 = Some (q, st1)) ∧
  (reachable sample_state ∧
   heap sample_state !! 1%nat = Some sample_A ∧
   children sample_A !! "B" = Some 2%nat ∧
   Forall (λ op, op ≠ OpClear) [OpPush 0%nat "C"; OpPop 0%nat] ∧
   run [OpPush 0%nat "C"; OpPop 0%nat] sample_state = Some sample_later ∧
   SectionPush_child 1 "B" sample_later = Some (2%nat, sample_later)) ∧
  (reachable sample_state ∧
   ∃ st1 st2 st3 c1 sq1 sq3,
     SectionPush 0 "B" sample_state = Some st1 ∧ SectionPop 0 st1 = Some st2 ∧
     SectionPush 0 "B" st2 = Some st3 ∧
     context_of 0 st1 = Some c1 ∧ context_of 0 st3 = Some c1 ∧
     contexts st3 = contexts st1 ∧
     dom (heap st3) = dom (heap st1) ∧
     EXEC_ORDER_ID st3 = EXEC_ORDER_ID st1 ∧
     extends (heap st1) (heap st3) ∧
     heap st1 !! current c1 = Some sq1 ∧ heap st3 !! current c1 = Some sq3 ∧
     call_count sq3 = wrap_int (call_count sq1 + 1)).
Proof.
  refine (conj (conj sample_A_live _)
            (conj (conj sample_reachable
                     (conj sample_A_live
                        (conj sample_A_child
                           (conj sample_later_ops (conj sample_later_run _)))))
                  (conj sample_reachable _))).
  - exact (proj1 get_or_create_child_idempotent sample_state 1%nat "B" sample_A
             sample_A_live).
  - exact (proj1 (proj2 get_or_create_child_idempotent) sample_state 1%nat "B"
             sample_A 2%nat _ sample_later sample_reachable sample_A_live
             sample_A_child sample_later_ops sample_later_run).
  - exact (proj2 (proj2 get_or_create_child_idempotent) 0%nat "B" sample_state
             sample_reachable).
Defined.

Lemma operations_preserve_tree_invariant_witness :
  tree_invariant sample_state ∧
  ∃ st', step (OpPush 0%nat "C") sample_state = Some st' ∧ tree_invariant st'.
Proof.
  assert (tree_invariant sample_state) as Hinv
    by (apply tree_invariant_inv, sample_inv).
  split; [exact Hinv|].
  exact (operations_preserve_tree_invariant (OpPush 0%nat "C") sample_state Hinv).
Defined.

Lemma push_default_label_witness :
  reachable sample_state ∧
  SectionPush_noarg 0 sample_state =
    SectionPush 0 "unlabelled section" sample_state ∧
  ∃ st' c0 c1 sq sp,
    SectionPush_noarg 0 sample_state = Some st' ∧
    entry_context 0 sample_state = Some c0 ∧
    context_of 0 st' = Some c1 ∧
    heap st' !! current c1 = Some sq ∧
    name sq = "unlabelled section" ∧ parent sq = Some (current c0) ∧
    heap st' !! current c0 = Some sp ∧
    children sp !! "unlabelled section" = Some (current c1).
Proof.
  split; [exact sample_reachable|].
  exact (push_default_label 0%nat sample_state sample_reachable).
Defined.

(** Two siblings and a nested pair, displayed in both orders with a merge
    sort for [std::sort]. *)
Definition siblings_ops : list Op :=
  [OpPush 0%nat "fast"; OpPop 0%nat;
   OpPush 0%nat "slow"; OpPush 0%nat "in"; OpPop 0%nat; OpPop 0%nat].

Definition siblings_run : option (State Q) :=
  run siblings_ops (init (mock_clock [0; 10; 20; 30; 40; 120]%Q) 0%Q).

Example siblings_by_time :
  siblings_run ≫= Display merge_std_sort SORT_TIME =
  Some (Display_header SORT_TIME ++
        [OutThread 0; OutRow "+ slow" 100%Q 100%Q 1; OutRow "| + in" 10%Q 10%Q 1;
         OutRow "+ fast" 10%Q 10%Q 1; OutText rule]).
Proof. vm_compute. reflexivity. Qed.

Example siblings_by_execution :
  siblings_run ≫= Display merge_std_sort SORT_EXECUTION =
  Some (Display_header SORT_EXECUTION ++
        [OutThread 0; OutRow "+ fast" 10%Q 10%Q 1; OutRow "+ slow" 100%Q 100%Q 1;
         OutRow "  + in" 10%Q 10%Q 1; OutText rule]).
Proof. vm_compute. reflexivity. Qed.

(** * Ownership of the sections, and [Clear] *)

Section Ownership.

Context {T : Type} `{DoubleOps T}.

Implicit Types (h : gmap nat (DProfileSection T)) (st : State T).
Implicit Types (sec : DProfileSection T) (c : DProfileContext).
Implicit Types (l : list string) (p q r a : nat).

(** The sections below [p], [p] included. *)
Definition desc h p a : Prop := ∃ l, walk h p l = Some a.

(** What a destructor needs of the sections below [p]: they are live and
    each is reached by one path only. *)
Definition sub_wf h p : Prop :=
  (∀ l a, walk h p l = Some a → is_Some (h !! a)) ∧
  (∀ l1 l2 a, walk h p l1 = Some a → walk h p l2 = Some a → l1 = l2).

Lemma wf_sub_wf h r : wf_tree h r → sub_wf h r.
Proof.
  intros Hwf. split.
  - intros l a. by apply wf_live.
  - intros l1 l2 a. by apply wf_unique_path.
Qed.

Lemma sub_wf_child h p sp k q :
  sub_wf h p → h !! p = Some sp → children sp !! k = Some q → sub_wf h q.
Proof.
  intros [Hlive Huniq] Hp Hk.
  assert (∀ l a, walk h q l = Some a → walk h p (k :: l) = Some a) as Hext.
  { intros l a Hw. simpl. rewrite Hp. simpl. by rewrite Hk. }
  split.
  - intros l a Hw. eapply Hlive, Hext, Hw.
  - intros l1 l2 a H1 H2.
    pose proof (Huniq _ _ _ (Hext _ _ H1) (Hext _ _ H2)). congruence.
Qed.

(** Two heaps that agree on the sections below [p] have the same paths
    from [p]. *)
Lemma walk_agree h h' p :
  (∀ l a, walk h p l = Some a → h' !! a = h !! a) →
  ∀ l, walk h' p l = walk h p l.
Proof.
  intros Hag l. revert p Hag. induction l as [|k l IH]; intros p Hag; [done|].
  simpl. rewrite (Hag [] p eq_refl).
  destruct (h !! p) as [sp|] eqn:Hp; simpl; [|done].
  destruct (children sp !! k) as [q|] eqn:Hk; simpl; [|done].
  apply IH. intros l' a Hw. apply (Hag (k :: l')). simpl. rewrite Hp. simpl.
  by rewrite Hk.
Qed.

Lemma sub_wf_agree h h' p :
  (∀ l a, walk h p l = Some a → h' !! a = h !! a) → sub_wf h p → sub_wf h' p.
Proof.
  intros Hag [Hlive Huniq]. pose proof (walk_agree _ _ _ Hag) as Hw. split.
  - intros l a Ha. rewrite Hw in Ha. rewrite (Hag _ _ Ha). by eapply Hlive.
  - intros l1 l2 a H1 H2. rewrite Hw in H1, H2. by eapply Huniq.
Qed.

(** [delete p] with enough fuel frees the sections below [p], and those
    only. *)
Lemma delete_section_spec fuel : ∀ h p,
  sub_wf h p → (∀ l a, walk h p l = Some a → (length l < fuel)%nat) →
  (∀ a, desc h p a → delete_section fuel p h !! a = None) ∧
  (∀ a, ¬ desc h p a → delete_section fuel p h !! a = h !! a).
Proof.
  induction fuel as [|fuel IH]; intros h p Hsub Hfuel.
  { pose proof (Hfuel [] p eq_refl). simpl in *. lia. }
  destruct (proj1 Hsub [] p eq_refl) as [sp Hp].
  simpl. rewrite Hp. rewrite map_fold_foldr.
  (* the loop over the children *)
  assert (∀ L : list (string * nat),
            L ⊆ map_to_list (children sp) → NoDup L.*1 →
            let h' := foldr (uncurry (λ (_ : string) q h', delete_section fuel q h')) h L in
            (∀ k q a, (k, q) ∈ L → desc h q a → h' !! a = None) ∧
            (∀ a, (∀ k q, (k, q) ∈ L → ¬ desc h q a) → h' !! a = h !! a)) as Hloop.
  { induction L as [|[k q] L IHL]; intros HL Hnd; simpl.
    { split; [by intros ??? ?%elem_of_nil|done]. }
    apply NoDup_cons in Hnd as [Hk Hnd].
    destruct IHL as [IH1 IH2]; [intros x Hx; apply HL; by right|done|].
    set (h'' := foldr _ h L) in *.
    assert (children sp !! k = Some q) as Hkq.
    { apply elem_of_map_to_list, HL. by left. }
    pose proof (sub_wf_child _ _ _ _ _ Hsub Hp Hkq) as Hsubq.
    (* the subtrees of the other children are apart from that of [q] *)
    assert (∀ k' q' a, (k', q') ∈ L → desc h q' a → ¬ desc h q a) as Hapart.
    { intros k' q' a Hin [l' Hw'] [l Hw].
      assert (children sp !! k' = Some q') as Hkq'.
      { apply elem_of_map_to_list, HL. by right. }
      assert (k :: l = k' :: l') as E.
      { apply (proj2 Hsub _ _ a); simpl; rewrite Hp; simpl.
        - by rewrite Hkq.
        - by rewrite Hkq'. }
      injection E as -> _. apply Hk. apply list_elem_of_fmap.
      by exists (k', q'). }
    (* so the subtree of [q] is untouched so far *)
    assert (∀ l a, walk h q l = Some a → h'' !! a = h !! a) as Hag.
    { intros l a Hw. apply IH2. intros k' q' Hin Hd.
      apply (Hapart k' q' a Hin Hd). by exists l. }
    pose proof (walk_agree _ _ _ Hag) as Hwalk.
    destruct (IH h'' q) as [D1 D2].
    { by eapply sub_wf_agree. }
    { intros l a Hw. rewrite Hwalk in Hw.
      assert (walk h p (k :: l) = Some a) as Hw'.
      { simpl. rewrite Hp. simpl. by rewrite Hkq. }
      apply Hfuel in Hw'. simpl in Hw'. lia. }
    assert (∀ a, desc h'' q a ↔ desc h q a) as Hdesc.
    { intros a. unfold desc. by setoid_rewrite Hwalk. }
    split.
    - intros k' q' a [[= -> ->]|Hin]%elem_of_cons Hd.
      + apply D1. by apply Hdesc.
      + rewrite D2.
        * by eapply IH1.
        * rewrite Hdesc. by eapply Hapart.
    - intros a Hnot. rewrite D2.
      + apply IH2. intros k' q' Hin. apply (Hnot k' q'). by right.
      + rewrite Hdesc. apply (Hnot k q). by left. }
  destruct (Hloop (map_to_list (children sp))) as [F1 F2];
    [done|apply NoDup_fst_map_to_list|].
  split.
  - intros a [l Hw]. destruct l as [|k l]; simpl in Hw.
    + injection Hw as <-. apply lookup_delete_eq.
    + rewrite Hp in Hw. simpl in Hw.
      destruct (children sp !! k) as [q|] eqn:Hk; simpl in Hw; [|done].
      apply lookup_delete_None. right.
      apply (F1 k q); [by apply elem_of_map_to_list|by exists l].
  - intros a Hnot. rewrite lookup_delete_ne.
    + apply F2. intros k q Hin%elem_of_map_to_list [l Hw]. apply Hnot.
      exists (k :: l). simpl. rewrite Hp. simpl. by rewrite Hin.
    + intros <-. apply Hnot. by exists [].
Qed.

(** ** The operations, piece by piece

    Each operation is a short sequence of the pieces below: a push is
    [GetContext] (which registers the thread when it must) and then either
    the entry of an existing child or the creation of a new one; a pop is
    the stop sample, [GetContext], and then the record and ascent unless
    the current section is a root. The invariants that follow are proved
    piece by piece. *)

Definition enter_state (i : nat) c q (sq : DProfileSection T) st : State T :=
  mkState (<[i := set_current q c]> (contexts st)) (end_time st)
          (EXEC_ORDER_ID st) (<[q := set_timer (now st) sq]> (heap st))
          (clock st) (S (ticks st)).

Definition create_state (i : nat) c (nm : string) sec st : State T :=
  let q := fresh (dom (heap st)) in
  let snew := new_child (EXEC_ORDER_ID st) (current c) nm in
  mkState (<[i := set_current q c]> (contexts st)) (end_time st)
          (wrap_int (EXEC_ORDER_ID st + 1))
          (<[q := set_timer (now st) snew]>
             (<[current c := set_child nm q sec]> (<[q := snew]> (heap st))))
          (clock st) (S (ticks st)).

Definition leave_state (i : nat) c sec p st : State T :=
  mkState (<[i := set_current p c]> (contexts st)) (end_time st)
          (EXEC_ORDER_ID st)
          (<[current c := record_time (d_sub (end_time st) (timer sec)) sec]>
             (heap st))
          (clock st) (ticks st).

Inductive mlabel := LThread (tid : nat) | LStamp | LClear.

Inductive mstep : mlabel → State T → State T → Prop :=
  | ms_register tid st :
      find_context tid (contexts st) = None →
      mstep (LThread tid) st (register tid st)
  | ms_enter tid nm st i c sec q sq :
      find_context tid (contexts st) = Some i → contexts st !! i = Some c →
      heap st !! current c = Some sec → children sec !! nm = Some q →
      heap st !! q = Some sq →
      mstep (LThread tid) st (enter_state i c q sq st)
  | ms_create tid nm st i c sec :
      find_context tid (contexts st) = Some i → contexts st !! i = Some c →
      heap st !! current c = Some sec → children sec !! nm = None →
      mstep (LThread tid) st (create_state i c nm sec st)
  | ms_leave tid st i c sec p :
      find_context tid (contexts st) = Some i → contexts st !! i = Some c →
      heap st !! current c = Some sec → parent sec = Some p →
      mstep (LThread tid) st (leave_state i c sec p st)
  | ms_stamp st : mstep LStamp st (end_time_SetNow st)
  | ms_clear st : mstep LClear st (Clear st).

(** [msteps P n st st']: [n] pieces, each with a label in [P], lead from
    [st] to [st']. *)
Inductive msteps (P : mlabel → Prop) : nat → State T → State T → Prop :=
  | msteps_refl st : msteps P 0 st st
  | msteps_step n lb st st1 st2 :
      P lb → mstep lb st st1 → msteps P n st1 st2 → msteps P (S n) st st2.

Lemma msteps_one (P : mlabel → Prop) lb st st' :
  P lb → mstep lb st st' → msteps P 1 st st'.
Proof. intros HP Hs. eapply msteps_step; [done..|apply msteps_refl]. Qed.

(** The pieces an operation may be made of. *)
Definition op_labels (op : Op) (lb : mlabel) : Prop :=
  match op with
  | OpPush t _ => lb = LThread t
  | OpPop t => lb = LStamp ∨ lb = LThread t
  | OpClear => lb = LClear
  | OpDisplay _ => False
  end.

Lemma SectionPush_create tid nm st i c sec :
  find_context tid (contexts st) = Some i → contexts st !! i = Some c →
  heap st !! current c = Some sec → children sec !! nm = None →
  SectionPush tid nm st = Some (create_state i c nm sec st).
Proof.
  intros Hf Hc Hcur Hk. unfold SectionPush.
  rewrite (GetContext_found _ _ _ Hf), Hc. simpl.
  pose proof (SectionPush_child_new _ _ _ _ Hcur Hk) as E. simpl in E.
  rewrite E. simpl.
  assert (current c ≠ fresh (dom (heap st))) as Hne.
  { intros Eq. pose proof (fresh_heap (heap st)) as Hfr. rewrite <- Eq in Hfr.
    congruence. }
  rewrite lookup_insert_ne by done. rewrite lookup_insert_eq. done.
Qed.

Lemma SectionPop_body_found tid st i c sec :
  find_context tid (contexts st) = Some i → contexts st !! i = Some c →
  heap st !! current c = Some sec →
  SectionPop_body tid st =
    Some match parent sec with
         | None => st
         | Some p => leave_state i c sec p st
         end.
Proof.
  intros Hf Hc Hcur. unfold SectionPop_body.
  rewrite (GetContext_found _ _ _ Hf), Hc. simpl. rewrite Hcur. simpl.
  by destruct (parent sec).
Qed.

Lemma register_find tid st :
  find_context tid (contexts st) = None →
  find_context tid (contexts (register tid st)) = Some (length (contexts st)) ∧
  contexts (register tid st) !! length (contexts st) =
    Some (mkContext tid (fresh (dom (heap st))) (fresh (dom (heap st)))) ∧
  heap (register tid st) !! fresh (dom (heap st)) =
    Some (DProfileSection_ctor (EXEC_ORDER_ID st)).
Proof.
  intros Hf. simpl. split_and!.
  - rewrite (find_context_app_None _ _ _ Hf). simpl. by rewrite decide_True.
  - rewrite lookup_app_r by done. by rewrite Nat.sub_diag.
  - apply lookup_insert_eq.
Qed.

Lemma SectionPush_register tid nm st :
  find_context tid (contexts st) = None →
  SectionPush tid nm st = SectionPush tid nm (register tid st).
Proof.
  intros Hf. destruct (register_find tid st Hf) as (Hf' & _).
  unfold SectionPush. rewrite (GetContext_new _ _ Hf).
  by rewrite (GetContext_found _ _ _ Hf').
Qed.

Lemma SectionPop_body_register tid st :
  find_context tid (contexts st) = None →
  SectionPop_body tid st = Some (register tid st).
Proof.
  intros Hf. destruct (register_find tid st Hf) as (Hf' & Hc & Hr).
  unfold SectionPop_body. rewrite (GetContext_new _ _ Hf).
  rewrite Hc. simpl. rewrite lookup_insert_eq. done.
Qed.

(** Every piece keeps the trees well formed. *)
Lemma mstep_tree_inv lb st st' : tree_inv st → mstep lb st st' → tree_inv st'.
Proof.
  intros Hinv Hs. destruct Hs as [tid st Hf|tid nm st i c sec q sq Hf Hc Hcur Hk Hq
    |tid nm st i c sec Hf Hc Hcur Hk|tid st i c sec p Hf Hc Hcur Hpar|st|st].
  - eapply GetContext_inv; [done|]. by apply GetContext_new.
  - destruct (step_inv (OpPush tid nm) st Hinv) as (st' & Hstep & Hinv').
    simpl in Hstep.
    rewrite (SectionPush_found _ _ _ _ _ _ _ _ Hf Hc Hcur Hk Hq) in Hstep.
    by injection Hstep as <-.
  - destruct (step_inv (OpPush tid nm) st Hinv) as (st' & Hstep & Hinv').
    simpl in Hstep.
    rewrite (SectionPush_create _ _ _ _ _ _ Hf Hc Hcur Hk) in Hstep.
    by injection Hstep as <-.
  - assert (c ∈ contexts st) as Hcin by (apply list_elem_of_lookup; eauto).
    pose proof (Hinv c Hcin) as Hctx.
    assert (extends (heap st) (heap (leave_state i c sec p st))) as Hext.
    { simpl. by eapply extends_update. }
    destruct (wf_ctx_parent _ _ _ _ Hctx Hcur Hpar) as [lp Hlp].
    intros c'. simpl. intros [->|Hc']%elem_of_insert_inv.
    + split; simpl; [eapply extends_wf; [exact Hext|apply Hctx]|].
      exists lp. by eapply extends_walk.
    + destruct (Hinv _ Hc') as [Hwf' [l' Hl']]. split.
      * by eapply extends_wf.
      * exists l'. by eapply extends_walk.
  - by eapply tree_inv_same.
  - apply Clear_inv.
Qed.

Lemma msteps_tree_inv P n st st' :
  tree_inv st → msteps P n st st' → tree_inv st'.
Proof.
  intros Hinv Hs. induction Hs as [|n lb st st1 st2 _ Hs _ IH]; [done|].
  apply IH. by eapply mstep_tree_inv.
Qed.

(** Every operation is made of two of its pieces at most. *)
Lemma SectionPush_msteps tid nm st st' :
  tree_inv st → SectionPush tid nm st = Some st' →
  ∃ n, (n ≤ 2)%nat ∧ msteps (op_labels (OpPush tid nm)) n st st'.
Proof.
  assert (∀ st st', tree_inv st → is_Some (find_context tid (contexts st)) →
            SectionPush tid nm st = Some st' →
            msteps (op_labels (OpPush tid nm)) 1 st st') as Hfound.
  { clear st st'. intros st st' Hinv [i Hf] Hpush.
    destruct (find_context_Some _ _ _ Hf) as (c & Hc & _).
    assert (c ∈ contexts st) as Hcin by (apply list_elem_of_lookup; eauto).
    destruct (Hinv c Hcin) as [Hwf [l Hl]].
    destruct (wf_live _ _ _ _ Hwf Hl) as [sec Hcur].
    destruct (children sec !! nm) as [q|] eqn:Hk.
    - destruct (wf_child _ _ Hwf _ _ _ _ _ Hl Hcur Hk) as (sq & Hq & _).
      rewrite (SectionPush_found _ _ _ _ _ _ _ _ Hf Hc Hcur Hk Hq) in Hpush.
      injection Hpush as <-. eapply msteps_one; [done|]. by eapply ms_enter.
    - rewrite (SectionPush_create _ _ _ _ _ _ Hf Hc Hcur Hk) in Hpush.
      injection Hpush as <-. eapply msteps_one; [done|]. by eapply ms_create. }
  intros Hinv Hpush.
  destruct (find_context tid (contexts st)) as [i|] eqn:Hf.
  - exists 1%nat. split; [lia|]. apply Hfound; [done|by rewrite Hf|done].
  - rewrite (SectionPush_register _ _ _ Hf) in Hpush.
    exists 2%nat. split; [lia|].
    eapply msteps_step; [done|by apply ms_register|].
    apply Hfound; [|by rewrite (proj1 (register_find _ _ Hf))|done].
    eapply mstep_tree_inv; [done|]. by apply ms_register.
Qed.

Lemma SectionPop_msteps tid st st' :
  tree_inv st → SectionPop tid st = Some st' →
  ∃ n, (n ≤ 2)%nat ∧ msteps (op_labels (OpPop tid)) n st st'.
Proof.
  intros Hinv Hpop. unfold SectionPop in Hpop.
  assert (tree_inv (end_time_SetNow st)) as Hinv1 by (by eapply tree_inv_same).
  assert (∃ n, (n ≤ 1)%nat ∧
               msteps (op_labels (OpPop tid)) n (end_time_SetNow st) st')
    as (n & Hn & Hms).
  { revert Hinv1 Hpop. generalize (end_time_SetNow st). clear st Hinv.
    intros st Hinv Hpop.
    destruct (find_context tid (contexts st)) as [i|] eqn:Hf.
    - destruct (find_context_Some _ _ _ Hf) as (c & Hc & _).
      assert (c ∈ contexts st) as Hcin by (apply list_elem_of_lookup; eauto).
      destruct (Hinv c Hcin) as [Hwf [l Hl]].
      destruct (wf_live _ _ _ _ Hwf Hl) as [sec Hcur].
      rewrite (SectionPop_body_found _ _ _ _ _ Hf Hc Hcur) in Hpop.
      injection Hpop as <-. destruct (parent sec) as [p|] eqn:Hpar.
      + exists 1%nat. split; [lia|].
        eapply msteps_one; [by right|]. by eapply ms_leave.
      + exists 0%nat. split; [lia|]. apply msteps_refl.
    - rewrite (SectionPop_body_register _ _ Hf) in Hpop. injection Hpop as <-.
      exists 1%nat. split; [lia|].
      eapply msteps_one; [by right|]. by apply ms_register. }
  exists (S n). split; [lia|].
  eapply msteps_step; [by left|apply ms_stamp|done].
Qed.

Lemma step_msteps op st st' :
  tree_inv st → step op st = Some st' →
  ∃ n, (n ≤ 2)%nat ∧ msteps (op_labels op) n st st'.
Proof.
  intros Hinv Hstep. destruct op as [tid nm|tid| |sort]; simpl in Hstep.
  - by apply SectionPush_msteps.
  - by apply SectionPop_msteps.
  - injection Hstep as <-. exists 1%nat. split; [lia|].
    eapply msteps_one; [done|apply ms_clear].
  - injection Hstep as <-. exists 0%nat. split; [lia|]. apply msteps_refl.
Qed.

(** An invariant of the pieces (next to well-formedness) holds on every
    reachable state. *)
Lemma reachable_by_msteps (J : State T → Prop) :
  (∀ clk e0, J (init clk e0)) →
  (∀ lb st st', tree_inv st → J st → mstep lb st st' → J st') →
  ∀ st, reachable st → J st.
Proof.
  intros Hinit Hstep st Hr.
  induction Hr as [clk e0|op st st' Hr IH Hs]; [apply Hinit|].
  pose proof (reachable_inv _ Hr) as Hinv.
  destruct (step_msteps _ _ _ Hinv Hs) as (n & _ & Hms).
  clear Hs Hr. induction Hms as [|n lb st st1 st2 _ Hs _ IH2]; [done|].
  apply IH2; [by eapply Hstep|by eapply mstep_tree_inv].
Qed.

(** ** Who owns what *)

(** One context per thread and one root per context. *)
Definition registry_inv st : Prop :=
  NoDup (thread_context <$> contexts st) ∧ NoDup (toplevel <$> contexts st).

(** Every live section is below the root of a registered context. *)
Definition no_orphans st : Prop :=
  ∀ a, is_Some (heap st !! a) →
       ∃ c, c ∈ contexts st ∧ desc (heap st) (toplevel c) a.

Definition own_inv st : Prop := registry_inv st ∧ no_orphans st.

(** A section is below one root at most. *)
Lemma trees_apart h r1 r2 a :
  wf_tree h r1 → wf_tree h r2 → desc h r1 a → desc h r2 a → r1 = r2.
Proof.
  intros Hwf1 Hwf2 [l1 H1] [l2 H2]. revert a l2 H1 H2.
  induction l1 as [|k1 l1 IH] using rev_ind; intros a l2 H1 H2.
  - simpl in H1. injection H1 as <-.
    destruct l2 as [|k2 l2 _] using rev_ind; [by injection H2|].
    destruct (wf_root _ _ Hwf1) as (sr & Hr & Hnone).
    destruct (wf_parent _ _ _ _ _ _ Hwf2 H2 Hr) as (p & _ & Hpar & _).
    congruence.
  - destruct (wf_live _ _ _ _ Hwf1 H1) as [sa Ha].
    destruct (wf_parent _ _ _ _ _ _ Hwf1 H1 Ha) as (p1 & Hp1 & Hpar1 & _).
    destruct l2 as [|k2 l2 _] using rev_ind.
    + simpl in H2. injection H2 as <-.
      destruct (wf_root _ _ Hwf2) as (sr & Hr & Hnone). congruence.
    + destruct (wf_parent _ _ _ _ _ _ Hwf2 H2 Ha) as (p2 & Hp2 & Hpar2 & _).
      assert (p1 = p2) as -> by congruence. by eapply IH.
Qed.

Lemma Clear_fold h0 (F : nat) (cs : list DProfileContext) :
  (∀ c, c ∈ cs → wf_tree h0 (toplevel c)) → NoDup (toplevel <$> cs) →
  (size h0 < F)%nat →
  ∀ h', (∀ c a, c ∈ cs → desc h0 (toplevel c) a → h' !! a = h0 !! a) →
    let res := foldl (λ h c, delete_section F (toplevel c) h) h' cs in
    (∀ c a, c ∈ cs → desc h0 (toplevel c) a → res !! a = None) ∧
    (∀ a, (∀ c, c ∈ cs → ¬ desc h0 (toplevel c) a) → res !! a = h' !! a).
Proof.
  intros Hwf Hnd HF. induction cs as [|c cs IH]; intros h' Hag; simpl.
  { split; [by intros ?? ?%elem_of_nil|done]. }
  rewrite fmap_cons in Hnd. apply NoDup_cons in Hnd as [Hc Hnd].
  assert (∀ l a, walk h0 (toplevel c) l = Some a → h' !! a = h0 !! a) as Hagc.
  { intros l a Hw. apply (Hag c); [by left|by exists l]. }
  pose proof (walk_agree _ _ _ Hagc) as Hwalk.
  assert (wf_tree h0 (toplevel c)) as Hwfc by (apply Hwf; by left).
  destruct (delete_section_spec F h' (toplevel c)) as [D1 D2].
  { eapply sub_wf_agree; [exact Hagc|by apply wf_sub_wf]. }
  { intros l a Hw. rewrite Hwalk in Hw.
    pose proof (walk_length_lt _ _ _ _ Hwfc Hw). lia. }
  assert (∀ a, desc h' (toplevel c) a ↔ desc h0 (toplevel c) a) as Hdesc.
  { intros a. unfold desc. by setoid_rewrite Hwalk. }
  assert (∀ c' a, c' ∈ cs → desc h0 (toplevel c') a → ¬ desc h0 (toplevel c) a)
    as Hapart.
  { intros c' a Hc' Hd' Hd. apply Hc. apply list_elem_of_fmap. exists c'.
    split; [|done]. eapply trees_apart; [| |exact Hd|exact Hd']; [done|].
    apply Hwf. by right. }
  destruct (IH ltac:(intros; apply Hwf; by right) Hnd
              (delete_section F (toplevel c) h')) as [R1 R2].
  { intros c' a Hc' Hd'. rewrite D2.
    - apply (Hag c'); [by right|done].
    - rewrite Hdesc. by eapply Hapart. }
  split.
  - intros c' a [->|Hc']%elem_of_cons Hd.
    + rewrite R2.
      * apply D1. by apply Hdesc.
      * intros c'' Hc'' Hd''. by eapply Hapart.
    + by eapply R1.
  - intros a Hnot. rewrite R2.
    + apply D2. rewrite Hdesc. apply Hnot. by left.
    + intros c' Hc'. apply Hnot. by right.
Qed.

(** After [Clear] no section is left. *)
Lemma Clear_heap_empty st : tree_inv st → own_inv st → heap (Clear st) = ∅.
Proof.
  intros Hinv [[_ Hroots] Horph]. apply map_empty. intros a. simpl.
  destruct (Clear_fold (heap st) (S (size (heap st))) (contexts st)) with (h' := heap st)
    as [R1 R2]; [|done|lia|done|].
  { intros c Hc. apply (Hinv c Hc). }
  destruct (heap st !! a) as [sa|] eqn:Ha.
  - destruct (Horph a) as (c & Hc & Hd); [by rewrite Ha|]. by eapply R1.
  - rewrite R2; [done|]. intros c Hc [l Hw].
    destruct (wf_live _ _ _ _ (proj1 (Hinv c Hc)) Hw) as [? ?]. congruence.
Qed.

Lemma fmap_insert_current (f : DProfileContext → nat) (cs : list DProfileContext) i c q :
  cs !! i = Some c → f (set_current q c) = f c →
  f <$> <[i := set_current q c]> cs = f <$> cs.
Proof.
  intros Hc E. rewrite list_fmap_insert, E. apply list_insert_id.
  by rewrite list_lookup_fmap, Hc.
Qed.

Lemma elem_of_insert_current (cs : list DProfileContext) i c q c0 :
  cs !! i = Some c → c0 ∈ cs →
  ∃ c', c' ∈ <[i := set_current q c]> cs ∧ toplevel c' = toplevel c0 ∧
        thread_context c' = thread_context c0.
Proof.
  intros Hc [j Hj]%list_elem_of_lookup. destruct (decide (i = j)) as [->|Hne].
  - exists (set_current q c). split.
    + apply list_elem_of_lookup. exists j. apply list_lookup_insert_eq.
      by eapply lookup_lt_Some.
    + assert (c0 = c) as -> by congruence. done.
  - exists c0. split; [|done]. apply list_elem_of_lookup. exists j.
    by rewrite list_lookup_insert_ne.
Qed.

(** Orphans do not appear when the heap changes but keeps every old path
    and every new section is reached. *)
Lemma no_orphans_step st (cs' : list DProfileContext) h' :
  no_orphans st →
  (∀ c, c ∈ contexts st → ∃ c', c' ∈ cs' ∧ toplevel c' = toplevel c) →
  (∀ r l a, (∃ c, c ∈ contexts st ∧ toplevel c = r) →
            walk (heap st) r l = Some a → walk h' r l = Some a) →
  (∀ a, is_Some (h' !! a) → is_Some (heap st !! a) ∨
        ∃ c', c' ∈ cs' ∧ desc h' (toplevel c') a) →
  ∀ a, is_Some (h' !! a) → ∃ c', c' ∈ cs' ∧ desc h' (toplevel c') a.
Proof.
  intros Horph Hcs Hwalk Hnew a Ha.
  destruct (Hnew a Ha) as [Hold|?]; [|done].
  destruct (Horph a Hold) as (c & Hc & [l Hl]).
  destruct (Hcs c Hc) as (c' & Hc' & E). exists c'. split; [done|].
  exists l. rewrite E. apply Hwalk; eauto.
Qed.

Lemma mstep_own_inv lb st st' :
  tree_inv st → own_inv st → mstep lb st st' → own_inv st'.
Proof.
  intros Hinv [[Htids Hroots] Horph] Hs.
  destruct Hs as [tid st Hf|tid nm st i c sec q sq Hf Hc Hcur Hk Hq
    |tid nm st i c sec Hf Hc Hcur Hk|tid st i c sec p Hf Hc Hcur Hpar|st|st].
  - (* register *)
    pose proof (fresh_heap (heap st)) as Hfr. split; [split|]; simpl.
    + rewrite fmap_app. apply NoDup_app. split_and!; [done| |apply NoDup_singleton].
      intros t (c & -> & Hc)%list_elem_of_fmap Hin. simpl in Hin.
      apply list_elem_of_singleton in Hin.
      by apply (proj1 (find_context_None _ _) Hf c Hc).
    + rewrite fmap_app. apply NoDup_app. split_and!; [done| |apply NoDup_singleton].
      intros r (c & -> & Hc)%list_elem_of_fmap Hin. simpl in Hin.
      apply list_elem_of_singleton in Hin.
      destruct (wf_root _ _ (proj1 (Hinv c Hc))) as (sr & Hr & _). congruence.
    + unfold no_orphans. simpl. apply (no_orphans_step st); [done| | |].
      * intros c Hc. exists c. split; [|done]. apply elem_of_app. by left.
      * intros r l a _. apply extends_walk. by apply extends_alloc.
      * intros a [sa Ha]. destruct (decide (a = fresh (dom (heap st)))) as [->|Hne].
        -- right. eexists. split; [apply elem_of_app; right; by left|].
           by exists [].
        -- left. rewrite lookup_insert_ne in Ha by done. by eauto.
  - (* enter *)
    assert (extends (heap st) (<[q := set_timer (now st) sq]> (heap st))) as Hext
      by (by eapply extends_update).
    split; [split|]; simpl.
    + by rewrite (fmap_insert_current thread_context _ _ _ _ Hc).
    + by rewrite (fmap_insert_current toplevel _ _ _ _ Hc).
    + unfold no_orphans. simpl. apply (no_orphans_step st); [done| | |].
      * intros c0 Hc0.
        destruct (elem_of_insert_current _ _ _ q _ Hc Hc0) as (c' & ? & ? & _).
        eauto.
      * intros r l a _. by apply extends_walk.
      * intros a Ha. left. apply lookup_insert_is_Some in Ha as [->|[_ Ha]]; eauto.
  - (* create *)
    pose proof (fresh_heap (heap st)) as Hfr.
    set (q := fresh (dom (heap st))) in *.
    set (snew := new_child (EXEC_ORDER_ID st) (current c) nm).
    set (h2 := <[current c := set_child nm q sec]> (<[q := snew]> (heap st))).
    assert (h2 !! q = Some snew) as Hq2 by (by apply add_child_lookup_new).
    assert (extends h2 (<[q := set_timer (now st) snew]> h2)) as Hext
      by (by eapply extends_update).
    assert (c ∈ contexts st) as Hcin by (apply list_elem_of_lookup; eauto).
    destruct (Hinv c Hcin) as [Hwf [l0 Hl0]].
    split; [split|]; simpl; fold q snew h2.
    + by rewrite (fmap_insert_current thread_context _ _ _ _ Hc).
    + by rewrite (fmap_insert_current toplevel _ _ _ _ Hc).
    + unfold no_orphans. simpl. apply (no_orphans_step st); [done| | |].
      * intros c0 Hc0.
        destruct (elem_of_insert_current _ _ _ q _ Hc Hc0) as (c' & ? & ? & _).
        eauto.
      * intros r l a (c0 & Hc0 & <-) Hw. apply (extends_walk _ _ _ _ _ Hext).
        apply add_child_walk_old; [done..|apply (Hinv c0 Hc0)|done].
      * intros a Ha. apply lookup_insert_is_Some in Ha as [<-|[Hne Ha]].
        -- right. exists (set_current q c). split.
           ++ apply list_elem_of_lookup. exists i. apply list_lookup_insert_eq.
              by eapply lookup_lt_Some.
           ++ exists (l0 ++ [nm]). apply (extends_walk _ _ _ _ _ Hext).
              by apply add_child_walk_new.
        -- left. unfold h2 in Ha.
           apply lookup_insert_is_Some in Ha as [<-|[_ Ha]]; [by eauto|].
           apply lookup_insert_is_Some in Ha as [?|[_ Ha]]; [done|done].
  - (* leave *)
    assert (extends (heap st)
              (<[current c := record_time (d_sub (end_time st) (timer sec)) sec]>
                 (heap st))) as Hext by (by eapply extends_update).
    split; [split|]; simpl.
    + by rewrite (fmap_insert_current thread_context _ _ _ _ Hc).
    + by rewrite (fmap_insert_current toplevel _ _ _ _ Hc).
    + unfold no_orphans. simpl. apply (no_orphans_step st); [done| | |].
      * intros c0 Hc0.
        destruct (elem_of_insert_current _ _ _ p _ Hc Hc0) as (c' & ? & ? & _).
        eauto.
      * intros r l a _. by apply extends_walk.
      * intros a Ha. left. apply lookup_insert_is_Some in Ha as [<-|[_ Ha]]; eauto.
  - (* stamp *) done.
  - (* clear *)
    split; [split; simpl; apply NoDup_nil_2|].
    intros a [sa Ha]. rewrite (Clear_heap_empty st) in Ha by done.
    by rewrite lookup_empty in Ha.
Qed.

Lemma reachable_own_inv st : reachable st → own_inv st.
Proof.
  apply reachable_by_msteps.
  - intros clk e0. split; [split; simpl; apply NoDup_nil_2|].
    intros a [sa Ha]. simpl in Ha. by rewrite lookup_empty in Ha.
  - intros lb st0 st' Hinv Hown Hs. by eapply mstep_own_inv.
Qed.

Lemma sub_wf_walk h r l p : sub_wf h r → walk h r l = Some p → sub_wf h p.
Proof.
  revert r. induction l as [|k l IH]; intros r Hsub; simpl.
  - by intros [= <-].
  - destruct (h !! r) as [sr|] eqn:Hr; simpl; [|done].
    destruct (children sr !! k) as [q|] eqn:Hk; simpl; [|done].
    apply IH. by eapply sub_wf_child.
Qed.

(** The registry holds one context per thread, and no two contexts share
    a root. *)
Theorem registry_one_context_per_thread st :
  reachable st →
  NoDup (thread_context <$> contexts st) ∧ NoDup (toplevel <$> contexts st).
Proof. intros Hr. apply (reachable_own_inv st Hr). Qed.

(** Every live section belongs to the tree of exactly one registered
    context: nothing is orphaned and nothing is shared. *)
Theorem every_section_has_one_owner st a :
  reachable st → is_Some (heap st !! a) →
  ∃ i c, contexts st !! i = Some c ∧ desc (heap st) (toplevel c) a ∧
         ∀ j c', contexts st !! j = Some c' → desc (heap st) (toplevel c') a →
                 j = i.
Proof.
  intros Hr Ha. pose proof (reachable_inv _ Hr) as Hinv.
  destruct (reachable_own_inv _ Hr) as [[_ Hroots] Horph].
  destruct (Horph a Ha) as (c & [i Hi]%list_elem_of_lookup & Hd).
  exists i, c. split_and!; [done..|].
  intros j c' Hj Hd'.
  assert (c' ∈ contexts st) as Hc' by (apply list_elem_of_lookup; eauto).
  assert (c ∈ contexts st) as Hc by (apply list_elem_of_lookup; eauto).
  assert (toplevel c' = toplevel c) as E.
  { eapply trees_apart; [apply (Hinv c' Hc')|apply (Hinv c Hc)|done..]. }
  eapply (NoDup_lookup _ _ _ _ Hroots); rewrite list_lookup_fmap.
  - by rewrite Hj.
  - rewrite Hi. simpl. by rewrite E.
Qed.

(** The destructor of a section frees that section and everything below
    it, and leaves every other section as it is. *)
Theorem delete_section_frees_subtree st c l p :
  reachable st → c ∈ contexts st → walk (heap st) (toplevel c) l = Some p →
  (∀ a, desc (heap st) p a →
        delete_section (S (size (heap st))) p (heap st) !! a = None) ∧
  (∀ a, ¬ desc (heap st) p a →
        delete_section (S (size (heap st))) p (heap st) !! a = heap st !! a).
Proof.
  intros Hr Hc Hw. pose proof (reachable_inv _ Hr c Hc) as [Hwf _].
  apply delete_section_spec.
  - eapply sub_wf_walk; [by apply wf_sub_wf|done].
  - intros l' a Hw'.
    assert (walk (heap st) (toplevel c) (l ++ l') = Some a) as Hw2.
    { rewrite walk_app, Hw. done. }
    pose proof (walk_length_lt _ _ _ _ Hwf Hw2) as Hlen.
    rewrite length_app in Hlen. lia.
Qed.

(** [Clear] empties the registry and frees every section; the counter of
    execution ids is not reset. *)
Theorem Clear_frees_every_section st :
  reachable st →
  contexts (Clear st) = [] ∧ heap (Clear st) = ∅ ∧
  EXEC_ORDER_ID (Clear st) = EXEC_ORDER_ID st.
Proof.
  intros Hr. split_and!; [done| |done].
  apply Clear_heap_empty; [by apply reachable_inv|by apply reachable_own_inv].
Qed.

(** ** Threads do not touch each other's trees *)

(** Thread [tid] sees no change from [st] to [st']: its context is the
    same and every section of its tree holds what it held. *)
Definition untouched (tid : nat) st st' : Prop :=
  context_of tid st' = context_of tid st ∧
  ∀ c, context_of tid st = Some c →
    ∀ l a, walk (heap st) (toplevel c) l = Some a → heap st' !! a = heap st !! a.

Lemma untouched_refl tid st : untouched tid st st.
Proof. by split. Qed.

Lemma untouched_trans tid st1 st2 st3 :
  untouched tid st1 st2 → untouched tid st2 st3 → untouched tid st1 st3.
Proof.
  intros [E1 F1] [E2 F2]. split; [congruence|].
  intros c Hc l a Hw. rewrite <- (F1 c Hc l a Hw).
  apply (F2 c ltac:(congruence) l).
  rewrite (walk_agree (heap st1) (heap st2) (toplevel c)); [done|].
  intros l' a'. by apply F1.
Qed.

Definition op_thread (op : Op) : option nat :=
  match op with
  | OpPush t _ | OpPop t => Some t
  | OpClear | OpDisplay _ => None
  end.

Lemma context_of_insert_other tid t st i ct q :
  t ≠ tid →
  find_context t (contexts st) = Some i → contexts st !! i = Some ct →
  (i' ← find_context tid (<[i := set_current q ct]> (contexts st));
   <[i := set_current q ct]> (contexts st) !! i') = context_of tid st.
Proof.
  intros Hne Hf Hc. unfold context_of.
  rewrite (find_context_insert _ _ _ ct) by done.
  destruct (find_context tid (contexts st)) as [j|] eqn:Hj; simpl; [|done].
  rewrite list_lookup_insert_ne; [done|]. intros ->.
  destruct (find_context_Some _ _ _ Hf) as (c1 & Hc1 & E1).
  destruct (find_context_Some _ _ _ Hj) as (c2 & Hc2 & E2). congruence.
Qed.

(** A section of the tree of one thread is not in the tree of another. *)
Lemma other_tree_ne st t tid i ct c x a :
  tree_inv st → registry_inv st → t ≠ tid →
  find_context t (contexts st) = Some i → contexts st !! i = Some ct →
  context_of tid st = Some c →
  desc (heap st) (toplevel ct) x → desc (heap st) (toplevel c) a → x ≠ a.
Proof.
  intros Hinv [_ Hroots] Hne Hf Hct (j & Hj & Hc)%context_of_Some Hx Ha ->.
  assert (ct ∈ contexts st) as Hin1 by (apply list_elem_of_lookup; eauto).
  assert (c ∈ contexts st) as Hin2 by (apply list_elem_of_lookup; eauto).
  assert (toplevel ct = toplevel c) as E.
  { eapply trees_apart; [apply (Hinv ct Hin1)|apply (Hinv c Hin2)|done..]. }
  assert (i = j) as ->.
  { eapply (NoDup_lookup _ _ _ _ Hroots); rewrite list_lookup_fmap.
    - by rewrite Hct.
    - rewrite Hc. simpl. by rewrite E. }
  destruct (find_context_Some _ _ _ Hf) as (c1 & Hc1 & E1).
  destruct (find_context_Some _ _ _ Hj) as (c2 & Hc2 & E2). congruence.
Qed.

Lemma mstep_untouched tid lb st st' :
  tree_inv st → own_inv st → mstep lb st st' →
  lb ≠ LClear → lb ≠ LThread tid → untouched tid st st'.
Proof.
  intros Hinv [Hreg Horph] Hs Hcl Hth.
  destruct Hs as [t st Hf|t nm st i c sec q sq Hf Hc Hcur Hk Hq
    |t nm st i c sec Hf Hc Hcur Hk|t st i c sec p Hf Hc Hcur Hpar|st|st];
    try done;
    try (assert (t ≠ tid) as Hne by congruence);
    try (assert (c ∈ contexts st) as Hcin by (apply list_elem_of_lookup; eauto);
         destruct (Hinv c Hcin) as [Hwf [l0 Hl0]]).
  - (* register *)
    split.
    + unfold context_of. simpl.
      destruct (find_context tid (contexts st)) as [j|] eqn:Hj.
      * rewrite (find_context_app_Some _ _ _ _ Hj). simpl.
        destruct (find_context_Some _ _ _ Hj) as (c2 & Hc2 & _).
        by rewrite (lookup_app_l_Some _ _ _ _ Hc2).
      * rewrite (find_context_app_None _ _ _ Hj). simpl.
        by rewrite decide_False.
    + intros c (j & Hj & Hc)%context_of_Some l a Hw. simpl.
      assert (c ∈ contexts st) as Hcin by (apply list_elem_of_lookup; eauto).
      destruct (wf_live _ _ _ _ (proj1 (Hinv c Hcin)) Hw) as [sa Ha].
      apply lookup_insert_ne. intros E. rewrite <- E, fresh_heap in Ha. done.
  - (* enter *)
    split; [by eapply context_of_insert_other|].
    intros c2 Hc2 l a Hw. simpl. apply lookup_insert_ne.
    eapply (other_tree_ne st t tid); [done..| |by exists l].
    exists (l0 ++ [nm]). apply walk_snoc. eauto.
  - (* create *)
    split; [by eapply context_of_insert_other|].
    intros c2 Hc2 l a Hw. simpl.
    assert (is_Some (heap st !! a)) as [sa Ha].
    { apply context_of_Some in Hc2 as (j & _ & Hj).
      eapply wf_live; [|done]. apply (Hinv c2). apply list_elem_of_lookup. eauto. }
    assert (fresh (dom (heap st)) ≠ a) as Hfr.
    { intros E. rewrite <- E, fresh_heap in Ha. done. }
    rewrite lookup_insert_ne by done.
    rewrite lookup_insert_ne; [by rewrite lookup_insert_ne|].
    eapply (other_tree_ne st t tid); [done..|by exists l0|by exists l].
  - (* leave *)
    split; [by eapply context_of_insert_other|].
    intros c2 Hc2 l a Hw. simpl. apply lookup_insert_ne.
    eapply (other_tree_ne st t tid); [done..|by exists l0|by exists l].
Qed.

Lemma step_untouched tid op st st' :
  reachable st → op ≠ OpClear → op_thread op ≠ Some tid →
  step op st = Some st' → untouched tid st st'.
Proof.
  intros Hr Hcl Hth Hstep.
  pose proof (reachable_inv _ Hr) as Hinv.
  pose proof (reachable_own_inv _ Hr) as Hown.
  destruct (step_msteps _ _ _ Hinv Hstep) as (n & _ & Hms).
  clear Hstep Hr. induction Hms as [|n lb st st1 st2 Hlb Hs _ IH].
  - apply untouched_refl.
  - eapply untouched_trans.
    + eapply mstep_untouched; [done..| |].
      * intros ->. destruct op; simpl in Hlb; try done. by destruct Hlb.
      * intros ->. destruct op; simpl in *; try done.
        -- injection Hlb as ->. done.
        -- destruct Hlb as [?|[= ->]]; done.
    + apply IH; [by eapply mstep_tree_inv|by eapply mstep_own_inv].
Qed.

(** Pushes and pops of other threads (and displays) leave a thread's
    context, its current pointer included, and every section of its tree
    exactly as they were. *)
Theorem other_threads_leave_tree_untouched tid ops st st' :
  reachable st →
  Forall (λ op, op ≠ OpClear ∧ op_thread op ≠ Some tid) ops →
  run ops st = Some st' →
  context_of tid st' = context_of tid st ∧
  ∀ c, context_of tid st = Some c →
    ∀ l a, walk (heap st) (toplevel c) l = Some a →
      heap st' !! a = heap st !! a ∧ walk (heap st') (toplevel c) l = Some a.
Proof.
  intros Hr Hops Hrun.
  assert (untouched tid st st') as [E F].
  { revert st Hr Hrun. induction ops as [|op ops IH]; intros st Hr; simpl.
    - intros [= <-]. apply untouched_refl.
    - apply Forall_cons in Hops as [[Hcl Hth] Hops].
      destruct (step op st) as [st1|] eqn:Hstep; simpl; [|done].
      intros Hrun. eapply untouched_trans.
      + by eapply step_untouched.
      + apply IH; [done| |done]. by eapply reachable_step. }
  split; [done|]. intros c Hc l a Hw. split; [by eapply F|].
  rewrite (walk_agree (heap st) (heap st') (toplevel c)); [done|].
  intros l' a'. by apply F.
Qed.

(** ** Execution order ids *)











(** ** Blocks: a push, what goes on inside, and the matching pop *)

(** A pop is not one step: it stores its stop sample in the static
    [end_time] (line 115), gets the context under the lock, and reads
    [end_time] back when it records (line 130), and another thread may
    run in between. The steps of a run are therefore the whole
    operations, the sample of a pop, and the rest of a pop. *)
Inductive Act :=
  | AOp (op : Op)
  | ASample
  | ARecord (tid : nat).

Definition act (a : Act) st : option (State T) :=
  match a with
  | AOp op => step op st
  | ASample => Some (end_time_SetNow st)
  | ARecord tid => SectionPop_body tid st
  end.

Fixpoint acts (xs : list Act) st : option (State T) :=
  match xs with
  | [] => Some st
  | x :: xs' => st' ← act x st; acts xs' st'
  end.

(** A step that is not of thread [tid] (a sample belongs to no thread in
    particular), and not a clear. *)
Definition foreign (tid : nat) (a : Act) : Prop :=
  match a with
  | AOp op => op ≠ OpClear ∧ op_thread op ≠ Some tid
  | ASample => True
  | ARecord t => t ≠ tid
  end.

(** The steps that write [end_time]. *)
Definition samples (a : Act) : bool :=
  match a with
  | AOp (OpPop _) | ASample => true
  | AOp _ | ARecord _ => false
  end.

(** What a thread does between a push and its matching pop when its own
    pushes and pops are properly nested (as with the scope guard
    [FFunctionProfiler], whose constructor pushes and whose destructor
    pops), with the steps of other threads anywhere in between, also
    between the two halves of a pop. *)
Inductive nested (tid : nat) : list Act → Prop :=
  | nested_nil : nested tid []
  | nested_other (x : Act) (xs : list Act) :
      foreign tid x → nested tid xs → nested tid (x :: xs)
  | nested_block nm (body gap rest : list Act) :
      nested tid body → Forall (foreign tid) gap → nested tid rest →
      nested tid (AOp (OpPush tid nm) :: body ++
                  ASample :: gap ++ ARecord tid :: rest).

(** What the timing of a section depends on. *)
Definition frame sec : Z * T * T * option nat :=
  (call_count sec, avg_time sec, timer sec, parent sec).

(** [open_at h a b]: [b] is [a] or one of the sections above it. With
    [a] the current section of a thread these are the sections the thread
    has entered and not left. *)
Inductive open_at h : nat → nat → Prop :=
  | open_self a : open_at h a a
  | open_parent a sa p b :
      h !! a = Some sa → parent sa = Some p → open_at h p b → open_at h a b.

Lemma open_at_path h r l x a :
  wf_tree h r → walk h r l = Some x → open_at h x a →
  ∃ l', walk h r l' = Some a ∧ (length l' ≤ length l)%nat.
Proof.
  intros Hwf Hw Ho. revert l Hw.
  induction Ho as [a|a sa p b Ha Hpar _ IH]; intros l Hw.
  - eauto.
  - destruct l as [|k l _] using rev_ind.
    + simpl in Hw. injection Hw as <-.
      destruct (wf_root _ _ Hwf) as (sr & Hr & Hnone). congruence.
    + destruct (wf_parent _ _ _ _ _ _ Hwf Hw Ha) as (p0 & Hp0 & Hpar0 & _).
      assert (p0 = p) as -> by congruence.
      destruct (IH _ Hp0) as (l' & Hl' & Hlen). exists l'. split; [done|].
      rewrite length_app. simpl. lia.
Qed.

Lemma open_at_kept h h' x a :
  (∀ b sb, open_at h x b → h !! b = Some sb →
     ∃ sb', h' !! b = Some sb' ∧ frame sb' = frame sb) →
  open_at h x a → open_at h' x a.
Proof.
  intros Hk Ho. induction Ho as [a|a sa p b Ha Hpar Ho IH].
  - constructor.
  - destruct (Hk a sa (open_self _ _) Ha) as (sa' & Ha' & [= _ _ _ E]).
    apply (open_parent h' a sa' p b Ha'); [congruence|]. apply IH.
    intros c sc Hc. apply Hk. by eapply open_parent.
Qed.

(** Thread [tid] is where it was, and the sections it has open hold the
    statistics and the start sample they held. *)
Definition kept_open (tid : nat) st st' : Prop :=
  ∀ c, context_of tid st = Some c →
    context_of tid st' = Some c ∧
    ∀ a sa, open_at (heap st) (current c) a → heap st !! a = Some sa →
      ∃ sa', heap st' !! a = Some sa' ∧ frame sa' = frame sa.

Lemma kept_open_trans tid st1 st2 st3 :
  kept_open tid st1 st2 → kept_open tid st2 st3 → kept_open tid st1 st3.
Proof.
  intros H12 H23 c Hc. destruct (H12 c Hc) as [Hc2 F12].
  destruct (H23 c Hc2) as [Hc3 F23]. split; [done|].
  intros a sa Ho Ha. destruct (F12 a sa Ho Ha) as (sa2 & Ha2 & E2).
  destruct (F23 a sa2) as (sa3 & Ha3 & E3); [|done|].
  - by apply (open_at_kept (heap st1)).
  - exists sa3. split; [done|congruence].
Qed.

Lemma untouched_kept_open tid st st' :
  tree_inv st → untouched tid st st' → kept_open tid st st'.
Proof.
  intros Hinv [Hctx Hheap] c Hc. split; [congruence|].
  intros a sa Ho Ha.
  destruct (proj1 (context_of_Some _ _ _) Hc) as (i & _ & Hi).
  destruct (Hinv c) as [Hwf [l Hl]]; [apply list_elem_of_lookup; eauto|].
  destruct (open_at_path _ _ _ _ _ Hwf Hl Ho) as (l' & Hl' & _).
  exists sa. split; [|done]. rewrite <- Ha. by apply (Hheap c Hc l').
Qed.

Lemma context_of_insert_own tid st i c q :
  find_context tid (contexts st) = Some i → contexts st !! i = Some c →
  (i' ← find_context tid (<[i := set_current q c]> (contexts st));
   <[i := set_current q c]> (contexts st) !! i') = Some (set_current q c).
Proof.
  intros Hf Hc. rewrite (find_context_insert _ _ _ c) by done.
  rewrite Hf. simpl. apply list_lookup_insert_eq. by eapply lookup_lt_Some.
Qed.

(** A push of a thread that has a context: it moves to the child, whose
    timer takes the sample; no other section's statistics or timer
    change, and the child is not among the sections that were open. *)
Lemma push_registered tid nm st c :
  tree_inv st → context_of tid st = Some c →
  ∃ st1 q s1,
    SectionPush tid nm st = Some st1 ∧
    context_of tid st1 = Some (set_current q c) ∧
    heap st1 !! q = Some s1 ∧ parent s1 = Some (current c) ∧ name s1 = nm ∧
    timer s1 = now st ∧
    (match heap st !! q with
     | Some s0 => call_count s1 = call_count s0 ∧ avg_time s1 = avg_time s0
     | None => call_count s1 = 0 ∧ avg_time s1 = d_zero
     end) ∧
    ¬ open_at (heap st) (current c) q ∧
    (∀ a sa, heap st !! a = Some sa → a ≠ q →
       ∃ sa', heap st1 !! a = Some sa' ∧ frame sa' = frame sa).
Proof.
  intros Hinv Hctx.
  destruct (proj1 (context_of_Some _ _ _) Hctx) as (i & Hf & Hc).
  destruct (Hinv c) as [Hwf [l Hl]]; [apply list_elem_of_lookup; eauto|].
  destruct (wf_live _ _ _ _ Hwf Hl) as [sec Hcur].
  destruct (children sec !! nm) as [q|] eqn:Hk.
  - destruct (wf_child _ _ Hwf _ _ _ _ _ Hl Hcur Hk) as (sq & Hq & Hpar & Hn).
    eexists _, q, (set_timer (now st) sq). split_and!.
    + by eapply SectionPush_found.
    + unfold context_of. simpl. by apply context_of_insert_own.
    + simpl. apply lookup_insert_eq.
    + done.
    + done.
    + done.
    + by rewrite Hq.
    + intros Ho. destruct (open_at_path _ _ _ _ _ Hwf Hl Ho) as (l' & Hl' & Hlen).
      assert (walk (heap st) (toplevel c) (l ++ [nm]) = Some q) as Hw.
      { apply walk_snoc. eauto. }
      pose proof (wf_unique_path _ _ _ _ _ Hwf Hl' Hw) as ->.
      rewrite length_app in Hlen. simpl in Hlen. lia.
    + intros a sa Ha Hne. exists sa. split; [|done]. simpl.
      by rewrite lookup_insert_ne.
  - pose proof (fresh_heap (heap st)) as Hfr.
    eexists _, (fresh (dom (heap st))), _. split_and!.
    + by eapply SectionPush_create.
    + unfold context_of. simpl. by apply context_of_insert_own.
    + simpl. apply lookup_insert_eq.
    + done.
    + done.
    + done.
    + by rewrite Hfr.
    + intros Ho. destruct (open_at_path _ _ _ _ _ Hwf Hl Ho) as (l' & Hl' & _).
      destruct (wf_live _ _ _ _ Hwf Hl') as [? ?]. congruence.
    + intros a sa Ha Hne. simpl. rewrite lookup_insert_ne by done.
      rewrite lookup_insert. case_decide as E.
      * subst a. eexists. split; [done|]. unfold frame. simpl.
        assert (sa = sec) as -> by congruence. done.
      * rewrite lookup_insert_ne by done. eauto.
Qed.

(** The record of a pop of a thread whose current section has a parent. *)
Lemma record_registered tid st c sec p :
  context_of tid st = Some c → heap st !! current c = Some sec →
  parent sec = Some p →
  ∃ st', SectionPop_body tid st = Some st' ∧
    context_of tid st' = Some (set_current p c) ∧
    heap st' =
      <[current c := record_time (d_sub (end_time st) (timer sec)) sec]> (heap st).
Proof.
  intros (i & Hf & Hc)%context_of_Some Hcur Hpar.
  eexists. split; [by rewrite (SectionPop_body_found _ _ _ _ _ Hf Hc Hcur), Hpar|].
  split; [|done]. unfold context_of. simpl. by apply context_of_insert_own.
Qed.

(** Every step returns, and is made of pieces. *)
Definition act_labels (a : Act) (lb : mlabel) : Prop :=
  match a with
  | AOp op => op_labels op lb
  | ASample => lb = LStamp
  | ARecord t => lb = LThread t
  end.

Lemma act_msteps (a : Act) st :
  tree_inv st → ∃ st' n, act a st = Some st' ∧ msteps (act_labels a) n st st'.
Proof.
  intros Hinv. destruct a as [op| |t]; simpl.
  - destruct (step_inv op st Hinv) as (st' & Hstep & _).
    destruct (step_msteps _ _ _ Hinv Hstep) as (n & _ & Hms). eauto.
  - eexists _, 1%nat. split; [done|]. apply (msteps_one _ LStamp); [done|apply ms_stamp].
  - destruct (find_context t (contexts st)) as [i|] eqn:Hf.
    + destruct (find_context_Some _ _ _ Hf) as (c & Hc & _).
      assert (c ∈ contexts st) as Hcin by (apply list_elem_of_lookup; eauto).
      destruct (Hinv c Hcin) as [Hwf [l Hl]].
      destruct (wf_live _ _ _ _ Hwf Hl) as [sec Hcur].
      rewrite (SectionPop_body_found _ _ _ _ _ Hf Hc Hcur).
      destruct (parent sec) as [p|] eqn:Hpar.
      * eexists _, 1%nat. split; [done|].
        apply (msteps_one _ (LThread t)); [done|]. by eapply ms_leave.
      * eexists _, 0%nat. split; [done|]. apply msteps_refl.
    + rewrite (SectionPop_body_register _ _ Hf).
      eexists _, 1%nat. split; [done|].
      apply (msteps_one _ (LThread t)); [done|]. by apply ms_register.
Qed.

Lemma msteps_own_inv P n st st' :
  tree_inv st → own_inv st → msteps P n st st' → own_inv st'.
Proof.
  intros Hinv Hown Hs. revert Hinv Hown.
  induction Hs as [|n lb st st1 st2 _ Hs _ IH]; intros Hinv Hown; [done|].
  apply IH; [by eapply mstep_tree_inv|by eapply mstep_own_inv].
Qed.

Lemma msteps_untouched tid (P : mlabel → Prop) n st st' :
  (∀ lb, P lb → lb ≠ LClear ∧ lb ≠ LThread tid) →
  tree_inv st → own_inv st → msteps P n st st' → untouched tid st st'.
Proof.
  intros HP Hinv Hown Hs. revert Hinv Hown.
  induction Hs as [|n lb st st1 st2 Hlb Hs _ IH]; intros Hinv Hown.
  - apply untouched_refl.
  - destruct (HP lb Hlb) as [Hcl Hth]. eapply untouched_trans.
    + by eapply mstep_untouched.
    + apply IH; [by eapply mstep_tree_inv|by eapply mstep_own_inv].
Qed.

Lemma foreign_labels tid (a : Act) lb :
  foreign tid a → act_labels a lb → lb ≠ LClear ∧ lb ≠ LThread tid.
Proof.
  destruct a as [op| |t]; simpl.
  - intros [Hcl Hth] Hlb. destruct op as [t nm|t| |sort]; simpl in *.
    + subst lb. split; [done|]. intros [= ->]. done.
    + destruct Hlb as [->| ->]; split; try done. intros [= ->]. done.
    + done.
    + done.
  - intros _ ->. done.
  - intros Hne ->. split; [done|]. intros [= ->]. done.
Qed.

(** A step leaves [end_time] alone unless it is one that samples. *)
Lemma act_end_time (a : Act) st st' :
  tree_inv st → act a st = Some st' → samples a = false →
  end_time st' = end_time st.
Proof.
  intros Hinv Hact Hs. destruct a as [op| |t]; simpl in *; [|done|].
  - destruct op as [t nm|t| |sort]; simpl in *; [|done| |].
    + destruct (SectionPush_spec t nm st Hinv)
        as (i & st0 & c & q & sq & st1 & _ & _ & _ & Hpush & _ & _ & _ & _ & _ & _
            & _ & Hend & _).
      congruence.
    + by injection Hact as <-.
    + by injection Hact as <-.
  - destruct (find_context t (contexts st)) as [i|] eqn:Hf.
    + destruct (find_context_Some _ _ _ Hf) as (c & Hc & _).
      assert (c ∈ contexts st) as Hcin by (apply list_elem_of_lookup; eauto).
      destruct (Hinv c Hcin) as [Hwf [l Hl]].
      destruct (wf_live _ _ _ _ Hwf Hl) as [sec Hcur].
      rewrite (SectionPop_body_found _ _ _ _ _ Hf Hc Hcur) in Hact.
      injection Hact as <-. by destruct (parent sec).
    + rewrite (SectionPop_body_register _ _ Hf) in Hact. by injection Hact as <-.
Qed.

(** The steps of other threads: they return, and thread [tid] sees no
    change. *)
Lemma foreign_acts tid (l : list Act) st :
  tree_inv st → own_inv st → Forall (foreign tid) l →
  ∃ st', acts l st = Some st' ∧ tree_inv st' ∧ own_inv st' ∧
         untouched tid st st' ∧
         (Forall (λ x, samples x = false) l → end_time st' = end_time st).
Proof.
  intros Hinv Hown Hl. revert st Hinv Hown.
  induction Hl as [|a l Ha _ IH]; intros st Hinv Hown.
  - exists st. split_and!; [done..|apply untouched_refl|done].
  - destruct (act_msteps a st Hinv) as (st1 & n & Hact & Hms).
    pose proof (msteps_tree_inv _ _ _ _ Hinv Hms) as Hinv1.
    pose proof (msteps_own_inv _ _ _ _ Hinv Hown Hms) as Hown1.
    destruct (IH st1 Hinv1 Hown1) as (st' & Hrun & Hinv' & Hown' & Hun & Hend).
    exists st'. split_and!; [|done|done| |].
    + simpl. rewrite Hact. done.
    + eapply untouched_trans; [|done].
      eapply msteps_untouched; [|done|done|done].
      intros lb. by apply foreign_labels.
    + intros [Hs Hss]%Forall_cons. rewrite (Hend Hss).
      by eapply act_end_time.
Qed.

Lemma acts_app (l1 l2 : list Act) st :
  acts l1 st ≫= acts l2 = acts (l1 ++ l2) st.
Proof.
  revert st. induction l1 as [|a l1 IH]; intros st; simpl; [done|].
  destruct (act a st) as [st1|]; simpl; [apply IH|done].
Qed.

(** A nested run of a thread returns and brings the thread back to the
    section it was in, with the statistics and timers of the open
    sections as they were. *)
Lemma nested_kept_open tid (l : list Act) :
  nested tid l →
  ∀ st, tree_inv st → own_inv st →
    ∃ st', acts l st = Some st' ∧ tree_inv st' ∧ own_inv st' ∧
           kept_open tid st st'.
Proof.
  induction 1 as [|a l Ha _ IH|nm body gap rest _ IHb Hgap _ IHr];
    intros st Hinv Hown.
  - exists st. split_and!; [done..|]. intros c Hc. split; [done|]. eauto.
  - destruct (foreign_acts tid [a] st Hinv Hown ltac:(by constructor))
      as (st1 & Hact & Hinv1 & Hown1 & Hun & _).
    simpl in Hact. destruct (act a st) as [st1'|] eqn:Ha1; simpl in Hact; [|done].
    injection Hact as ->.
    destruct (IH st1 Hinv1 Hown1) as (st' & Hrun & Hinv' & Hown' & Hk).
    exists st'. split_and!; [|done|done|].
    + simpl. rewrite Ha1. done.
    + eapply kept_open_trans; [|done]. by apply untouched_kept_open.
  - destruct (act_msteps (AOp (OpPush tid nm)) st Hinv) as (st1 & n1 & Hact1 & Hms1).
    pose proof (msteps_tree_inv _ _ _ _ Hinv Hms1) as Hinv1.
    pose proof (msteps_own_inv _ _ _ _ Hinv Hown Hms1) as Hown1.
    destruct (IHb st1 Hinv1 Hown1) as (st2 & Hrun2 & Hinv2 & Hown2 & Hk2).
    assert (tree_inv (end_time_SetNow st2)) as Hinv2'
      by exact (mstep_tree_inv LStamp st2 _ Hinv2 (ms_stamp st2)).
    assert (own_inv (end_time_SetNow st2)) as Hown2'
      by exact (mstep_own_inv LStamp st2 _ Hinv2 Hown2 (ms_stamp st2)).
    destruct (foreign_acts tid gap _ Hinv2' Hown2' Hgap)
      as (st3 & Hrun3 & Hinv3 & Hown3 & Hun3 & _).
    destruct (act_msteps (ARecord tid) st3 Hinv3) as (st4 & n4 & Hact4 & Hms4).
    pose proof (msteps_tree_inv _ _ _ _ Hinv3 Hms4) as Hinv4.
    pose proof (msteps_own_inv _ _ _ _ Hinv3 Hown3 Hms4) as Hown4.
    destruct (IHr st4 Hinv4 Hown4) as (st' & Hrun' & Hinv' & Hown' & Hk').
    exists st'. split_and!; [|done|done|].
    { cbn [acts]. rewrite Hact1. cbn [mbind option_bind].
      rewrite <- acts_app, Hrun2. cbn [mbind option_bind acts act].
      rewrite <- acts_app, Hrun3. cbn [mbind option_bind acts].
      rewrite Hact4. done. }
    eapply kept_open_trans; [|done].
    intros c Hc.
    destruct (push_registered tid nm st c Hinv Hc)
      as (st1' & q & s1 & Hpush & Hc1 & Hq1 & Hpar1 & _ & _ & _ & Hnot & Hfr).
    simpl in Hact1. assert (st1' = st1) as -> by congruence.
    assert (kept_open tid st1 st3) as Hk3.
    { eapply kept_open_trans; [done|].
      apply (kept_open_trans _ _ (end_time_SetNow st2)).
      - intros c' Hc'. split; [done|]. eauto.
      - by apply untouched_kept_open. }
    destruct (Hk3 _ Hc1) as [Hc3 F3].
    destruct (F3 q s1 (open_self _ _) Hq1) as (s3 & Hq3 & [= _ _ _ E3]).
    destruct (record_registered tid st3 _ s3 (current c) Hc3 Hq3 ltac:(congruence))
      as (st4' & Hpop & Hc4 & Hh4).
    simpl in Hact4. assert (st4' = st4) as -> by congruence.
    rewrite set_current_back in Hc4. split; [done|].
    intros a sa Ho Ha.
    assert (a ≠ q) as Hne by (by intros ->).
    destruct (Hfr a sa Ha Hne) as (sa1 & Ha1 & E1).
    destruct (F3 a sa1) as (sa3 & Ha3 & E3'); [|done|].
    { apply (open_parent _ q s1 (current c) a Hq1 Hpar1).
      apply (open_at_kept (heap st)); [|done].
      intros b sb Hb Hsb. apply Hfr; [done|]. by intros ->. }
    exists sa3. split; [|congruence].
    rewrite Hh4. simpl. by rewrite lookup_insert_ne.
Qed.

(** A block [push(nm); body; pop()] with a nested body, in any reachable
    state (the thread need not have pushed before), with the steps [gap]
    of other threads between the stop sample of the pop and its record:
    every step returns; the pop takes the thread back to the context it
    entered with; the section of the block records exactly one more
    call; and the sections open around the block keep their statistics
    and their start samples. The time recorded is what [end_time] holds
    when the record reads it, less the sample of the push: the stop
    sample of this pop when no step in the gap samples, as when one
    thread runs alone. *)
Theorem block_records_one_call tid nm (body gap : list Act) st :
  reachable st → nested tid body → Forall (foreign tid) gap →
  ∃ st1 st2 st3 st4 c q s1 s4,
    SectionPush tid nm st = Some st1 ∧ acts body st1 = Some st2 ∧
    acts gap (end_time_SetNow st2) = Some st3 ∧
    SectionPop_body tid st3 = Some st4 ∧
    entry_context tid st = Some c ∧
    context_of tid st1 = Some (set_current q c) ∧
    heap st1 !! q = Some s1 ∧ parent s1 = Some (current c) ∧ name s1 = nm ∧
    (match heap st !! q with
     | Some s0 => call_count s1 = call_count s0 ∧ avg_time s1 = avg_time s0
     | None => call_count s1 = 0 ∧ avg_time s1 = d_zero
     end) ∧
    context_of tid st4 = Some c ∧
    heap st4 !! q = Some s4 ∧
    call_count s4 = wrap_int (call_count s1 + 1) ∧
    avg_time s4 =
      d_div (d_add (d_sub (end_time st3) (now st))
                   (d_mul (avg_time s1) (d_of_int (call_count s1))))
            (d_of_int (wrap_int (call_count s1 + 1))) ∧
    (Forall (λ x, samples x = false) gap → end_time st3 = now st2) ∧
    ∀ a sa, a ≠ q → open_at (heap st1) q a → heap st1 !! a = Some sa →
      ∃ sa', heap st4 !! a = Some sa' ∧ frame sa' = frame sa.
Proof.
  intros Hr Hnest Hgap.
  assert (∃ st0 c, tree_inv st0 ∧ context_of tid st0 = Some c ∧
            entry_context tid st = Some c ∧ now st0 = now st ∧
            SectionPush tid nm st = SectionPush tid nm st0 ∧
            (∀ a, is_Some (heap st !! a) → heap st0 !! a = heap st !! a) ∧
            (∀ a, heap st !! a = None → heap st0 !! a = None ∨ a = current c))
    as (st0 & c & Hinv0 & Hc0 & Hentry & Hnow & Hpush0 & Hold & Hnew).
  { destruct (context_of tid st) as [c|] eqn:Hc.
    - exists st, c. split_and!; [by apply reachable_inv|done| |done|done|done|eauto].
      by apply entry_context_of.
    - apply context_of_None in Hc.
      destruct (register_find tid st Hc) as (Hf' & Hc' & _).
      exists (register tid st), (mkContext tid (fresh (dom (heap st)))
                                           (fresh (dom (heap st)))).
      split_and!.
      + eapply mstep_tree_inv; [by apply reachable_inv|by apply ms_register].
      + apply context_of_Some. eauto.
      + unfold entry_context. by rewrite (GetContext_new _ _ Hc).
      + done.
      + by apply SectionPush_register.
      + intros a [sa Ha]. simpl. apply lookup_insert_ne. intros E.
        rewrite <- E, fresh_heap in Ha. done.
      + intros a Ha. simpl. destruct (decide (fresh (dom (heap st)) = a)); [by right|].
        left. by rewrite lookup_insert_ne. }
  destruct (push_registered tid nm st0 c Hinv0 Hc0)
    as (st1 & q & s1 & Hpush & Hc1 & Hq1 & Hpar1 & Hn1 & Ht1 & Hstats & Hnot & Hfr).
  rewrite <- Hpush0 in Hpush.
  assert (reachable st1) as Hr1 by (by eapply (reachable_step (OpPush tid nm))).
  destruct (nested_kept_open tid body Hnest st1 (reachable_inv _ Hr1)
              (reachable_own_inv _ Hr1)) as (st2 & Hrun & Hinv2 & Hown2 & Hk).
  assert (tree_inv (end_time_SetNow st2)) as Hinv2'
    by exact (mstep_tree_inv LStamp st2 _ Hinv2 (ms_stamp st2)).
  assert (own_inv (end_time_SetNow st2)) as Hown2'
    by exact (mstep_own_inv LStamp st2 _ Hinv2 Hown2 (ms_stamp st2)).
  destruct (foreign_acts tid gap _ Hinv2' Hown2' Hgap)
    as (st3 & Hrun3 & Hinv3 & Hown3 & Hun3 & Hend3).
  assert (kept_open tid st1 st3) as Hk3.
  { eapply kept_open_trans; [done|].
    apply (kept_open_trans _ _ (end_time_SetNow st2)).
    - intros c' Hc'. split; [done|]. eauto.
    - by apply untouched_kept_open. }
  destruct (Hk3 _ Hc1) as [Hc3 F3].
  destruct (F3 q s1 (open_self _ _) Hq1) as (s3 & Hq3 & [= Ecc Eavg Etm Epar]).
  destruct (record_registered tid st3 _ s3 (current c) Hc3 Hq3 ltac:(congruence))
    as (st4 & Hpop & Hc4 & Hh4).
  rewrite set_current_back in Hc4.
  exists st1, st2, st3, st4, c, q, s1,
    (record_time (d_sub (end_time st3) (timer s3)) s3).
  split_and!; try done.
  - destruct (heap st !! q) as [s0|] eqn:Hq0.
    + by rewrite (Hold q ltac:(eauto)), Hq0 in Hstats.
    + destruct (Hnew q Hq0) as [E|E]; [by rewrite E in Hstats|].
      destruct Hnot. rewrite E. constructor.
  - rewrite Hh4. apply lookup_insert_eq.
  - simpl. by rewrite Ecc.
  - simpl. by rewrite Ecc, Eavg, Etm, Ht1, Hnow.
  - intros a sa Hne Ho Ha. destruct (F3 a sa Ho Ha) as (sa3 & Ha3 & E3).
    exists sa3. split; [|done]. rewrite Hh4. simpl. by rewrite lookup_insert_ne.
Qed.

(** ** Roots *)

(** The root of a context is as its constructor left it, but for its
    children. *)
Definition roots_blank st : Prop :=
  ∀ c, c ∈ contexts st →
    ∃ sr, heap st !! toplevel c = Some sr ∧ call_count sr = 0 ∧
          avg_time sr = d_zero ∧ name sr = "" ∧ parent sr = None.

Lemma roots_blank_insert st i c q cs' h' :
  roots_blank st → contexts st !! i = Some c →
  cs' = <[i := set_current q c]> (contexts st) →
  (∀ r sr, heap st !! r = Some sr → parent sr = None →
     ∃ sr', h' !! r = Some sr' ∧ call_count sr' = call_count sr ∧
            avg_time sr' = avg_time sr ∧ name sr' = name sr ∧
            parent sr' = None) →
  ∀ c', c' ∈ cs' →
    ∃ sr, h' !! toplevel c' = Some sr ∧ call_count sr = 0 ∧
          avg_time sr = d_zero ∧ name sr = "" ∧ parent sr = None.
Proof.
  intros HJ Hc -> Hh c' Hc'.
  assert (∃ c0, c0 ∈ contexts st ∧ toplevel c' = toplevel c0) as (c0 & Hc0 & ->).
  { apply elem_of_insert_inv in Hc' as [->|Hc']; [|eauto].
    exists c. split; [|done]. apply list_elem_of_lookup. eauto. }
  destruct (HJ c0 Hc0) as (sr & Hr & H1 & H2 & H3 & H4).
  destruct (Hh _ _ Hr H4) as (sr' & Hr' & E1 & E2 & E3 & E4).
  exists sr'. split_and!; congruence.
Qed.

Lemma mstep_roots_blank lb st st' :
  roots_blank st → mstep lb st st' → roots_blank st'.
Proof.
  intros HJ Hs.
  destruct Hs as [t st Hf|t nm st i c sec q sq Hf Hc Hcur Hk Hq
    |t nm st i c sec Hf Hc Hcur Hk|t st i c sec p Hf Hc Hcur Hpar|st|st].
  - intros c' Hc'. simpl in Hc'. apply elem_of_app in Hc' as [Hc'|Hc'].
    + destruct (HJ c' Hc') as (sr & Hr & Hrest). exists sr. split; [|done].
      simpl. rewrite lookup_insert_ne; [done|]. intros E.
      rewrite <- E, fresh_heap in Hr. done.
    + apply list_elem_of_singleton in Hc' as ->. simpl.
      eexists. split; [apply lookup_insert_eq|done].
  - intros c'. eapply (roots_blank_insert st); [done..|].
    intros r sr Hr Hnone. simpl. rewrite lookup_insert. case_decide as E.
    + subst r. eexists. split; [done|]. simpl.
      assert (sq = sr) as -> by congruence. done.
    + exists sr. by split_and!.
  - intros c'. eapply (roots_blank_insert st); [done..|].
    intros r sr Hr Hnone. simpl.
    assert (fresh (dom (heap st)) ≠ r) as Hfr.
    { intros E. rewrite <- E, fresh_heap in Hr. done. }
    rewrite lookup_insert_ne by done. rewrite lookup_insert. case_decide as E.
    + subst r. eexists. split; [done|]. simpl.
      assert (sec = sr) as -> by congruence. done.
    + rewrite lookup_insert_ne by done. exists sr. by split_and!.
  - intros c'. eapply (roots_blank_insert st); [done..|].
    intros r sr Hr Hnone. simpl. rewrite lookup_insert_ne; [exists sr; by split_and!|].
    intros E. subst r. congruence.
  - exact HJ.
  - intros c' Hc'. simpl in Hc'. by apply elem_of_nil in Hc'.
Qed.

(** Time is never recorded at a root: in every reachable state the root
    of every context has no calls and no average, besides no name and no
    parent. *)
Theorem roots_record_nothing st c :
  reachable st → c ∈ contexts st →
  ∃ sr, heap st !! toplevel c = Some sr ∧ call_count sr = 0 ∧
        avg_time sr = d_zero ∧ name sr = "" ∧ parent sr = None.
Proof.
  intros Hr. revert c. change (roots_blank st). revert st Hr.
  apply reachable_by_msteps.
  - intros clk e0 c Hc. simpl in Hc. by apply elem_of_nil in Hc.
  - intros lb st st' _ HJ Hs. by eapply mstep_roots_blank.
Qed.

(** ** Clock samples *)

Definition uses_clock (op : Op) : bool :=
  match op with
  | OpPush _ _ | OpPop _ => true
  | OpClear | OpDisplay _ => false
  end.

Lemma step_samples op st st' :
  tree_inv st → step op st = Some st' →
  clock st' = clock st ∧
  ticks st' = (ticks st + if uses_clock op then 1 else 0)%nat.
Proof.
  intros Hinv Hstep. destruct op as [tid nm|tid| |sort]; simpl in *.
  - destruct (SectionPush_spec tid nm st Hinv)
      as (i & st0 & c & q & sq & st1 & _ & _ & _ & Hpush & _ & _ & _ & _ & _ & _
          & _ & _ & Hclk & Htk & _).
    assert (st1 = st') as -> by congruence. split; [done|lia].
  - destruct (SectionPop_spec tid st Hinv)
      as (i & st0 & c & sec & st1 & _ & _ & _ & _ & Hpop & _ & Hclk & Htk & _).
    assert (st1 = st') as -> by congruence. split; [done|lia].
  - injection Hstep as <-. simpl. split; [done|lia].
  - injection Hstep as <-. split; [done|lia].
Qed.

(** Every push and every pop takes exactly one sample of the clock, a pop
    also when it is ignored at a root; clear and display take none. So
    after a run the number of samples taken is the number of pushes and
    pops in it. *)
Theorem one_sample_per_push_or_pop ops st st' :
  reachable st → run ops st = Some st' →
  clock st' = clock st ∧
  ticks st' = (ticks st + length (filter (λ op, uses_clock op = true) ops))%nat.
Proof.
  intros Hr. revert st Hr. induction ops as [|op ops IH]; intros st Hr; simpl.
  - intros [= <-]. split; [done|lia].
  - destruct (step op st) as [st1|] eqn:Hstep; simpl; [|done]. intros Hrun.
    destruct (step_samples _ _ _ (reachable_inv _ Hr) Hstep) as [Hclk Htk].
    destruct (IH st1 ltac:(by eapply reachable_step) Hrun) as [Hclk' Htk'].
    split; [congruence|]. rewrite Htk', Htk, filter_cons.
    destruct (uses_clock op); simpl; lia.
Qed.

(** ** The pieces of a push and of a pop, in order *)

Lemma SectionPush_cases tid nm st st' :
  tree_inv st → SectionPush tid nm st = Some st' →
  ∃ st0 i c sec,
    (st0 = st ∨ (find_context tid (contexts st) = None ∧ st0 = register tid st)) ∧
    find_context tid (contexts st0) = Some i ∧ contexts st0 !! i = Some c ∧
    heap st0 !! current c = Some sec ∧
    ((∃ q sq, children sec !! nm = Some q ∧ heap st0 !! q = Some sq ∧
              st' = enter_state i c q sq st0) ∨
     (children sec !! nm = None ∧ st' = create_state i c nm sec st0)).
Proof.
  assert (∀ st, tree_inv st → is_Some (find_context tid (contexts st)) →
            SectionPush tid nm st = Some st' →
            ∃ i c sec,
              find_context tid (contexts st) = Some i ∧ contexts st !! i = Some c ∧
              heap st !! current c = Some sec ∧
              ((∃ q sq, children sec !! nm = Some q ∧ heap st !! q = Some sq ∧
                        st' = enter_state i c q sq st) ∨
               (children sec !! nm = None ∧ st' = create_state i c nm sec st)))
    as Hfound.
  { clear st. intros st Hinv [i Hf] Hpush.
    destruct (find_context_Some _ _ _ Hf) as (c & Hc & _).
    assert (c ∈ contexts st) as Hcin by (apply list_elem_of_lookup; eauto).
    destruct (Hinv c Hcin) as [Hwf [l Hl]].
    destruct (wf_live _ _ _ _ Hwf Hl) as [sec Hcur].
    exists i, c, sec. split_and!; [done..|].
    destruct (children sec !! nm) as [q|] eqn:Hk.
    - destruct (wf_child _ _ Hwf _ _ _ _ _ Hl Hcur Hk) as (sq & Hq & _).
      rewrite (SectionPush_found _ _ _ _ _ _ _ _ Hf Hc Hcur Hk Hq) in Hpush.
      injection Hpush as <-. left. by exists q, sq.
    - rewrite (SectionPush_create _ _ _ _ _ _ Hf Hc Hcur Hk) in Hpush.
      injection Hpush as <-. by right. }
  intros Hinv Hpush.
  destruct (find_context tid (contexts st)) as [i|] eqn:Hf.
  - destruct (Hfound st Hinv ltac:(by rewrite Hf) Hpush) as (i' & c & sec & Hrest).
    exists st, i', c, sec. split; [by left|done].
  - rewrite (SectionPush_register _ _ _ Hf) in Hpush.
    destruct (Hfound (register tid st)) as (i' & c & sec & Hrest).
    + eapply mstep_tree_inv; [done|]. by apply ms_register.
    + by rewrite (proj1 (register_find _ _ Hf)).
    + done.
    + exists (register tid st), i', c, sec. split; [by right|done].
Qed.

Lemma SectionPop_cases tid st st' :
  tree_inv st → SectionPop tid st = Some st' →
  (find_context tid (contexts st) = None ∧
   st' = register tid (end_time_SetNow st)) ∨
  ∃ i c sec,
    find_context tid (contexts st) = Some i ∧ contexts st !! i = Some c ∧
    heap st !! current c = Some sec ∧
    ((parent sec = None ∧ st' = end_time_SetNow st) ∨
     (∃ p, parent sec = Some p ∧
           st' = leave_state i c sec p (end_time_SetNow st))).
Proof.
  intros Hinv Hpop. unfold SectionPop in Hpop.
  destruct (find_context tid (contexts st)) as [i|] eqn:Hf.
  - right. destruct (find_context_Some _ _ _ Hf) as (c & Hc & _).
    assert (c ∈ contexts st) as Hcin by (apply list_elem_of_lookup; eauto).
    destruct (Hinv c Hcin) as [Hwf [l Hl]].
    destruct (wf_live _ _ _ _ Hwf Hl) as [sec Hcur].
    rewrite (SectionPop_body_found tid (end_time_SetNow st) i c sec) in Hpop by done.
    injection Hpop as <-. exists i, c, sec. split_and!; [done..|].
    destruct (parent sec) as [p|]; [right; by exists p|by left].
  - left. split; [done|].
    rewrite (SectionPop_body_register tid (end_time_SetNow st)) in Hpop by done.
    by injection Hpop as <-.
Qed.

(** A push records no time: every section that was there keeps its
    count, its average, its name, its parent and its id, and a section
    the push constructs starts with no calls and no average. A call is
    counted when it is popped, not when it is entered. *)
Theorem push_records_nothing tid nm st st' a sa' :
  reachable st → SectionPush tid nm st = Some st' →
  heap st' !! a = Some sa' →
  match heap st !! a with
  | Some sa =>
      call_count sa' = call_count sa ∧ avg_time sa' = avg_time sa ∧
      name sa' = name sa ∧ parent sa' = parent sa ∧
      exec_order_id sa' = exec_order_id sa
  | None => call_count sa' = 0 ∧ avg_time sa' = d_zero
  end.
Proof.
  intros Hr Hpush Ha'.
  destruct (SectionPush_cases _ _ _ _ (reachable_inv _ Hr) Hpush)
    as (st0 & i & c & sec & Hst0 & Hf & Hc & Hcur & Hcase).
  assert (match heap st0 !! a with
          | Some sa =>
              call_count sa' = call_count sa ∧ avg_time sa' = avg_time sa ∧
              name sa' = name sa ∧ parent sa' = parent sa ∧
              exec_order_id sa' = exec_order_id sa
          | None => call_count sa' = 0 ∧ avg_time sa' = d_zero
          end) as H0.
  { destruct Hcase as [(q & sq & Hk & Hq & ->)|[Hk ->]]; simpl in Ha'.
    - rewrite lookup_insert in Ha'. case_decide as E.
      + subst a. injection Ha' as <-. by rewrite Hq.
      + by rewrite Ha'.
    - rewrite lookup_insert in Ha'. case_decide as E.
      + subst a. injection Ha' as <-. by rewrite fresh_heap.
      + rewrite lookup_insert in Ha'. case_decide as E2.
        * subst a. injection Ha' as <-. by rewrite Hcur.
        * rewrite lookup_insert_ne in Ha' by done. by rewrite Ha'. }
  destruct Hst0 as [->|[_ ->]]; [done|].
  simpl in H0. rewrite lookup_insert in H0. case_decide as E.
  - subst a. rewrite fresh_heap. simpl in H0. destruct H0 as (-> & -> & _). done.
  - done.
Qed.

End Ownership.

(** * What display lists *)

Section Listing.

Implicit Types (h : gmap nat (DProfileSection Q)) (l : list string).

(** The tree drawing before a label: one unit of two characters per level,
    a bar with a blank, or two blanks below a last child. *)
Inductive tree_art : string → Prop :=
  | art_nil : tree_art ""
  | art_bar a : tree_art a → tree_art (a +:+ "| ")
  | art_gap a : tree_art a → tree_art (a +:+ "  ").

Lemma string_length_app (s1 s2 : string) :
  String.length (s1 +:+ s2) = (String.length s1 + String.length s2)%nat.
Proof. induction s1 as [|a s1 IH]; simpl; [done|]. by rewrite IH. Qed.

Lemma substring_app_l (s1 s2 : string) :
  String.substring 0 (String.length s1) (s1 +:+ s2) = s1.
Proof.
  induction s1 as [|a s1 IH]; simpl.
  - by destruct s2.
  - by rewrite IH.
Qed.

Lemma drop_last2_unit (a u : string) :
  String.length u = 2%nat → drop_last2 (a +:+ u) = a.
Proof.
  intros Hu. unfold drop_last2. rewrite string_length_app, Hu.
  replace (String.length a + 2 - 2)%nat with (String.length a) by lia.
  apply substring_app_l.
Qed.

Lemma row_label_art (a : string) (sect : DProfileSection Q) :
  row_label (a +:+ "| ") sect = a +:+ "+ " +:+ name sect.
Proof.
  unfold row_label. rewrite decide_True.
  - by rewrite drop_last2_unit.
  - rewrite string_length_app. simpl. lia.
Qed.

Lemma next_prefix_art (a : string) i n :
  tree_art a →
  ∃ a', tree_art a' ∧ String.length a' = (String.length a + 2)%nat ∧
        next_prefix (a +:+ "| ") i n = a'.
Proof.
  intros Ha. unfold next_prefix. case_decide.
  - exists (a +:+ "  "). split_and!.
    + by constructor.
    + by rewrite string_length_app.
    + by rewrite drop_last2_unit.
  - exists (a +:+ "| "). split_and!; [by constructor| |done].
    by rewrite string_length_app.
Qed.

(** A child that is in the vector has its row in the listing, followed by
    the listing of what is below it. *)
Lemma rendered_rows_elem h sort_by prefix n i v out q sq :
  rendered_rows h sort_by prefix n i v out → (q, sq) ∈ v →
  row prefix sq ∈ out ∧
  ∃ j sub, rendered h sort_by q (next_prefix prefix j n +:+ "| ") sub ∧
           sub ⊆ out.
Proof.
  induction 1 as [|prefix n i p sect v sub rest Hsub _ IH]; intros Hin.
  - by apply elem_of_nil in Hin.
  - apply elem_of_cons in Hin as [[= -> ->]|Hin].
    + split; [by left|]. exists i, sub. split; [done|].
      intros x Hx. right. apply elem_of_app. by left.
    + destruct (IH Hin) as (Hrow & j & sub' & Hr & Hincl).
      split; [right; apply elem_of_app; by right|].
      exists j, sub'. split; [done|].
      intros x Hx. right. apply elem_of_app. right. by apply Hincl.
Qed.

Lemma children_vect_elem h (s : DProfileSection Q) v0 k q sq :
  children_vect h s = Some v0 → children s !! k = Some q → h !! q = Some sq →
  (q, sq) ∈ v0.
Proof.
  intros Hv Hk Hq. apply mapM_Some_1 in Hv.
  assert (q ∈ (map_iterate (children s)).*2) as [j Hj]%list_elem_of_lookup.
  { apply list_elem_of_fmap. exists (k, q). split; [done|].
    by apply elem_of_map_iterate. }
  destruct (Forall2_lookup_l _ _ _ _ _ Hv Hj) as (y & Hy & E).
  rewrite Hq in E. simpl in E. injection E as <-.
  apply list_elem_of_lookup. eauto.
Qed.

(** Every section below [this] has a row: its label is the tree drawing of
    its depth, then ["+ "], then its name. *)
Lemma rendered_lists h sort_by l :
  ∀ this art out a sa,
    tree_art art → rendered h sort_by this (art +:+ "| ") out →
    l ≠ [] → walk h this l = Some a → h !! a = Some sa →
    ∃ art', tree_art art' ∧
      String.length art' = (String.length art + 2 * (length l - 1))%nat ∧
      OutRow (art' +:+ "+ " +:+ name sa) (d_mul (avg_time sa) (d_of_int (call_count sa)))
             (avg_time sa) (call_count sa) ∈ out.
Proof.
  induction l as [|k l IH]; intros this art out a sa Hart Hr Hne Hw Ha; [done|].
  simpl in Hw.
  destruct (h !! this) as [s|] eqn:Hthis; simpl in Hw; [|done].
  destruct (children s !! k) as [q|] eqn:Hk; simpl in Hw; [|done].
  inversion Hr as [this' sec v0 v prefix out' Hsec Hv0 Hperm _ Hrows]; subst.
  assert (sec = s) as -> by congruence.
  assert (is_Some (h !! q)) as [sq Hq].
  { destruct l; simpl in Hw.
    - injection Hw as ->. eauto.
    - destruct (h !! q); [eauto|done]. }
  pose proof (children_vect_elem _ _ _ _ _ _ Hv0 Hk Hq) as Hin.
  rewrite <- Hperm in Hin.
  destruct (rendered_rows_elem _ _ _ _ _ _ _ _ _ Hrows Hin)
    as (Hrow & j & sub & Hsub & Hincl).
  destruct l as [|k' l].
  - simpl in Hw. injection Hw as ->. assert (sq = sa) as -> by congruence.
    exists art. split_and!; [done|simpl; lia|].
    unfold row in Hrow. by rewrite row_label_art in Hrow.
  - destruct (next_prefix_art art j (length v) Hart) as (art1 & Hart1 & Hlen1 & E).
    rewrite E in Hsub.
    destruct (IH q art1 sub a sa Hart1 Hsub ltac:(done) Hw Ha)
      as (art' & Hart' & Hlen' & Hrow').
    exists art'. split_and!; [done| |by apply Hincl].
    rewrite Hlen', Hlen1. simpl. lia.
Qed.

Lemma banners_elem i (trees : list (list (Output Q))) t x :
  t ∈ trees → x ∈ t → x ∈ banners i trees.
Proof.
  revert i. induction trees as [|t0 trees IH]; intros i Ht Hx.
  - by apply elem_of_nil in Ht.
  - simpl. right. apply elem_of_app.
    apply elem_of_cons in Ht as [->|Ht]; [by left|right; by apply IH].
Qed.

Lemma children_vect_inv h (s : DProfileSection Q) v0 p sp :
  children_vect h s = Some v0 → (p, sp) ∈ v0 →
  h !! p = Some sp ∧ ∃ k, children s !! k = Some p.
Proof.
  intros Hv [i Hi]%list_elem_of_lookup. apply mapM_Some_1 in Hv.
  destruct (Forall2_lookup_r _ _ _ _ _ Hv Hi) as (p' & Hp' & E).
  destruct (h !! p') as [sp'|] eqn:Hlive; simpl in E; [|done].
  injection E as -> ->. split; [done|].
  assert (p ∈ (map_iterate (children s)).*2) as Hin
    by (apply list_elem_of_lookup; eauto).
  apply list_elem_of_fmap in Hin as ([k p''] & -> & Hin).
  apply elem_of_map_iterate in Hin. eauto.
Qed.

(** What a listing holds: rows of sections below [this], each labelled
    with a tree drawing, ["+ "] and the name of the section. *)
Definition row_of h (this : nat) (x : Output Q) : Prop :=
  ∃ l a sa art,
    l ≠ [] ∧ walk h this l = Some a ∧ h !! a = Some sa ∧ tree_art art ∧
    x = OutRow (art +:+ "+ " +:+ name sa)
               (d_mul (avg_time sa) (d_of_int (call_count sa)))
               (avg_time sa) (call_count sa).

Scheme rendered_mut := Induction for rendered Sort Prop
  with rendered_rows_mut := Induction for rendered_rows Sort Prop.

Lemma rendered_sound h sort_by this prefix out :
  rendered h sort_by this prefix out →
  ∀ art, prefix = art +:+ "| " → tree_art art →
  ∀ x, x ∈ out → row_of h this x.
Proof.
  intros Hr.
  induction Hr as
    [this sec v0 v prefix out Hsec Hv0 Hperm Hsorted Hrows IH
    |prefix n i
    |prefix n i p sect v sub rest Hsub IHsub Hrest IHrest]
    using rendered_mut
    with (P0 := λ prefix n i v out _,
            ∀ art, prefix = art +:+ "| " → tree_art art →
            ∀ x, x ∈ out →
              ∃ p sp, (p, sp) ∈ v ∧
                (x = row prefix sp ∨ row_of h p x)).
  - intros art -> Hart x Hx.
    destruct (IH art eq_refl Hart x Hx) as (p & sp & Hin & Hcase).
    rewrite Hperm in Hin.
    destruct (children_vect_inv _ _ _ _ _ Hv0 Hin) as (Hp & k & Hk).
    destruct Hcase as [->|(l & a & sa & art' & Hne & Hw & Ha & Hart' & ->)].
    + exists [k], p, sp, art. split_and!; [done| |done|done|].
      * simpl. rewrite Hsec. simpl. by rewrite Hk.
      * unfold row. by rewrite row_label_art.
    + exists (k :: l), a, sa, art'. split_and!; [done| |done|done|done].
      simpl. rewrite Hsec. simpl. by rewrite Hk.
  - intros art _ _ x Hx. by apply elem_of_nil in Hx.
  - intros art -> Hart x Hx.
    apply elem_of_cons in Hx as [->|Hx].
    { exists p, sect. split; [by left|by left]. }
    apply elem_of_app in Hx as [Hx|Hx].
    + destruct (next_prefix_art art i n Hart) as (art1 & Hart1 & _ & E).
      exists p, sect. split; [by left|]. right.
      apply (IHsub art1); [by rewrite E|done|done].
    + destruct (IHrest art eq_refl Hart x Hx) as (p' & sp' & Hin & Hcase).
      exists p', sp'. split; [by right|done].
Qed.

Lemma banners_inv i (trees : list (list (Output Q))) x :
  x ∈ banners i trees → (∃ j, x = OutThread j) ∨ ∃ t, t ∈ trees ∧ x ∈ t.
Proof.
  revert i. induction trees as [|t trees IH]; intros i Hx; simpl in Hx.
  - by apply elem_of_nil in Hx.
  - apply elem_of_cons in Hx as [->|Hx]; [left; eauto|].
    apply elem_of_app in Hx as [Hx|Hx].
    + right. exists t. split; [by left|done].
    + destruct (IH _ Hx) as [?|(t' & Ht' & Hx')]; [by left|].
      right. exists t'. split; [by right|done].
Qed.

Variable std_sort :
  (DProfileSection Q → DProfileSection Q → bool) →
  list (nat * DProfileSection Q) → list (nat * DProfileSection Q).
Hypothesis std_sort_ok : sort_contract std_sort.

(** On every reachable state display returns, and every section that is
    not a root has its row: for the section at the end of the path [l]
    from the root of a context, a row with the section's total, average
    and count, whose label is a tree drawing of [2 * (length l - 1)]
    characters, then ["+ "], then the section's name. The branch of the
    code that prints a bare name is never taken. *)
Theorem display_lists_every_section sort_by (st : State Q) c l a sa :
  reachable st → c ∈ contexts st → l ≠ [] →
  walk (heap st) (toplevel c) l = Some a → heap st !! a = Some sa →
  ∃ out art,
    Display std_sort sort_by st = Some out ∧
    tree_art art ∧ String.length art = (2 * (length l - 1))%nat ∧
    OutRow (art +:+ "+ " +:+ name sa)
           (d_mul (avg_time sa) (d_of_int (call_count sa)))
           (avg_time sa) (call_count sa) ∈ out.
Proof.
  intros Hinv%reachable_inv Hc Hne Hw Ha.
  destruct (Display_contexts_rendered std_sort std_sort_ok (heap st) sort_by
              (contexts st)) with (i := 0%nat) as (trees & Hd & Htrees).
  { intros c' Hc'. apply (Hinv c' Hc'). }
  apply list_elem_of_lookup in Hc as [i Hi].
  destruct (Forall2_lookup_l _ _ _ _ _ Htrees Hi) as (tree & Htree & Hr).
  destruct (rendered_lists _ _ l _ "" tree a sa art_nil Hr Hne Hw Ha)
    as (art & Hart & Hlen & Hrow).
  eexists _, art. split_and!.
  - unfold Display. by rewrite Hd.
  - done.
  - done.
  - apply elem_of_app. right. apply elem_of_app. left.
    eapply banners_elem; [|done]. apply list_elem_of_lookup. eauto.
Qed.

(** Conversely display prints no row that is not the row of a section:
    every row of the output carries the name, total, average and count of
    a live section below the root of a registered context. With the
    theorem before, the rows are those of the sections that are not
    roots. *)
Theorem display_rows_are_sections sort_by (st : State Q) out label total avg count :
  reachable st → Display std_sort sort_by st = Some out →
  OutRow label total avg count ∈ out →
  ∃ c l a sa art,
    c ∈ contexts st ∧ l ≠ [] ∧ walk (heap st) (toplevel c) l = Some a ∧
    heap st !! a = Some sa ∧ tree_art art ∧
    label = art +:+ "+ " +:+ name sa ∧
    total = d_mul (avg_time sa) (d_of_int (call_count sa)) ∧
    avg = avg_time sa ∧ count = call_count sa.
Proof.
  intros Hinv%reachable_inv Hd Hx.
  destruct (Display_contexts_rendered std_sort std_sort_ok (heap st) sort_by
              (contexts st)) with (i := 0%nat) as (trees & Hd' & Htrees).
  { intros c' Hc'. apply (Hinv c' Hc'). }
  unfold Display in Hd. rewrite Hd' in Hd. simpl in Hd. injection Hd as <-.
  apply elem_of_cons in Hx as [[=]|Hx].
  apply elem_of_cons in Hx as [[=]|Hx].
  apply elem_of_cons in Hx as [[=]|Hx].
  apply elem_of_cons in Hx as [[=]|Hx].
  apply elem_of_app in Hx as [Hx|Hx]; [|by apply list_elem_of_singleton in Hx].
  apply banners_inv in Hx as [[j [=]]|(t & [i Hi]%list_elem_of_lookup & Hx)].
  destruct (Forall2_lookup_r _ _ _ _ _ Htrees Hi) as (c & Hc & Hr).
  destruct (rendered_sound _ _ _ _ _ Hr "" eq_refl art_nil _ Hx)
    as (l & a & sa & art & Hne & Hw & Ha & Hart & [= -> -> -> ->]).
  exists c, l, a, sa, art. split_and!; try done.
  apply list_elem_of_lookup. eauto.
Qed.

(** Over exact arithmetic both comparators are strict weak orders, which
    is what [std::sort] asks of its comparator: neither orders a section
    before itself, both are transitive, and so is being unordered. *)
Theorem comparators_are_strict_weak_orders sort_by :
  (∀ a : DProfileSection Q, comparator sort_by a a = false) ∧
  (∀ a b c : DProfileSection Q,
     comparator sort_by a b = true → comparator sort_by b c = true →
     comparator sort_by a c = true) ∧
  (∀ a b c : DProfileSection Q,
     comparator sort_by a b = false → comparator sort_by b c = false →
     comparator sort_by a c = false).
Proof. exact (comparator_strict_weak_order sort_by). Qed.

End Listing.

(** * A clock that does not go backwards *)

Section Monotone.

Implicit Types (st : State Q) (sec sa : DProfileSection Q).

(** With [n] samples taken: no section has more than [n] calls, no
    average is negative, and the timer of a section that has a parent
    holds one of the [n] samples. *)
Definition timed_ok (n : nat) st : Prop :=
  ∀ a sa, heap st !! a = Some sa →
    0 ≤ call_count sa ≤ Z.of_nat n ∧ (0 <= avg_time sa)%Q ∧
    (is_Some (parent sa) → ∃ k, (k < n)%nat ∧ timer sa = clock st k).

Lemma timed_ok_S n st : timed_ok n st → timed_ok (S n) st.
Proof.
  intros Hok a sa Ha. destruct (Hok a sa Ha) as (Hc & Havg & Ht).
  split_and!; [lia|lia|done|]. intros Hp. destruct (Ht Hp) as (k & Hk & E).
  exists k. split; [lia|done].
Qed.

Lemma timed_ok_stamp n st : timed_ok n st → timed_ok n (end_time_SetNow st).
Proof. intros Hok a sa Ha. exact (Hok a sa Ha). Qed.

Lemma timed_ok_register n tid st : timed_ok n st → timed_ok n (register tid st).
Proof.
  intros Hok a sa Ha. simpl in Ha. rewrite lookup_insert in Ha.
  case_decide as E.
  - injection Ha as <-. simpl. split_and!; [lia|lia|done|]. by intros [? ?].
  - exact (Hok a sa Ha).
Qed.

Lemma timed_ok_enter i c q sq st :
  timed_ok (ticks st) st → heap st !! q = Some sq →
  timed_ok (S (ticks st)) (enter_state i c q sq st).
Proof.
  intros Hok Hq a sa Ha. simpl in Ha. rewrite lookup_insert in Ha.
  case_decide as E.
  - injection Ha as <-. destruct (Hok q sq Hq) as (Hc & Havg & _). simpl.
    split_and!; [lia|lia|done|]. intros _. exists (ticks st). split; [lia|done].
  - exact (timed_ok_S _ _ Hok a sa Ha).
Qed.

Lemma timed_ok_create i c nm sec st :
  timed_ok (ticks st) st → heap st !! current c = Some sec →
  timed_ok (S (ticks st)) (create_state i c nm sec st).
Proof.
  intros Hok Hcur a sa Ha. simpl in Ha. rewrite lookup_insert in Ha.
  case_decide as E.
  - injection Ha as <-. simpl. split_and!; [lia|lia|done|].
    intros _. exists (ticks st). split; [lia|done].
  - rewrite lookup_insert in Ha. case_decide as E2.
    + injection Ha as <-. exact (timed_ok_S _ _ Hok (current c) sec Hcur).
    + rewrite lookup_insert_ne in Ha by done. exact (timed_ok_S _ _ Hok a sa Ha).
Qed.

Lemma record_time_nonneg (d : Q) sec :
  (0 <= d)%Q → (0 <= avg_time sec)%Q → 0 ≤ call_count sec < INT_MAX →
  (0 <= avg_time (record_time d sec))%Q.
Proof.
  intros Hd Havg Hc. rewrite record_time_avg.
  rewrite wrap_int_id by (int_consts; lia).
  apply Qle_shift_div_l.
  - change 0%Q with (inject_Z 0). rewrite <- Zlt_Qlt. lia.
  - rewrite Qmult_0_l. unfold total_of.
    change 0%Q with (0 + 0)%Q. apply Qplus_le_compat; [done|].
    apply Qmult_le_0_compat; [done|].
    change 0%Q with (inject_Z 0). rewrite <- Zle_Qle. lia.
Qed.

Lemma timed_ok_leave n i c sec p st :
  (∀ j k, (j ≤ k)%nat → (clock st j <= clock st k)%Q) →
  Z.of_nat n < INT_MAX →
  timed_ok n st → end_time st = clock st n →
  heap st !! current c = Some sec → parent sec = Some p →
  timed_ok (S n) (leave_state i c sec p st).
Proof.
  intros Hmono Hmax Hok Hend Hcur Hpar a sa Ha. simpl in Ha.
  rewrite lookup_insert in Ha. case_decide as E.
  - injection Ha as <-. destruct (Hok _ _ Hcur) as (Hc & Havg & Ht).
    destruct (Ht ltac:(by rewrite Hpar)) as (k & Hk & Etm).
    split_and!.
    + rewrite record_time_count, wrap_int_id by (int_consts; lia). lia.
    + rewrite record_time_count, wrap_int_id by (int_consts; lia). lia.
    + apply record_time_nonneg; [|done|lia].
      rewrite Hend, Etm. change (0 <= clock st n - clock st k)%Q.
      unfold Qminus. rewrite <- Qle_minus_iff. apply Hmono. lia.
    + intros _. exists k. split; [lia|done].
  - exact (timed_ok_S _ _ Hok a sa Ha).
Qed.

Lemma timed_ok_step op st st' :
  reachable st →
  (∀ j k, (j ≤ k)%nat → (clock st j <= clock st k)%Q) →
  Z.of_nat (ticks st) < INT_MAX →
  timed_ok (ticks st) st → step op st = Some st' →
  timed_ok (ticks st') st'.
Proof.
  intros Hr Hmono Hmax Hok Hstep.
  pose proof (reachable_inv _ Hr) as Hinv.
  destruct op as [tid nm|tid| |sort]; simpl in Hstep.
  - destruct (SectionPush_cases _ _ _ _ Hinv Hstep)
      as (st0 & i & c & sec & Hst0 & Hf & Hc & Hcur & Hcase).
    assert (timed_ok (ticks st0) st0) as Hok0.
    { destruct Hst0 as [->|[_ ->]]; [done|]. by apply timed_ok_register. }
    destruct Hcase as [(q & sq & Hk & Hq & ->)|[Hk ->]].
    + by apply timed_ok_enter.
    + by apply timed_ok_create.
  - destruct (SectionPop_cases _ _ _ Hinv Hstep)
      as [[Hf ->]|(i & c & sec & Hf & Hc & Hcur & [[Hpar ->]|(p & Hpar & ->)])].
    + apply timed_ok_register, timed_ok_S. by apply timed_ok_stamp.
    + apply timed_ok_S. by apply timed_ok_stamp.
    + by apply (timed_ok_leave (ticks st)).
  - injection Hstep as <-. intros a sa Ha.
    rewrite (Clear_heap_empty st Hinv (reachable_own_inv _ Hr)) in Ha.
    by rewrite lookup_empty in Ha.
  - by injection Hstep as <-.
Qed.

Lemma timed_ok_run ops st st' :
  reachable st →
  (∀ j k, (j ≤ k)%nat → (clock st j <= clock st k)%Q) →
  Z.of_nat (ticks st + length ops) ≤ INT_MAX →
  timed_ok (ticks st) st → run ops st = Some st' →
  timed_ok (ticks st') st' ∧ (ticks st' ≤ ticks st + length ops)%nat.
Proof.
  revert st. induction ops as [|op ops IH]; intros st Hr Hmono Hmax Hok; simpl.
  - intros [= <-]. split; [done|lia].
  - destruct (step op st) as [st1|] eqn:Hstep; simpl; [|done]. intros Hrun.
    rewrite length_cons in Hmax.
    destruct (step_samples _ _ _ (reachable_inv _ Hr) Hstep) as [Hclk Htk].
    assert (ticks st1 ≤ S (ticks st))%nat as Htk1.
    { rewrite Htk. destruct (uses_clock op); lia. }
    destruct (IH st1) as [Hok' Hle].
    + by eapply reachable_step.
    + by rewrite Hclk.
    + lia.
    + eapply timed_ok_step; [done|done|lia|done|done].
    + done.
    + split; [done|lia].
Qed.

(** With a clock that never goes backwards, and while the call counts
    cannot have wrapped around, no section of a profiler started fresh
    has a negative average or a negative count, and no count exceeds the
    number of operations performed. *)
Theorem averages_never_negative ops (clk : nat → Q) e0 st a sa :
  (∀ j k, (j ≤ k)%nat → (clk j <= clk k)%Q) →
  Z.of_nat (length ops) ≤ INT_MAX →
  run ops (init clk e0) = Some st → heap st !! a = Some sa →
  0 ≤ call_count sa ≤ Z.of_nat (length ops) ∧ (0 <= avg_time sa)%Q.
Proof.
  intros Hmono Hmax Hrun Ha.
  destruct (timed_ok_run ops (init clk e0) st) as [Hok Hle]; try done.
  - constructor.
  - simpl in Hle. destruct (Hok a sa Ha) as (Hc & Havg & _).
    split; [lia|done].
Qed.

End Monotone.

(** * The further properties, on the sample states *)

Definition sample_context : DProfileContext := mkContext 0 0 1.

Definition sample_B : DProfileSection Q :=
  default (DProfileSection_ctor 0) (heap sample_state !! 2%nat).


Lemma sample_context_in : sample_context ∈ contexts sample_state.
Proof. apply list_elem_of_lookup. exists 0%nat. vm_compute. reflexivity. Qed.

Lemma sample_walk_A : walk (heap sample_state) (toplevel sample_context) ["A"] = Some 1%nat.
Proof. vm_compute. reflexivity. Qed.

Lemma sample_walk_B :
  walk (heap sample_state) (toplevel sample_context) ["A"; "B"] = Some 2%nat.
Proof. vm_compute. reflexivity. Qed.

Lemma sample_B_live : heap sample_state !! 2%nat = Some sample_B.
Proof. vm_compute. reflexivity. Qed.


Lemma registry_one_context_per_thread_witness :
  reachable sample_state ∧
  NoDup (thread_context <$> contexts sample_state) ∧
  NoDup (toplevel <$> contexts sample_state).
Proof.
  exact (conj sample_reachable
           (registry_one_context_per_thread sample_state sample_reachable)).
Defined.

Lemma every_section_has_one_owner_witness :
  reachable sample_state ∧ is_Some (heap sample_state !! 1%nat) ∧
  ∃ i c, contexts sample_state !! i = Some c ∧
         desc (heap sample_state) (toplevel c) 1%nat ∧
         ∀ j c', contexts sample_state !! j = Some c' →
                 desc (heap sample_state) (toplevel c') 1%nat → j = i.
Proof.
  refine (conj sample_reachable (conj (ex_intro _ sample_A sample_A_live) _)).
  exact (every_section_has_one_owner sample_state 1%nat sample_reachable
           (ex_intro _ sample_A sample_A_live)).
Defined.

Lemma delete_section_frees_subtree_witness :
  reachable sample_state ∧ sample_context ∈ contexts sample_state ∧
  walk (heap sample_state) (toplevel sample_context) ["A"] = Some 1%nat ∧
  (∀ a, desc (heap sample_state) 1%nat a →
        delete_section (S (size (heap sample_state))) 1%nat (heap sample_state) !! a
          = None) ∧
  (∀ a, ¬ desc (heap sample_state) 1%nat a →
        delete_section (S (size (heap sample_state))) 1%nat (heap sample_state) !! a
          = heap sample_state !! a).
Proof.
  refine (conj sample_reachable (conj sample_context_in (conj sample_walk_A _))).
  exact (delete_section_frees_subtree sample_state sample_context ["A"] 1%nat
           sample_reachable sample_context_in sample_walk_A).
Defined.

Lemma Clear_frees_every_section_witness :
  reachable sample_state ∧
  contexts (Clear sample_state) = [] ∧ heap (Clear sample_state) = ∅ ∧
  EXEC_ORDER_ID (Clear sample_state) = EXEC_ORDER_ID sample_state.
Proof.
  exact (conj sample_reachable
           (Clear_frees_every_section sample_state sample_reachable)).
Defined.


(** Two threads: thread 1 is in its section "A" when thread 2 enters and
    leaves "B", and the tree is displayed. *)
Definition two_threads_state : State Q :=
  default sample_init (run [OpPush 1%nat "A"] sample_init).

Definition two_threads_ops : list Op :=
  [OpPush 2%nat "B"; OpPop 2%nat; OpDisplay SORT_TIME].

Definition two_threads_later : State Q :=
  default sample_init (run two_threads_ops two_threads_state).

Lemma two_threads_reachable : reachable two_threads_state.
Proof.
  apply (run_reachable [OpPush 1%nat "A"] sample_init); [constructor|].
  vm_compute. reflexivity.
Qed.

Lemma two_threads_others :
  Forall (λ op, op ≠ OpClear ∧ op_thread op ≠ Some 1%nat) two_threads_ops.
Proof. repeat constructor; discriminate. Qed.

Lemma two_threads_run : run two_threads_ops two_threads_state = Some two_threads_later.
Proof. vm_compute. reflexivity. Qed.

Lemma other_threads_leave_tree_untouched_witness :
  reachable two_threads_state ∧
  Forall (λ op, op ≠ OpClear ∧ op_thread op ≠ Some 1%nat) two_threads_ops ∧
  run two_threads_ops two_threads_state = Some two_threads_later ∧
  context_of 1 two_threads_later = context_of 1 two_threads_state ∧
  ∀ c, context_of 1 two_threads_state = Some c →
    ∀ l a, walk (heap two_threads_state) (toplevel c) l = Some a →
      heap two_threads_later !! a = heap two_threads_state !! a ∧
      walk (heap two_threads_later) (toplevel c) l = Some a.
Proof.
  refine (conj two_threads_reachable
            (conj two_threads_others (conj two_threads_run _))).
  exact (other_threads_leave_tree_untouched 1%nat two_threads_ops
           two_threads_state two_threads_later two_threads_reachable
           two_threads_others two_threads_run).
Defined.

Definition sample_pushed : State Q :=
  default sample_init (step (OpPush 0%nat "C") sample_state).

Lemma sample_pushed_step : step (OpPush 0%nat "C") sample_state = Some sample_pushed.
Proof. vm_compute. reflexivity. Qed.

Lemma sample_pushed_push : SectionPush 0 "C" sample_state = Some sample_pushed.
Proof. exact sample_pushed_step. Qed.




(** A block of thread 0 with a nested block inside; thread 1 pushes in
    the body, between the two halves of the inner pop, and between the
    two halves of the pop that closes the block. *)
Definition block_body : list Act :=
  [AOp (OpPush 0%nat "D"); AOp (OpPush 1%nat "X"); ASample;
   AOp (OpPush 1%nat "Y"); ARecord 0%nat].

Definition block_gap : list Act := [AOp (OpPush 1%nat "Z")].

Lemma block_body_nested : nested 0 block_body.
Proof.
  apply (nested_block 0 "D" [AOp (OpPush 1%nat "X")] [AOp (OpPush 1%nat "Y")] []).
  - apply nested_other; [split; discriminate|constructor].
  - repeat constructor; discriminate.
  - constructor.
Qed.

Lemma block_gap_foreign : Forall (foreign 0) block_gap.
Proof. repeat constructor; discriminate. Qed.

Lemma block_records_one_call_witness :
  reachable sample_state ∧ nested 0 block_body ∧ Forall (foreign 0) block_gap ∧
  ∃ st1 st2 st3 st4 c q s1 s4,
    SectionPush 0 "C" sample_state = Some st1 ∧ acts block_body st1 = Some st2 ∧
    acts block_gap (end_time_SetNow st2) = Some st3 ∧
    SectionPop_body 0 st3 = Some st4 ∧
    entry_context 0 sample_state = Some c ∧
    context_of 0 st1 = Some (set_current q c) ∧
    heap st1 !! q = Some s1 ∧ parent s1 = Some (current c) ∧ name s1 = "C" ∧
    (match heap sample_state !! q with
     | Some s0 => call_count s1 = call_count s0 ∧ avg_time s1 = avg_time s0
     | None => call_count s1 = 0 ∧ avg_time s1 = d_zero
     end) ∧
    context_of 0 st4 = Some c ∧
    heap st4 !! q = Some s4 ∧
    call_count s4 = wrap_int (call_count s1 + 1) ∧
    avg_time s4 =
      d_div (d_add (d_sub (end_time st3) (now sample_state))
                   (d_mul (avg_time s1) (d_of_int (call_count s1))))
            (d_of_int (wrap_int (call_count s1 + 1))) ∧
    (Forall (λ a, samples a = false) block_gap → end_time st3 = now st2) ∧
    ∀ a sa, a ≠ q → open_at (heap st1) q a → heap st1 !! a = Some sa →
      ∃ sa', heap st4 !! a = Some sa' ∧ frame sa' = frame sa.
Proof.
  refine (conj sample_reachable (conj block_body_nested (conj block_gap_foreign _))).
  exact (block_records_one_call 0%nat "C" block_body block_gap sample_state
           sample_reachable block_body_nested block_gap_foreign).
Defined.

Lemma sample_path_not_empty : ["A"; "B"] ≠ ([] : list string).
Proof. discriminate. Qed.

Lemma display_lists_every_section_witness :
  sort_contract (@merge_std_sort nat (DProfileSection Q)) ∧
  reachable sample_state ∧ sample_context ∈ contexts sample_state ∧
  ["A"; "B"] ≠ ([] : list string) ∧
  walk (heap sample_state) (toplevel sample_context) ["A"; "B"] = Some 2%nat ∧
  heap sample_state !! 2%nat = Some sample_B ∧
  ∃ out art,
    Display merge_std_sort SORT_TIME sample_state = Some out ∧
    tree_art art ∧
    String.length art = (2 * (length ["A"; "B"] - 1))%nat ∧
    OutRow (art +:+ "+ " +:+ name sample_B)
           (d_mul (avg_time sample_B) (d_of_int (call_count sample_B)))
           (avg_time sample_B) (call_count sample_B) ∈ out.
Proof.
  refine (conj merge_std_sort_contract
            (conj sample_reachable
               (conj sample_context_in
                  (conj sample_path_not_empty
                     (conj sample_walk_B (conj sample_B_live _)))))).
  exact (display_lists_every_section merge_std_sort merge_std_sort_contract
           SORT_TIME sample_state sample_context ["A"; "B"] 2%nat sample_B
           sample_reachable sample_context_in sample_path_not_empty
           sample_walk_B sample_B_live).
Defined.

Lemma roots_record_nothing_witness :
  reachable sample_state ∧ sample_context ∈ contexts sample_state ∧
  ∃ sr, heap sample_state !! toplevel sample_context = Some sr ∧
        call_count sr = 0 ∧ avg_time sr = d_zero ∧ name sr = "" ∧
        parent sr = None.
Proof.
  refine (conj sample_reachable (conj sample_context_in _)).
  exact (roots_record_nothing sample_state sample_context sample_reachable
           sample_context_in).
Defined.

Lemma one_sample_per_push_or_pop_witness :
  reachable sample_state ∧
  run [OpPush 0%nat "C"; OpPop 0%nat] sample_state = Some sample_later ∧
  clock sample_later = clock sample_state ∧
  ticks sample_later =
    (ticks sample_state +
     length (filter (λ op, uses_clock op = true) [OpPush 0%nat "C"; OpPop 0%nat]))%nat.
Proof.
  refine (conj sample_reachable (conj sample_later_run _)).
  exact (one_sample_per_push_or_pop [OpPush 0%nat "C"; OpPop 0%nat] sample_state
           sample_later sample_reachable sample_later_run).
Defined.

(** A clock that reads 0, 1, 2, ... *)
Definition steady_clock : nat → Q := λ n, inject_Z (Z.of_nat n).

Definition steady_state : State Q :=
  default sample_init (run sample_ops (init steady_clock 0%Q)).

Definition steady_B : DProfileSection Q :=
  default (DProfileSection_ctor 0) (heap steady_state !! 2%nat).

Lemma steady_clock_mono j k : (j ≤ k)%nat → (steady_clock j <= steady_clock k)%Q.
Proof. intros Hjk. unfold steady_clock. rewrite <- Zle_Qle. lia. Qed.

Lemma steady_run : run sample_ops (init steady_clock 0%Q) = Some steady_state.
Proof. vm_compute. reflexivity. Qed.

Lemma steady_B_live : heap steady_state !! 2%nat = Some steady_B.
Proof. vm_compute. reflexivity. Qed.

Lemma sample_ops_short : Z.of_nat (length sample_ops) ≤ INT_MAX.
Proof. by vm_compute. Qed.

Lemma averages_never_negative_witness :
  (∀ j k, (j ≤ k)%nat → (steady_clock j <= steady_clock k)%Q) ∧
  Z.of_nat (length sample_ops) ≤ INT_MAX ∧
  run sample_ops (init steady_clock 0%Q) = Some steady_state ∧
  heap steady_state !! 2%nat = Some steady_B ∧
  0 ≤ call_count steady_B ≤ Z.of_nat (length sample_ops) ∧
  (0 <= avg_time steady_B)%Q.
Proof.
  refine (conj steady_clock_mono
            (conj sample_ops_short (conj steady_run (conj steady_B_live _)))).
  exact (averages_never_negative sample_ops steady_clock 0%Q steady_state 2%nat
           steady_B steady_clock_mono sample_ops_short steady_run steady_B_live).
Defined.

Definition pushed_A : DProfileSection Q :=
  default (DProfileSection_ctor 0) (heap sample_pushed !! 1%nat).

Lemma pushed_A_live : heap sample_pushed !! 1%nat = Some pushed_A.
Proof. vm_compute. reflexivity. Qed.

Lemma push_records_nothing_witness :
  reachable sample_state ∧
  SectionPush 0 "C" sample_state = Some sample_pushed ∧
  heap sample_pushed !! 1%nat = Some pushed_A ∧
  match heap sample_state !! 1%nat with
  | Some sa =>
      call_count pushed_A = call_count sa ∧ avg_time pushed_A = avg_time sa ∧
      name pushed_A = name sa ∧ parent pushed_A = parent sa ∧
      exec_order_id pushed_A = exec_order_id sa
  | None => call_count pushed_A = 0 ∧ avg_time pushed_A = d_zero
  end.
Proof.
  refine (conj sample_reachable (conj sample_pushed_push (conj pushed_A_live _))).
  exact (push_records_nothing 0%nat "C" sample_state sample_pushed 1%nat pushed_A
           sample_reachable sample_pushed_push pushed_A_live).
Defined.

Definition sample_out : list (Output Q) :=
  default [] (Display merge_std_sort SORT_TIME sample_state).

Lemma sample_display : Display merge_std_sort SORT_TIME sample_state = Some sample_out.
Proof. vm_compute. reflexivity. Qed.

Lemma sample_out_row_B :
  OutRow "  + B" (d_mul (avg_time sample_B) (d_of_int (call_count sample_B)))
         (avg_time sample_B) (call_count sample_B) ∈ sample_out.
Proof. apply list_elem_of_lookup. exists 6%nat. vm_compute. reflexivity. Qed.

Lemma display_rows_are_sections_witness :
  sort_contract (@merge_std_sort nat (DProfileSection Q)) ∧
  reachable sample_state ∧
  Display merge_std_sort SORT_TIME sample_state = Some sample_out ∧
  OutRow "  + B" (d_mul (avg_time sample_B) (d_of_int (call_count sample_B)))
         (avg_time sample_B) (call_count sample_B) ∈ sample_out ∧
  ∃ c l a sa art,
    c ∈ contexts sample_state ∧ l ≠ [] ∧
    walk (heap sample_state) (toplevel c) l = Some a ∧
    heap sample_state !! a = Some sa ∧ tree_art art ∧
    "  + B" = art +:+ "+ " +:+ name sa ∧
    d_mul (avg_time sample_B) (d_of_int (call_count sample_B)) =
      d_mul (avg_time sa) (d_of_int (call_count sa)) ∧
    avg_time sample_B = avg_time sa ∧ call_count sample_B = call_count sa.
Proof.
  refine (conj merge_std_sort_contract
            (conj sample_reachable (conj sample_display (conj sample_out_row_B _)))).
  exact (display_rows_are_sections merge_std_sort merge_std_sort_contract
           SORT_TIME sample_state sample_out _ _ _ _
           sample_reachable sample_display sample_out_row_B).
Defined.

(** * The order of the rows *)

(** [comp] is a strict weak order on the values that satisfy [P]: what
    [std::sort] requires of its comparator on the values it is given. *)
Definition strict_weak_order_on {A} (P : A → Prop) (comp : A → A → bool) : Prop :=
  (∀ a, P a → comp a a = false) ∧
  (∀ a b c, P a → P b → P c →
     comp a b = true → comp b c = true → comp a c = true) ∧
  (∀ a b c, P a → P b → P c →
     comp a b = false → comp b c = false → comp a c = false).

(** The contract of [std::sort], with its precondition on the values of
    the range only. *)
Definition sort_contract_on {A B}
    (sort : (B → B → bool) → list (A * B) → list (A * B)) : Prop :=
  ∀ comp v, strict_weak_order_on (λ b, b ∈ v.*2) comp →
    sort comp v ≡ₚ v ∧ StronglySorted (λ a b, comp b.2 a.2 = false) (sort comp v).

(** [std::sort] as an insertion sort. *)
Fixpoint insert_by {A B} (comp : B → B → bool) (x : A * B) (l : list (A * B))
  : list (A * B) :=
  match l with
  | [] => [x]
  | y :: l' => if comp x.2 y.2 then x :: l else y :: insert_by comp x l'
  end.

Definition insertion_std_sort {A B} (comp : B → B → bool) (l : list (A * B))
  : list (A * B) :=
  foldr (insert_by comp) [] l.


Lemma strict_weak_order_all {A} (P : A → Prop) comp :
  strict_weak_order comp → strict_weak_order_on P comp.
Proof.
  intros (Hirr & Htr & Hneg). split_and!.
  - intros a _. apply Hirr.
  - intros a b c _ _ _. apply Htr.
  - intros a b c _ _ _. apply Hneg.
Qed.

Lemma sort_contract_on_all {A B}
    (sort : (B → B → bool) → list (A * B) → list (A * B)) :
  sort_contract_on sort → sort_contract sort.
Proof. intros Hs comp v Hc. by apply Hs, strict_weak_order_all. Qed.






Section SiblingOrder.

Context {T : Type} `{DoubleOps T}.

Implicit Types (h : gmap nat (DProfileSection T)) (st : State T).
Implicit Types (sec sect : DProfileSection T) (l : list string).
Implicit Types (v : list (nat * DProfileSection T)).













Variable std_sort :
  (DProfileSection T → DProfileSection T → bool) →
  list (nat * DProfileSection T) → list (nat * DProfileSection T).
Hypothesis std_sort_ok : sort_contract_on std_sort.





End SiblingOrder.

(** ** When accumulated times can be compared *)








(** ** The order of the rows, on a tree with siblings *)


Definition siblings_float_init : State float :=
  init (mock_clock [0; 10; 20; 30; 40; 120]%float) 0%float.

Definition siblings_float : State float :=
  default siblings_float_init (run siblings_ops siblings_float_init).







(** What display prints for that tree, with the insertion sort for
    [std::sort]: by time "slow" comes first, by execution "fast"; in
    binary64 as over the rationals. *)
Example siblings_float_by_time :
  Display insertion_std_sort SORT_TIME siblings_float =
  Some (Display_header SORT_TIME ++
        [OutThread 0; OutRow "+ slow" 100%float 100%float 1;
         OutRow "| + in" 10%float 10%float 1;
         OutRow "+ fast" 10%float 10%float 1; OutText rule]).
Proof. vm_compute. reflexivity. Qed.

Example siblings_float_by_execution :
  Display insertion_std_sort SORT_EXECUTION siblings_float =
  Some (Display_header SORT_EXECUTION ++
        [OutThread 0; OutRow "+ fast" 10%float 10%float 1;
         OutRow "+ slow" 100%float 100%float 1;
         OutRow "  + in" 10%float 10%float 1; OutText rule]).
Proof. vm_compute. reflexivity. Qed.
